(** * datahaven-indexer: a shallow embedding of the ingestion pipeline

    The development follows the TypeScript sources:
    - [src/utils/retry.ts]   error classifiers and the retry loop   (module [Retry])
    - [src/db/connection.ts] the document store and the gap detector (modules [Db], [Gap])
    - [src/db/indexer.ts]    [fetchBlockData], normalisation and [index] (modules
      [Normalize], [Indexer]); [Schedule] is the loop of [index] with the
      fetches settling in any order, [Log] the vocabulary for its history

    JavaScript numbers that hold block heights, counters and delays are
    modelled as [Z]; strings are [string]; values of type [any] that the
    code only passes through are modelled by their printed form. Wall-clock
    fields ([indexedAt], [lastUpdated]) and console output are left out. *)

From Stdlib Require Import ZArith List Bool Lia String Ascii Sorted.
Import ListNotations.
Open Scope Z_scope.

(** ** JavaScript values the code inspects *)

(** [error?.code] is compared with both a number and strings. *)
Inductive JsCode :=
| CodeUndefined
| CodeNum (n : Z)
| CodeStr (s : string).

(** A thrown value, as far as [retry.ts] looks at it: [error?.message] and
    [error?.code]. A thrown [undefined] has neither. *)
Record JsError := mkError {
  message : option string;
  code : JsCode
}.

(** The outcome of awaiting a promise. *)
Inductive Outcome (A : Type) :=
| Resolved (a : A)
| Rejected (e : JsError).
Arguments Resolved {A} a.
Arguments Rejected {A} e.

(** ** String helpers ([toLowerCase], [includes]) *)

Module Str.

Definition lowerAscii (c : ascii) : ascii :=
  let n := nat_of_ascii c in
  if (Nat.leb 65 n && Nat.leb n 90)%bool then ascii_of_nat (n + 32) else c.

(** [String.prototype.toLowerCase], on the ASCII letters. *)
Fixpoint toLowerCase (s : string) : string :=
  match s with
  | EmptyString => EmptyString
  | String c s' => String (lowerAscii c) (toLowerCase s')
  end.

(** [hay.includes(needle)] *)
Fixpoint includes (hay needle : string) : bool :=
  if String.prefix needle hay then true
  else match hay with
       | EmptyString => false
       | String _ hay' => includes hay' needle
       end.

End Str.

(** ** src/utils/retry.ts *)

Module Retry.

(** [error?.message?.toLowerCase() || ''] *)
Definition errorMessage (error : JsError) : string :=
  match message error with
  | Some m => Str.toLowerCase m
  | None => EmptyString
  end.

(** [error?.code || '']: a falsy code (undefined, 0, the empty string)
    becomes the empty string. *)
Definition errorCode (error : JsError) : JsCode :=
  match code error with
  | CodeUndefined => CodeStr EmptyString
  | CodeNum 0 => CodeStr EmptyString
  | c => c
  end.

Definition codeIsNum (c : JsCode) (n : Z) : bool :=
  match c with CodeNum m => m =? n | _ => false end.

Definition codeIsStr (c : JsCode) (s : string) : bool :=
  match c with CodeStr t => String.eqb t s | _ => false end.

Definition isStatePrunedError (error : JsError) : bool :=
  let errorMessage := errorMessage error in
  let errorCode := errorCode error in
  Str.includes errorMessage "state already discarded" ||
  Str.includes errorMessage "unknown block" ||
  codeIsNum errorCode 4003.

Definition isNetworkError (error : JsError) : bool :=
  let errorMessage := errorMessage error in
  let errorCode := errorCode error in
  Str.includes errorMessage "timeout" ||
  Str.includes errorMessage "timed out" ||
  Str.includes errorMessage "econnrefused" ||
  Str.includes errorMessage "econnreset" ||
  Str.includes errorMessage "enotfound" ||
  Str.includes errorMessage "enetunreach" ||
  Str.includes errorMessage "disconnected" ||
  Str.includes errorMessage "websocket is not connected" ||
  Str.includes errorMessage "abnormal closure" ||
  Str.includes errorMessage "connection closed" ||
  Str.includes errorMessage "socket hang up" ||
  Str.includes errorMessage "no response received" ||
  codeIsStr errorCode "ECONNREFUSED" ||
  codeIsStr errorCode "ECONNRESET" ||
  codeIsStr errorCode "ETIMEDOUT" ||
  codeIsStr errorCode "ENOTFOUND".

(** [RetryOptions] after the defaults are merged in. [maxAttempts = None]
    is [Infinity]. *)
Record RetryOptions := mkRetryOptions {
  maxAttempts : option Z;
  initialDelay : Z;
  maxDelay : Z;
  backoffMultiplier : Z;
  shouldRetry : JsError -> bool
}.

Definition DEFAULT_RETRY_OPTIONS : RetryOptions :=
  {| maxAttempts := None;
     initialDelay := 1000;
     maxDelay := 60000;
     backoffMultiplier := 2;
     shouldRetry := fun _ => true |}.

(** What a call of [retryWithBackoff] amounts to: the value returned, the
    error thrown, or, when the fuel of the model is used up, a loop that is
    still retrying. [slept] lists the delays passed to [sleep], in order. *)
Inductive RetryResult (A : Type) :=
| Returned (a : A) (slept : list Z)
| Threw (e : JsError) (slept : list Z)
| StillRetrying (slept : list Z).
Arguments Returned {A} a slept.
Arguments Threw {A} e slept.
Arguments StillRetrying {A} slept.

Definition attemptsExceeded (attempt : Z) (opts : RetryOptions) : bool :=
  match maxAttempts opts with
  | None => false
  | Some m => m <=? attempt
  end.

Section RetryLoop.
Context {A : Type}.
  (** [fn k] is what the [k]-th call of the wrapped operation does. *)
Variable fn : nat -> Outcome A.
Variable opts : RetryOptions.

  (** The [while (true)] loop of [retryWithBackoff]; [calls] counts the
      invocations of [fn] made so far, [attempt] and [delay] are the
      source's variables. *)
Fixpoint retryLoop (fuel : nat) (calls : nat) (attempt delay : Z)
           (slept : list Z) : RetryResult A :=
    match fuel with
    | O => StillRetrying slept
    | S fuel' =>
        match fn calls with
        | Resolved a => Returned a slept
        | Rejected error =>
            let attempt := attempt + 1 in
            if negb (shouldRetry opts error) then Threw error slept
            else if attemptsExceeded attempt opts then Threw error slept
            else
              let nextDelay := Z.min delay (maxDelay opts) in
              let delay := Z.min (delay * backoffMultiplier opts) (maxDelay opts) in
              retryLoop fuel' (S calls) attempt delay (slept ++ [nextDelay])
        end
    end.

Definition retryWithBackoff (fuel : nat) : RetryResult A :=
    retryLoop fuel O 0 (initialDelay opts) [].
End RetryLoop.

Definition networkRetryOptions : RetryOptions :=
  {| maxAttempts := None;
     initialDelay := 60000;
     maxDelay := 60000;
     backoffMultiplier := 1;
     shouldRetry := isNetworkError |}.

Definition retryOnNetworkError {A} (fn : nat -> Outcome A) (fuel : nat)
  : RetryResult A :=
  retryWithBackoff fn networkRetryOptions fuel.

(** The result of a retry loop without the delays it slept. *)
Definition settledAs {A} (r : RetryResult A) : option (Outcome A) :=
  match r with
  | Returned a _ => Some (Resolved a)
  | Threw e _ => Some (Rejected e)
  | StillRetrying _ => None
  end.

End Retry.

(** ** src/db/types.ts *)

Module BlockDocument.
Record t := mk {
    number : Z;
    hash : string;
    parentHash : string;
    stateRoot : string;
    extrinsicsRoot : string;
    timestamp : Z;
    extrinsicCount : Z;
    eventCount : Z;
    author : option string;
    chainId : Z
  }.
End BlockDocument.

(** [args: Record<string, any>]: a JavaScript object keeps its string keys
    in insertion order, so it is an association list updated in place. *)
Definition ArgsObject := list (string * string).

Module ExtrinsicDocument.
Record t := mk {
    blockNumber : Z;
    blockHash : string;
    extrinsicIndex : Z;
    hash : string;
    pallet : string;
    method : string;
    args : ArgsObject;
    signer : option string;
    success : bool;
    error : option string;
    timestamp : Z;
    nonce : option Z;
    tip : option string;
    isSigned : bool;
    chainId : Z
  }.
End ExtrinsicDocument.

Module EventDocument.
Record t := mk {
    blockNumber : Z;
    blockHash : string;
    eventIndex : Z;
    extrinsicIndex : option Z;
    pallet : string;
    method : string;
    data : list string;
    phase : string;
    topics : list string;
    timestamp : Z;
    chainId : Z
  }.
End EventDocument.

Module ScanProgressDocument.
Record t := mk {
    chainId : Z;
    chainName : string;
    lastIndexedBlock : Z;
    blocksIndexed : Z;
    extrinsicsIndexed : Z;
    eventsIndexed : Z;
    isComplete : bool;
    targetEndBlock : option Z
  }.
End ScanProgressDocument.

(** ** src/db/connection.ts: the store *)

Module Db.

(** The four collections, each in insertion order. *)
Record Store := mkStore {
  blocks : list BlockDocument.t;
  extrinsics : list ExtrinsicDocument.t;
  events : list EventDocument.t;
  scanProgress : list ScanProgressDocument.t
}.

Definition emptyStore : Store := mkStore [] [] [] [].

(** The driver's answer to a write that breaks a unique index. *)
Definition duplicateKeyError : JsError :=
  mkError (Some "E11000 duplicate key error"%string) (CodeNum 11000).

(** [ensureIndexes]: blocks are unique on [number] and on [hash]. *)
Definition blockConflicts (d b : BlockDocument.t) : bool :=
  (BlockDocument.number b =? BlockDocument.number d) ||
  String.eqb (BlockDocument.hash b) (BlockDocument.hash d).

(** extrinsics are unique on [(blockNumber, extrinsicIndex)] *)
Definition extrinsicConflicts (d x : ExtrinsicDocument.t) : bool :=
  (ExtrinsicDocument.blockNumber x =? ExtrinsicDocument.blockNumber d) &&
  (ExtrinsicDocument.extrinsicIndex x =? ExtrinsicDocument.extrinsicIndex d).

(** events are unique on [(blockNumber, eventIndex)] *)
Definition eventConflicts (d x : EventDocument.t) : bool :=
  (EventDocument.blockNumber x =? EventDocument.blockNumber d) &&
  (EventDocument.eventIndex x =? EventDocument.eventIndex d).

(** [collection.insertOne(doc)] under a unique index. *)
Definition insertOne {D} (conflicts : D -> D -> bool) (coll : list D) (doc : D)
  : list D * option JsError :=
  if existsb (conflicts doc) coll then (coll, Some duplicateKeyError)
  else (coll ++ [doc], None).

(** [collection.insertMany(docs)], ordered: documents go in one by one and
    the first conflict stops the batch, leaving the earlier ones written. *)
Fixpoint insertMany {D} (conflicts : D -> D -> bool) (coll : list D) (docs : list D)
  : list D * option JsError :=
  match docs with
  | [] => (coll, None)
  | doc :: rest =>
      match insertOne conflicts coll doc with
      | (coll', None) => insertMany conflicts coll' rest
      | (coll', Some e) => (coll', Some e)
      end
  end.

Definition getScanProgress (s : Store) (chainId : Z) : option ScanProgressDocument.t :=
  find (fun p => ScanProgressDocument.chainId p =? chainId) (scanProgress s).

(** [updateOne({chainId}, {$set: progress}, {upsert: true})]: every field
    of the document is set, so a match is replaced and a miss is added. *)
Fixpoint upsertProgress (progress : ScanProgressDocument.t)
         (coll : list ScanProgressDocument.t) : list ScanProgressDocument.t :=
  match coll with
  | [] => [progress]
  | p :: rest =>
      if ScanProgressDocument.chainId p =? ScanProgressDocument.chainId progress
      then progress :: rest
      else p :: upsertProgress progress rest
  end.

Definition updateScanProgress (s : Store) (progress : ScanProgressDocument.t) : Store :=
  mkStore (blocks s) (extrinsics s) (events s) (upsertProgress progress (scanProgress s)).

(** [.sort({ number: 1 })] on the projected block numbers. *)
Fixpoint insertAsc (n : Z) (l : list Z) : list Z :=
  match l with
  | [] => [n]
  | m :: l' => if n <=? m then n :: l else m :: insertAsc n l'
  end.

Definition sortAsc (l : list Z) : list Z := fold_right insertAsc [] l.

(** [blocks.find({ chainId }, { projection: { number: 1 } }).sort({ number: 1 })] *)
Definition indexedBlockNumbers (s : Store) (chainId : Z) : list Z :=
  sortAsc (map BlockDocument.number
               (filter (fun b => BlockDocument.chainId b =? chainId) (blocks s))).

End Db.

(** ** src/db/connection.ts: [findMissingBlocks] *)

Module Gap.

Record Range := mkRange { start : Z; end_ : Z }.

(** One turn of the [for (const block of indexedBlocks)] loop; the state is
    [(missingRanges, expectedBlock)]. *)
Definition scanStep (acc : list Range * Z) (blockNum : Z) : list Range * Z :=
  let '(missingRanges, expectedBlock) := acc in
  let missingRanges :=
    if expectedBlock <? blockNum
    then missingRanges ++ [mkRange expectedBlock (blockNum - 1)]
    else missingRanges in
  (missingRanges, blockNum + 1).

(** The body of [findMissingBlocks] once the progress record and the sorted
    block numbers have been read. *)
Definition missingRangesOf (progress : option ScanProgressDocument.t)
           (indexedBlocks : list Z) : list Range :=
  match progress with
  | None => []
  | Some progress =>
      let lastProgress := ScanProgressDocument.lastIndexedBlock progress in
      if lastProgress =? 0 then []
      else
        match indexedBlocks with
        | [] => [mkRange 0 lastProgress]
        | _ :: _ =>
            let missingRanges := fst (fold_left scanStep indexedBlocks ([], 0)) in
            let lastIndexedBlock := last indexedBlocks 0 in
            if lastIndexedBlock <? lastProgress
            then missingRanges ++ [mkRange (lastIndexedBlock + 1) lastProgress]
            else missingRanges
        end
  end.

Definition findMissingBlocks (s : Db.Store) (chainId : Z) : list Range :=
  missingRangesOf (Db.getScanProgress s chainId) (Db.indexedBlockNumbers s chainId).

(** The detector as section 4.2 of the specification words it: walking the
    heights in ascending order, a height above the next expected one
    reports [[expected, found - 1]]. *)
Fixpoint jumpsFrom (expected : Z) (heights : list Z) : list Range :=
  match heights with
  | [] => []
  | found :: rest =>
      (if expected <? found then [mkRange expected (found - 1)] else [])
        ++ jumpsFrom (found + 1) rest
  end.

(** ... and a trailing range when the highest persisted height is below
    the progress record's [lastIndexedBlock]. *)
Definition trailingRange (highest lastProgress : Z) : list Range :=
  if highest <? lastProgress then [mkRange (highest + 1) lastProgress] else [].

(** Height [h] of chain [chainId] has a block document in the store. *)
Definition persisted (s : Db.Store) (chainId h : Z) : Prop :=
  exists b, In b (Db.blocks s) /\
            BlockDocument.chainId b = chainId /\ BlockDocument.number b = h.

End Gap.

(** ** src/db/indexer.ts: the fetched payload and its normalisation *)

Module Normalize.

(** [record.phase] of an event record. *)
Inductive Phase :=
| ApplyExtrinsic (asApplyExtrinsic : Z)
| Finalization
| Initialization.

(** [phase.type] *)
Definition phaseType (p : Phase) : string :=
  match p with
  | ApplyExtrinsic _ => "ApplyExtrinsic"
  | Finalization => "Finalization"
  | Initialization => "Initialization"
  end.

(** One entry of [system.events()]: [{ phase, event: { section, method,
    data }, topics }]. [data] holds the printed values; [topics] may be
    missing. *)
Module EventRecord.
Record t := mk {
  phase : Phase;
  section : string;
  method : string;
  data : list string;
  topics : option (list string)
}.
End EventRecord.

(** One extrinsic of the block, as [index] reads it. [meta] is what the
    [extrinsic.meta] getter gives (the names of the declared arguments) or
    throws; [args] is [extrinsic.method.args], each entry with what its
    [toHuman()] gives or throws; [nonce] is what [nonce.toNumber()] gives
    or throws, when the field is there. *)
Module Extrinsic.
Record t := mk {
  section : string;
  method : string;
  meta : Outcome (list string);
  args : list (Outcome string);
  signer : option string;
  isSigned : bool;
  nonce : option (Outcome Z);
  tip : option string;
  hash : string
}.
End Extrinsic.

Record Header := mkHeader {
  parentHash : string;
  stateRoot : string;
  extrinsicsRoot : string
}.

Record SignedBlock := mkSignedBlock {
  header : Header;
  extrinsics : list Extrinsic.t
}.

(** [FetchedBlockData]; [apiAt] is fetched but [index] never reads it. *)
Record FetchedBlockData := mkFetched {
  blockNum : Z;
  blockHash : string;
  signedBlock : SignedBlock;
  timestampMs : Z;
  allEvents : list EventRecord.t
}.

(** [args[argName] = value] on a JavaScript object. *)
Fixpoint setArg (argName value : string) (args : ArgsObject) : ArgsObject :=
  match args with
  | [] => [(argName, value)]
  | (k, v) :: rest =>
      if String.eqb k argName then (k, value) :: rest
      else (k, v) :: setArg argName value rest
  end.

(** [meta.args.forEach((argMeta, argIndex) => ...)] inside the [try]: the
    first argument whose value is missing or whose [toHuman()] throws ends
    the loop; what was stored before stays in [args]. The flag tells
    whether the loop threw. *)
Fixpoint decodeLoop (argMetas : list string) (argIndex : nat)
         (methodArgs : list (Outcome string)) (args : ArgsObject)
  : ArgsObject * bool :=
  match argMetas with
  | [] => (args, false)
  | argName :: rest =>
      match nth_error methodArgs argIndex with
      | Some (Resolved argValue) =>
          decodeLoop rest (S argIndex) methodArgs (setArg argName argValue args)
      | _ => (args, true)
      end
  end.

(** The [try { ... } catch (e) { }] around the argument decoding. *)
Definition decodeWithFlag (extrinsic : Extrinsic.t) : ArgsObject * bool :=
  match Extrinsic.meta extrinsic with
  | Resolved argMetas => decodeLoop argMetas O (Extrinsic.args extrinsic) []
  | Rejected _ => ([], true)
  end.

Definition decodeArgs (extrinsic : Extrinsic.t) : ArgsObject :=
  fst (decodeWithFlag extrinsic).

(** Whether decoding the declared arguments failed. *)
Definition decodeFails (extrinsic : Extrinsic.t) : bool :=
  snd (decodeWithFlag extrinsic).

(** [api.events.system.ExtrinsicSuccess.is(event)] *)
Definition isExtrinsicSuccess (record : EventRecord.t) : bool :=
  String.eqb (EventRecord.section record) "system" &&
  String.eqb (EventRecord.method record) "ExtrinsicSuccess".

(** [api.events.system.ExtrinsicFailed.is(event)] *)
Definition isExtrinsicFailed (record : EventRecord.t) : bool :=
  String.eqb (EventRecord.section record) "system" &&
  String.eqb (EventRecord.method record) "ExtrinsicFailed".

(** [phase.isApplyExtrinsic && phase.asApplyExtrinsic.toNumber() === index] *)
Definition appliesTo (index : Z) (record : EventRecord.t) : bool :=
  match EventRecord.phase record with
  | ApplyExtrinsic n => n =? index
  | _ => false
  end.

(** [event.data[0].toString()], or ['Unknown error'] when that throws. *)
Definition dispatchErrorOf (record : EventRecord.t) : string :=
  match EventRecord.data record with
  | dispatchError :: _ => dispatchError
  | [] => "Unknown error"
  end.

(** One turn of [for (const record of eventsArray)]; the state is
    [(success, error)]. *)
Definition statusStep (index : Z) (acc : bool * option string)
           (record : EventRecord.t) : bool * option string :=
  let '(success, error) := acc in
  if appliesTo index record then
    if isExtrinsicSuccess record then (true, error)
    else if isExtrinsicFailed record then (false, Some (dispatchErrorOf record))
    else (success, error)
  else (success, error).

Definition extrinsicStatus (eventsArray : list EventRecord.t) (index : Z)
  : bool * option string :=
  fold_left (statusStep index) eventsArray (false, None).



(** The declared arguments decoded before the first one that fails, with
    their names. *)
Fixpoint decodedBefore (argMetas : list string) (values : list (Outcome string))
  : list (string * string) :=
  match argMetas, values with
  | argName :: argMetas', Resolved v :: values' =>
      (argName, v) :: decodedBefore argMetas' values'
  | _, _ => []
  end.

Definition decodedBeforeFailure (extrinsic : Extrinsic.t) : list (string * string) :=
  match Extrinsic.meta extrinsic with
  | Resolved argMetas => decodedBefore argMetas (Extrinsic.args extrinsic)
  | Rejected _ => []
  end.

(** Storing name and value pairs into an object, one after the other. *)
Definition storeArgs (pairs : list (string * string)) (args : ArgsObject) : ArgsObject :=
  fold_left (fun acc p => setArg (fst p) (snd p) acc) pairs args.

(** The conversion of the nonce of a signed extrinsic does not throw. *)
Definition nonceConverts (extrinsic : Extrinsic.t) : Prop :=
  Extrinsic.isSigned extrinsic = true ->
  forall e, Extrinsic.nonce extrinsic <> Some (Rejected e).

Section WithChain.
Variable chainId : Z.

(** The callback of [block.extrinsics.forEach]: the document pushed for
    the extrinsic at [index], or the error thrown on the way. *)
Definition extrinsicDoc (d : FetchedBlockData) (index : Z) (extrinsic : Extrinsic.t)
  : Outcome ExtrinsicDocument.t :=
  let args := decodeArgs extrinsic in
  let '(success, error) := extrinsicStatus (allEvents d) index in
  let build nonce :=
    Resolved (ExtrinsicDocument.mk
      (blockNum d) (blockHash d) index (Extrinsic.hash extrinsic)
      (Extrinsic.section extrinsic) (Extrinsic.method extrinsic)
      args (Extrinsic.signer extrinsic) success error (timestampMs d)
      nonce
      (if Extrinsic.isSigned extrinsic then Extrinsic.tip extrinsic else None)
      (Extrinsic.isSigned extrinsic) chainId) in
  if Extrinsic.isSigned extrinsic then
    match Extrinsic.nonce extrinsic with
    | Some (Resolved n) => build (Some n)
    | Some (Rejected e) => Rejected e
    | None => build None
    end
  else build None.

(** [block.extrinsics.forEach(...)]: an exception leaves the loop. *)
Fixpoint extrinsicDocsFrom (d : FetchedBlockData) (index : Z)
         (xs : list Extrinsic.t) : Outcome (list ExtrinsicDocument.t) :=
  match xs with
  | [] => Resolved []
  | x :: rest =>
      match extrinsicDoc d index x with
      | Rejected e => Rejected e
      | Resolved doc =>
          match extrinsicDocsFrom d (index + 1) rest with
          | Rejected e => Rejected e
          | Resolved docs => Resolved (doc :: docs)
          end
      end
  end.

Definition eventDoc (d : FetchedBlockData) (eventIndex : Z) (record : EventRecord.t)
  : EventDocument.t :=
  EventDocument.mk
    (blockNum d) (blockHash d) eventIndex
    (match EventRecord.phase record with
     | ApplyExtrinsic n => Some n
     | _ => None
     end)
    (EventRecord.section record) (EventRecord.method record)
    (EventRecord.data record)
    (phaseType (EventRecord.phase record))
    (match EventRecord.topics record with Some ts => ts | None => [] end)
    (timestampMs d) chainId.

(** [eventsArray.forEach((record, eventIndex) => ...)] *)
Fixpoint eventDocsFrom (d : FetchedBlockData) (eventIndex : Z)
         (records : list EventRecord.t) : list EventDocument.t :=
  match records with
  | [] => []
  | r :: rest => eventDoc d eventIndex r :: eventDocsFrom d (eventIndex + 1) rest
  end.

Definition blockDoc (d : FetchedBlockData) : BlockDocument.t :=
  let block := signedBlock d in
  BlockDocument.mk
    (blockNum d) (blockHash d)
    (parentHash (header block)) (stateRoot (header block))
    (extrinsicsRoot (header block))
    (timestampMs d)
    (Z.of_nat (List.length (extrinsics block)))
    (Z.of_nat (List.length (allEvents d)))
    None
    chainId.

(** The three document sets prepared for one height. *)
Record Documents := mkDocuments {
  theBlock : BlockDocument.t;
  extrinsicDocs : list ExtrinsicDocument.t;
  eventDocs : list EventDocument.t
}.

Definition normalize (d : FetchedBlockData) : Outcome Documents :=
  match extrinsicDocsFrom d 0 (extrinsics (signedBlock d)) with
  | Rejected e => Rejected e
  | Resolved xdocs =>
      Resolved (mkDocuments (blockDoc d) xdocs (eventDocsFrom d 0 (allEvents d)))
  end.

End WithChain.

End Normalize.

(** ** src/db/indexer.ts: [BlockchainIndexer] *)

Module Indexer.
Import Normalize.

(** [IndexerOptions]. [batchSize] is deprecated and never read;
    [onProgress] records whether a callback was supplied. *)
Record IndexerOptions := mkOptions {
  startBlock : option Z;
  endBlock : option Z;
  concurrency : option Z;
  onProgress : bool
}.

(** The argument of the [onProgress] callback. *)
Module Progress.
Record t := mk {
  lastIndexedBlock : Z;
  blocksIndexed : Z;
  extrinsicsIndexed : Z;
  eventsIndexed : Z;
  activeFetches : Z
}.
End Progress.

(** What one run of the closure inside [fetchBlockData] returns, before
    [blockNum] is put next to it. *)
Record RpcBlock := mkRpcBlock {
  rpcBlockHash : string;
  rpcSignedBlock : SignedBlock;
  rpcTimestampMs : Z;
  rpcAllEvents : list EventRecord.t
}.

(** The remote node: [getHeader().number], [system.chain()], and, for a
    height and the number of the attempt, what the RPC calls of
    [fetchBlockData] come to. *)
Record ChainApi := mkApi {
  latestBlock : Z;
  chainName : string;
  blockAt : Z -> nat -> Outcome RpcBlock
}.

(** The node as the second and later attempts find it. *)
Definition afterFirstAttempt (api : ChainApi) : ChainApi :=
  mkApi (latestBlock api) (chainName api)
        (fun blockNum attempt => blockAt api blockNum (S attempt)).

(** What awaiting the promise of [fetchBlockData] gives. [FetchPending] is
    a promise that has not settled: the retry loop is still going. *)
Inductive FetchSettle :=
| FetchedData (d : FetchedBlockData)
| FetchedNull
| FetchRejected (e : JsError)
| FetchPending.

(** A write sent to the store. *)
Inductive StoreOp :=
| InsertBlock (doc : BlockDocument.t)
| InsertExtrinsics (docs : list ExtrinsicDocument.t)
| InsertEvents (docs : list EventDocument.t)
| UpdateProgress (progress : ScanProgressDocument.t).

(** The store writes are logged with the height whose turn of the loop
    sent them. *)
Record Write := mkWrite {
  atHeight : Z;
  op : StoreOp
}.

(** The variables of [index] that change in the loop, the store, and the
    history: the writes sent, the callbacks made, the heights taken off
    the queue. A promise in [fetchQueue] is named by its height. *)
Record LoopState := mkLoop {
  currentBlock : Z;
  fetchQueue : list Z;
  blocksIndexed : Z;
  extrinsicsIndexed : Z;
  eventsIndexed : Z;
  db : Db.Store;
  writes : list Write;
  callbacks : list Progress.t;
  dequeued : list Z
}.

(** How one turn of the outer [while] ends. *)
Inductive Turn :=
| Continue (st : LoopState)
| Propagate (e : JsError) (st : LoopState)
| AwaitForever (st : LoopState).

(** How a call of [index] ends. *)
Inductive RunResult :=
| Completed (st : LoopState)
| Failed (e : JsError) (st : LoopState)
| Blocked (st : LoopState)
| OutOfFuel (st : LoopState).

Definition firstError (a b c : option JsError) : option JsError :=
  match a, b with
  | Some e, _ => Some e
  | None, Some e => Some e
  | None, None => c
  end.

Section WithIndexer.
Variable api : ChainApi.
Variable retryFuel : nat.
Variable chainId : Z.

Definition fetchBlockData (blockNum : Z) : FetchSettle :=
  match Retry.retryOnNetworkError (blockAt api blockNum) retryFuel with
  | Retry.Returned r _ =>
      FetchedData (mkFetched blockNum (rpcBlockHash r) (rpcSignedBlock r)
                             (rpcTimestampMs r) (rpcAllEvents r))
  | Retry.Threw error _ =>
      if Retry.isStatePrunedError error then FetchedNull
      else FetchRejected error
  | Retry.StillRetrying _ => FetchPending
  end.

(** [userStartBlock !== undefined] first, then the progress record when it
    is behind [endBlock], then 0. *)
Definition resolveStart (userStartBlock : option Z)
           (progress : option ScanProgressDocument.t) (endBlock : Z) : Z :=
  match userStartBlock with
  | Some s => s
  | None =>
      match progress with
      | Some p =>
          if ScanProgressDocument.lastIndexedBlock p <? endBlock
          then ScanProgressDocument.lastIndexedBlock p + 1
          else 0
      | None => 0
      end
  end.

(** [userEndBlock ?? latestBlock] *)
Definition resolveEnd (userEndBlock : option Z) : Z :=
  match userEndBlock with
  | Some e => e
  | None => latestBlock api
  end.

Section Loop.
Variable endBlock : Z.
Variable concurrency : Z.
Variable callbackGiven : bool.

(** The inner [while (fetchQueue.length < concurrency && currentBlock <=
    endBlock)]. Each turn moves [currentBlock] up by one, so
    [endBlock + 1 - currentBlock] turns are enough to reach its exit. *)
Fixpoint fillLoop (turns : nat) (queue : list Z) (current : Z) : list Z * Z :=
  match turns with
  | O => (queue, current)
  | S turns' =>
      if (Z.of_nat (List.length queue) <? concurrency) && (current <=? endBlock)
      then fillLoop turns' (queue ++ [current]) (current + 1)
      else (queue, current)
  end.

Definition fillQueue (st : LoopState) : LoopState :=
  let '(queue, current) :=
    fillLoop (Z.to_nat (endBlock + 1 - currentBlock st)) (fetchQueue st) (currentBlock st) in
  mkLoop current queue (blocksIndexed st) (extrinsicsIndexed st) (eventsIndexed st)
         (db st) (writes st) (callbacks st) (dequeued st).

(** [Promise.all([insertOne, insertMany, insertMany])]: the three writes
    are all sent, each to its own collection; the batch inserts only when
    they are not empty. The error reported is the first in the order of
    the array. *)
Definition persist (s : Db.Store) (docs : Documents)
  : Db.Store * option JsError :=
  let '(blocks', e1) := Db.insertOne Db.blockConflicts (Db.blocks s) (theBlock docs) in
  let '(extrinsics', e2) :=
    match extrinsicDocs docs with
    | [] => (Db.extrinsics s, None)
    | _ :: _ => Db.insertMany Db.extrinsicConflicts (Db.extrinsics s) (extrinsicDocs docs)
    end in
  let '(events', e3) :=
    match eventDocs docs with
    | [] => (Db.events s, None)
    | _ :: _ => Db.insertMany Db.eventConflicts (Db.events s) (eventDocs docs)
    end in
  (Db.mkStore blocks' extrinsics' events' (Db.scanProgress s), firstError e1 e2 e3).

Definition persistWrites (blockNum : Z) (docs : Documents) : list Write :=
  [mkWrite blockNum (InsertBlock (theBlock docs))]
  ++ match extrinsicDocs docs with
     | [] => []
     | _ :: _ => [mkWrite blockNum (InsertExtrinsics (extrinsicDocs docs))]
     end
  ++ match eventDocs docs with
     | [] => []
     | _ :: _ => [mkWrite blockNum (InsertEvents (eventDocs docs))]
     end.

(** The progress record of the [catch] block. *)
Definition failureProgress (st : LoopState) (blockNum : Z) : ScanProgressDocument.t :=
  ScanProgressDocument.mk chainId (chainName api) (blockNum - 1)
    (blocksIndexed st) (extrinsicsIndexed st) (eventsIndexed st)
    false (Some endBlock).

(** The [catch (error)] block: save progress at [blockNum - 1], rethrow.
    [s] is the store as the failed writes left it, [sent] the writes
    sent before the error. *)
Definition onError (st : LoopState) (blockNum : Z) (s : Db.Store)
           (sent : list Write) (error : JsError) : Turn :=
  let progress := failureProgress st blockNum in
  Propagate error
    (mkLoop (currentBlock st) (fetchQueue st)
            (blocksIndexed st) (extrinsicsIndexed st) (eventsIndexed st)
            (Db.updateScanProgress s progress)
            (writes st ++ sent ++ [mkWrite blockNum (UpdateProgress progress)])
            (callbacks st) (dequeued st)).

(** The [try] block for one fetched height. [st] already has the height
    off the queue. The store's [updateScanProgress] and the callback are
    taken not to throw, so the [catch] is entered from the preparation of
    the documents or from the inserts. *)
Definition processBlock (st : LoopState) (d : FetchedBlockData) : Turn :=
  let blockNum := blockNum d in
  match normalize chainId d with
  | Rejected error => onError st blockNum (db st) [] error
  | Resolved docs =>
      let '(s, failure) := persist (db st) docs in
      match failure with
      | Some error => onError st blockNum s (persistWrites blockNum docs) error
      | None =>
          let blocksIndexed := blocksIndexed st + 1 in
          let extrinsicsIndexed :=
            extrinsicsIndexed st + Z.of_nat (List.length (extrinsicDocs docs)) in
          let eventsIndexed :=
            eventsIndexed st + Z.of_nat (List.length (eventDocs docs)) in
          let progress :=
            ScanProgressDocument.mk chainId (chainName api) blockNum
              blocksIndexed extrinsicsIndexed eventsIndexed
              (blockNum =? endBlock) (Some endBlock) in
          let payload :=
            Progress.mk blockNum blocksIndexed extrinsicsIndexed eventsIndexed
                        (Z.of_nat (List.length (fetchQueue st))) in
          Continue
            (mkLoop (currentBlock st) (fetchQueue st)
                    blocksIndexed extrinsicsIndexed eventsIndexed
                    (Db.updateScanProgress s progress)
                    (writes st ++ persistWrites blockNum docs
                       ++ [mkWrite blockNum (UpdateProgress progress)])
                    (if callbackGiven then callbacks st ++ [payload] else callbacks st)
                    (dequeued st))
      end
  end.

(** [if (fetchQueue.length > 0) { const fetchedData = await
    fetchQueue.shift()!; ... }] *)
Definition awaitHead (st : LoopState) : Turn :=
  match fetchQueue st with
  | [] => Continue st
  | h :: rest =>
      let st' := mkLoop (currentBlock st) rest
                        (blocksIndexed st) (extrinsicsIndexed st) (eventsIndexed st)
                        (db st) (writes st) (callbacks st) (dequeued st ++ [h]) in
      match fetchBlockData h with
      | FetchPending => AwaitForever st
      | FetchRejected error => Propagate error st'
      | FetchedNull => Continue st'
      | FetchedData d => processBlock st' d
      end
  end.

(** The body of the outer [while]. *)
Definition turn (st : LoopState) : Turn := awaitHead (fillQueue st).

(** [while (currentBlock <= endBlock) { ... }] *)
Fixpoint run (fuel : nat) (st : LoopState) : RunResult :=
  match fuel with
  | O => OutOfFuel st
  | S fuel' =>
      if currentBlock st <=? endBlock then
        match turn st with
        | Continue st' => run fuel' st'
        | Propagate error st' => Failed error st'
        | AwaitForever st' => Blocked st'
        end
      else Completed st
  end.

End Loop.

(** [progress?.blocksIndexed || 0] and its two siblings. *)
Definition initialState (s : Db.Store) (startBlock : Z) : LoopState :=
  let progress := Db.getScanProgress s chainId in
  let counter f := match progress with Some p => f p | None => 0 end in
  mkLoop startBlock []
         (counter ScanProgressDocument.blocksIndexed)
         (counter ScanProgressDocument.extrinsicsIndexed)
         (counter ScanProgressDocument.eventsIndexed)
         s [] [] [].

(** [index(options)]. The result of the gap check is only printed. *)
Definition index (options : IndexerOptions) (s : Db.Store) (fuel : nat) : RunResult :=
  let progress := Db.getScanProgress s chainId in
  let missingBlocks := Gap.findMissingBlocks s chainId in
  let endBlock := resolveEnd (endBlock options) in
  let startBlock := resolveStart (startBlock options) progress endBlock in
  let concurrency := match concurrency options with Some c => c | None => 5 end in
  run endBlock concurrency (onProgress options) fuel (initialState s startBlock).

End WithIndexer.

End Indexer.

(** ** The loop under asynchronous scheduling

    [index] is suspended at [await fetchQueue.shift()] while the fetches
    in the queue run; they settle in any order. The relation below makes
    this explicit: a fetch in the queue may settle at any moment, and the
    loop resumes only once the promise at the head has settled. The
    awaits inside the [try] block suspend the loop too, but nothing else
    writes to the loop's variables or to the store in between, so a turn
    is taken in one step. *)

Module Schedule.
Import Indexer.

Inductive ProgramPoint :=
| AtLoopHead
| Awaiting
| Finished
| Halted (e : JsError).

Record AsyncState := mkAsync {
  loop : LoopState;
  settled : list Z;
  point : ProgramPoint
}.

(** The loop can resume: there is nothing to await, or the head of the
    queue has settled. *)
Definition headSettled (st : LoopState) (settled : list Z) : Prop :=
  match fetchQueue st with
  | [] => True
  | h :: _ => In h settled
  end.

Section WithRun.
Variable api : ChainApi.
Variable retryFuel : nat.
Variable chainId : Z.
Variable endBlock : Z.
Variable concurrency : Z.
Variable callbackGiven : bool.

Inductive step : AsyncState -> AsyncState -> Prop :=
| step_settle st settled pt h :
    In h (fetchQueue st) ->
    ~ In h settled ->
    fetchBlockData api retryFuel h <> FetchPending ->
    step (mkAsync st settled pt) (mkAsync st (h :: settled) pt)
| step_enter st settled :
    currentBlock st <= endBlock ->
    step (mkAsync st settled AtLoopHead)
         (mkAsync (fillQueue endBlock concurrency st) settled Awaiting)
| step_exit st settled :
    endBlock < currentBlock st ->
    step (mkAsync st settled AtLoopHead) (mkAsync st settled Finished)
| step_resume st settled st' :
    headSettled st settled ->
    awaitHead api retryFuel chainId endBlock callbackGiven st = Continue st' ->
    step (mkAsync st settled Awaiting) (mkAsync st' settled AtLoopHead)
| step_throw st settled error st' :
    headSettled st settled ->
    awaitHead api retryFuel chainId endBlock callbackGiven st = Propagate error st' ->
    step (mkAsync st settled Awaiting) (mkAsync st' settled (Halted error)).

(** The states an invocation can be in. *)
Inductive reachable (init : AsyncState) : AsyncState -> Prop :=
| reach_init : reachable init init
| reach_step s s' : reachable init s -> step s s' -> reachable init s'.

End WithRun.

(** The state in which [index] enters its loop. *)
Definition start (chainId : Z) (s : Db.Store) (startBlock : Z) : AsyncState :=
  mkAsync (initialState chainId s startBlock) [] AtLoopHead.

End Schedule.

(** ** Properties of the write log *)

Module Log.
Import Indexer.

(** The heights of the block inserts, in the order they were sent. *)
Fixpoint blockInserts (ws : list Write) : list Z :=
  match ws with
  | [] => []
  | w :: rest =>
      match op w with
      | InsertBlock _ => atHeight w :: blockInserts rest
      | _ => blockInserts rest
      end
  end.

(** A write carries the height of the turn that sent it: the documents
    are those of that height, and a progress record names that height or,
    from the [catch] block, the one before. *)
Definition tagged (w : Write) : Prop :=
  match op w with
  | InsertBlock doc => BlockDocument.number doc = atHeight w
  | InsertExtrinsics docs =>
      Forall (fun x => ExtrinsicDocument.blockNumber x = atHeight w) docs
  | InsertEvents docs =>
      Forall (fun x => EventDocument.blockNumber x = atHeight w) docs
  | UpdateProgress p =>
      ScanProgressDocument.lastIndexedBlock p = atHeight w \/
      ScanProgressDocument.lastIndexedBlock p = atHeight w - 1
  end.

(** The progress update that closes height [h]. *)
Definition closes (h : Z) (w : Write) : Prop :=
  atHeight w = h /\
  exists p, op w = UpdateProgress p /\ ScanProgressDocument.lastIndexedBlock p = h.

(** Every write of [ws] is for a height whose progress update is in [ws]. *)
Definition allClosed (ws : list Write) : Prop :=
  forall w, In w ws -> exists u, In u ws /\ closes (atHeight w) u.

(** The heights for which the callback was called, in order. *)
Definition reported (cbs : list Progress.t) : list Z :=
  map Progress.lastIndexedBlock cbs.

(** The heights closed by a progress update, in order. *)
Fixpoint progressed (ws : list Write) : list Z :=
  match ws with
  | [] => []
  | w :: rest =>
      match op w with
      | UpdateProgress p =>
          if ScanProgressDocument.lastIndexedBlock p =? atHeight w
          then atHeight w :: progressed rest
          else progressed rest
      | _ => progressed rest
      end
  end.

(** [n] consecutive heights from [from]. *)
Fixpoint upto (from : Z) (n : nat) : list Z :=
  match n with
  | O => []
  | S n' => from :: upto (from + 1) n'
  end.

(** The lowest height that has not been taken off the queue. *)
Definition nextUp (st : LoopState) : Z :=
  currentBlock st - Z.of_nat (List.length (fetchQueue st)).

Definition stateOf (t : Turn) : LoopState :=
  match t with
  | Continue st => st
  | Propagate _ st => st
  | AwaitForever st => st
  end.

Definition resultState (r : RunResult) : LoopState :=
  match r with
  | Completed st => st
  | Failed _ st => st
  | Blocked st => st
  | OutOfFuel st => st
  end.

(** The number of fetches the first turn of a run starts. *)
Definition window (startBlock endBlock concurrency : Z) : Z :=
  Z.min concurrency (endBlock + 1 - startBlock).

(** What holds at the head of the loop: the heights taken off the queue
    are counted from [startBlock], and after the first turn the queue is
    one short of the window. *)
Definition draining (startBlock endBlock concurrency : Z) (st : LoopState) : Prop :=
  Z.of_nat (List.length (dequeued st)) = nextUp st - startBlock /\
  currentBlock st <= endBlock + 1 /\
  ((fetchQueue st = [] /\ currentBlock st = startBlock) \/
   (Z.of_nat (List.length (fetchQueue st)) = window startBlock endBlock concurrency - 1 /\
    startBlock + window startBlock endBlock concurrency <= currentBlock st)).

Section Invariant.
Variable api : ChainApi.
Variable retryFuel : nat.
Variable callbackGiven : bool.

(** What holds of the loop state at every point of a run. *)
Record invariant (st : LoopState) : Prop := mkInvariant {
  inv_queue : fetchQueue st = upto (nextUp st) (List.length (fetchQueue st));
  inv_below : Forall (fun w => atHeight w < nextUp st) (writes st);
  inv_heights : StronglySorted Z.le (map atHeight (writes st));
  inv_blocks : StronglySorted Z.lt (blockInserts (writes st));
  inv_tagged : Forall tagged (writes st);
  inv_dequeued : exists n, dequeued st = upto (nextUp st - Z.of_nat n) n;
  inv_reported :
    callbackGiven = true -> reported (callbacks st) = progressed (writes st);
  inv_progressed : StronglySorted Z.lt (progressed (writes st));
  inv_fetched :
    forall h, In h (progressed (writes st)) ->
              exists d, fetchBlockData api retryFuel h = FetchedData d
}.

End Invariant.

End Log.

(** ** JavaScript numbers

    The delays of [retry.ts] are JavaScript numbers, that is IEEE 754
    doubles. A double holds every integer up to [2 ^ 53] in absolute
    value exactly; the product of two doubles is the exact product
    rounded to 53 significant bits, ties to even. *)

Module Double.

Definition exactUpTo : Z := 2 ^ 53.

(** The double nearest to the integer [x] (for [x] below the overflow
    threshold of about [1.8e308]). *)
Definition round (x : Z) : Z :=
  let a := Z.abs x in
  if a <? exactUpTo then x
  else
    let e := Z.log2 a - 52 in
    let q := a / 2 ^ e in
    let r := a mod 2 ^ e in
    let half := 2 ^ (e - 1) in
    let q' :=
      if r <? half then q
      else if half <? r then q + 1
      else if Z.even q then q else q + 1 in
    Z.sgn x * (q' * 2 ^ e).

(** [a * b] for doubles [a] and [b] that hold integers. *)
Definition mul (a b : Z) : Z := round (a * b).

(** The options are integers that a double holds exactly. *)
Definition holds (x : Z) : Prop := 0 <= x <= exactUpTo.

End Double.

(** ** More of src/utils/retry.ts: the delays of the retry loop *)

Module Backoff.
Import Retry.

(** The delays a call of [retryWithBackoff] has slept, in order. *)
Definition sleptOf {A} (r : RetryResult A) : list Z :=
  match r with
  | Returned _ slept => slept
  | Threw _ slept => slept
  | StillRetrying slept => slept
  end.

(** The delay before retry number [i] (from 0), in closed form:
    [initialDelay * backoffMultiplier ^ i], capped at [maxDelay]. *)
Definition backoffDelay (opts : RetryOptions) (i : nat) : Z :=
  Z.min (initialDelay opts * backoffMultiplier opts ^ Z.of_nat i) (maxDelay opts).

(** The variable [delay] of [retryWithBackoff] when retry number [i]
    (from 0) is reached, as the code computes it: [delay = Math.min(delay
    * opts.backoffMultiplier, opts.maxDelay)] with the product taken on
    doubles. *)
Fixpoint delayVariable (opts : RetryOptions) (i : nat) : Z :=
  match i with
  | O => initialDelay opts
  | S i' =>
      Z.min (Double.mul (delayVariable opts i') (backoffMultiplier opts)) (maxDelay opts)
  end.

(** [nextDelay = Math.min(delay, opts.maxDelay)] at retry number [i]. *)
Definition nextDelay (opts : RetryOptions) (i : nat) : Z :=
  Z.min (delayVariable opts i) (maxDelay opts).

(** Every attempt before [k] fails with an error that [shouldRetry]
    accepts. *)
Definition retryableBefore {A} (fn : nat -> Outcome A) (opts : RetryOptions)
           (k : nat) : Prop :=
  forall j, (j < k)%nat -> exists e, fn j = Rejected e /\ shouldRetry opts e = true.

(** Attempt [k] ends the loop: it resolves, or it fails with an error that
    [shouldRetry] refuses. *)
Definition decisive {A} (fn : nat -> Outcome A) (opts : RetryOptions)
           (k : nat) : Prop :=
  match fn k with
  | Resolved _ => True
  | Rejected e => shouldRetry opts e = false
  end.

(** Attempt number [k] (from 0) is still within [maxAttempts]. *)
Definition withinAttempts (opts : RetryOptions) (k : nat) : Prop :=
  match maxAttempts opts with
  | None => True
  | Some n => Z.of_nat k < n
  end.

End Backoff.

(** ** More of src/db/connection.ts: unique indexes and statistics *)

Module Keys.
Import Db.

(** A collection respects a unique index: no document conflicts with one
    inserted before it. *)
Definition distinct {D} (conflicts : D -> D -> bool) (coll : list D) : Prop :=
  StronglySorted (fun old new => conflicts new old = false) coll.

(** The three unique indexes of [ensureIndexes] hold of the store. *)
Definition wellKeyed (s : Store) : Prop :=
  distinct blockConflicts (blocks s) /\
  distinct extrinsicConflicts (extrinsics s) /\
  distinct eventConflicts (events s).

(** The scan-progress collection is unique on [chainId]. *)
Definition oneProgressPerChain (s : Store) : Prop :=
  NoDup (map ScanProgressDocument.chainId (scanProgress s)).

(** What [getStats] returns. *)
Record Stats := mkStats {
  blockCount : Z;
  extrinsicCount : Z;
  eventCount : Z;
  progress : option ScanProgressDocument.t
}.

(** [collection.countDocuments({ chainId })] *)
Definition countDocuments {D} (chainIdOf : D -> Z) (coll : list D) (chainId : Z) : Z :=
  Z.of_nat (List.length (filter (fun d => chainIdOf d =? chainId) coll)).

Definition getStats (s : Store) (chainId : Z) : Stats :=
  mkStats (countDocuments BlockDocument.chainId (blocks s) chainId)
          (countDocuments ExtrinsicDocument.chainId (extrinsics s) chainId)
          (countDocuments EventDocument.chainId (events s) chainId)
          (getScanProgress s chainId).

End Keys.

(** ** More of src/db/indexer.ts: the three inserts of a height *)

Module Fresh.
Import Db Normalize.

(** The store holds no block with the number or the hash of [d], and no
    extrinsic or event of its height. *)
Definition freshFor (s : Store) (d : FetchedBlockData) : Prop :=
  (forall b, In b (Db.blocks s) ->
             BlockDocument.number b <> blockNum d /\
             BlockDocument.hash b <> blockHash d) /\
  (forall x, In x (Db.extrinsics s) -> ExtrinsicDocument.blockNumber x <> blockNum d) /\
  (forall e, In e (Db.events s) -> EventDocument.blockNumber e <> blockNum d).

End Fresh.

(** ** More of src/db/indexer.ts: what a run keeps true *)

Module Accounts.
Import Db Keys Normalize Indexer Log.

(** The store has gained as many documents of the chain as the three
    counters have gone up since [st0]. *)
Definition countsFollow (chainId : Z) (st0 st : LoopState) : Prop :=
  blockCount (getStats (db st) chainId) - blockCount (getStats (db st0) chainId) =
    blocksIndexed st - blocksIndexed st0 /\
  extrinsicCount (getStats (db st) chainId) - extrinsicCount (getStats (db st0) chainId) =
    extrinsicsIndexed st - extrinsicsIndexed st0 /\
  eventCount (getStats (db st) chainId) - eventCount (getStats (db st0) chainId) =
    eventsIndexed st - eventsIndexed st0.

(** The progress record that the state stands for: the last height
    indexed and the counters. *)
Definition checkpoint (api : ChainApi) (chainId endBlock : Z) (st : LoopState)
  : ScanProgressDocument.t :=
  let lastIndexed := last (progressed (writes st)) 0 in
  ScanProgressDocument.mk chainId (chainName api) lastIndexed
    (blocksIndexed st) (extrinsicsIndexed st) (eventsIndexed st)
    (lastIndexed =? endBlock) (Some endBlock).

(** The progress record of the chain is the checkpoint of the state, or,
    before the first height is indexed, the progress records are those of
    [st0]. *)
Definition checkpointed (api : ChainApi) (chainId endBlock : Z)
           (st0 st : LoopState) : Prop :=
  match progressed (writes st) with
  | [] => scanProgress (db st) = scanProgress (db st0)
  | _ :: _ => getScanProgress (db st) chainId = Some (checkpoint api chainId endBlock st)
  end.

Section Node.
Variable api : ChainApi.
Variable retryFuel : nat.

(** Every block the node serves can be turned into documents: no nonce
    conversion throws. *)
Definition decodable : Prop :=
  forall h d, fetchBlockData api retryFuel h = FetchedData d ->
              forall x, In x (Normalize.extrinsics (signedBlock d)) -> nonceConverts x.

(** The node serves different hashes at different heights. *)
Definition hashesDiffer : Prop :=
  forall h h' d d',
    fetchBlockData api retryFuel h = FetchedData d ->
    fetchBlockData api retryFuel h' = FetchedData d' ->
    h <> h' -> blockHash d <> blockHash d'.

(** The store holds documents of heights below [next] only, and no block
    with the hash of a block the node serves from [next] on. *)
Definition behind (s : Store) (next : Z) : Prop :=
  (forall b, In b (Db.blocks s) ->
             BlockDocument.number b < next /\
             forall h d, next <= h -> fetchBlockData api retryFuel h = FetchedData d ->
                         BlockDocument.hash b <> blockHash d) /\
  (forall x, In x (Db.extrinsics s) -> ExtrinsicDocument.blockNumber x < next) /\
  (forall e, In e (Db.events s) -> EventDocument.blockNumber e < next).

End Node.

End Accounts.

(** ** More of src/db/connection.ts: what the gap detector reports *)

Module Missing.
Import Db Gap.

(** Height [h] lies in the range. *)
Definition covers (r : Range) (h : Z) : Prop := start r <= h <= end_ r.

(** Height [h] lies in one of the ranges that [findMissingBlocks]
    returns. *)
Definition reportedMissing (s : Store) (chainId h : Z) : Prop :=
  exists r, In r (findMissingBlocks s chainId) /\ covers r h.

(** The persisted heights of the chain lie between 0 and [lastProgress]. *)
Definition withinProgress (s : Store) (chainId lastProgress : Z) : Prop :=
  forall h, persisted s chainId h -> 0 <= h <= lastProgress.

End Missing.

(** ** src/index.ts: the range and the dashboard figures of [main] *)

Module Cli.
Import Indexer.

(** The command line after parsing: [--start=], [--end=],
    [--concurrency=] (10 when absent) and [--from-latest]. *)
Record CliArgs := mkArgs {
  userStartBlock : option Z;
  userEndBlock : option Z;
  concurrencyArg : option Z;
  fromLatest : bool
}.

Definition cliConcurrency (args : CliArgs) : Z :=
  match concurrencyArg args with Some c => c | None => 10 end.

(** [actualEndBlock = userEndBlock ?? latestBlock] *)
Definition actualEndBlock (args : CliArgs) (latestBlock : Z) : Z :=
  match userEndBlock args with Some e => e | None => latestBlock end.

(** The start that [main] works out for the dashboard. *)
Definition actualStartBlock (args : CliArgs)
           (progress : option ScanProgressDocument.t) (latestBlock : Z) : Z :=
  match userStartBlock args with
  | Some s => s
  | None =>
      if fromLatest args then latestBlock
      else
        match progress with
        | Some p =>
            if ScanProgressDocument.lastIndexedBlock p <? actualEndBlock args latestBlock
            then ScanProgressDocument.lastIndexedBlock p + 1
            else 0
        | None => 0
        end
  end.

(** The options that [main] passes to [indexer.index]. *)
Definition optionsPassed (args : CliArgs) : IndexerOptions :=
  mkOptions (userStartBlock args) (userEndBlock args) (Some (cliConcurrency args)) true.

(** The figures of [DashboardStats] that do not come from the clock. *)
Record DashboardStats := mkDashboardStats {
  currentBlock : Z;
  totalBlocks : Z;
  blocksProcessed : Z;
  blocksRemaining : Z;
  extrinsicsIndexed : Z;
  eventsIndexed : Z;
  sessionBlocksProcessed : Z;
  concurrency : Z;
  activeThreads : Z
}.

(** The [onProgress] callback of [main]. *)
Definition dashboardStats (args : CliArgs) (sessionStartBlock actualEnd : Z)
           (progress : Progress.t) : DashboardStats :=
  mkDashboardStats
    (Progress.lastIndexedBlock progress)
    (actualEnd + 1)
    (Progress.lastIndexedBlock progress + 1)
    (actualEnd - Progress.lastIndexedBlock progress)
    (Progress.extrinsicsIndexed progress)
    (Progress.eventsIndexed progress)
    (Progress.lastIndexedBlock progress - sessionStartBlock + 1)
    (cliConcurrency args)
    (Progress.activeFetches progress).

End Cli.

(** ** More of src/db/indexer.ts: the stored documents are kept *)

Module Kept.
Import Db.

(** Everything in [s] is still in [s'], at the same place in its
    collection. *)
Definition extends (s s' : Store) : Prop :=
  (exists added, blocks s' = blocks s ++ added) /\
  (exists added, extrinsics s' = extrinsics s ++ added) /\
  (exists added, events s' = events s ++ added).

End Kept.

(** ** Concrete inputs used by the examples and counterexamples *)

Module Examples.
Import Normalize Indexer.
Local Open Scope string_scope.

(** An error a node can answer with when a request for a discarded block
    runs into the client's timeout. *)
Definition timeoutOnUnknownBlock : JsError :=
  mkError (Some "Request timeout: Unknown block 0x2a"%string) CodeUndefined.

(** A node that fails the first attempt at every height with [e] and
    answers [r] from the second attempt on. *)
Definition failsOnce (e : JsError) (r : RpcBlock) : ChainApi :=
  mkApi 0 "dev"%string
        (fun _ attempt => match attempt with O => Rejected e | S _ => Resolved r end).

(** A block document of chain 1 with nothing in it but its height. *)
Definition bareBlock (n : Z) (h : string) : BlockDocument.t :=
  BlockDocument.mk n h "" "" "" 0 0 0 None 1.

Definition progressAt (last : Z) : ScanProgressDocument.t :=
  ScanProgressDocument.mk 1 "dev" last 6 0 0 false (Some 9).

(** Heights 0, 1, 2, 5, 6 and 9 persisted, in some order of arrival, and a
    progress record at 9. *)
Definition gapStore : Db.Store :=
  Db.mkStore
    [bareBlock 5 "0x05"; bareBlock 0 "0x00"; bareBlock 9 "0x09";
     bareBlock 1 "0x01"; bareBlock 6 "0x06"; bareBlock 2 "0x02"]
    [] [] [progressAt 9].

(** Events in the apply phase of extrinsic 0. *)
Definition successAt0 : EventRecord.t :=
  EventRecord.mk (ApplyExtrinsic 0) "system" "ExtrinsicSuccess" [] None.

Definition failedAt0 : EventRecord.t :=
  EventRecord.mk (ApplyExtrinsic 0) "system" "ExtrinsicFailed" ["BadOrigin"] None.


Definition decodeError : JsError :=
  mkError (Some "Cannot read properties of undefined") CodeUndefined.

(** An unsigned transfer whose first argument decodes and whose second
    does not. *)
Definition halfDecoded : Extrinsic.t :=
  Extrinsic.mk "balances" "transfer"
    (Resolved ["dest"; "value"])
    [Resolved "Alice"; Rejected decodeError]
    None false None None "0xabc".

Definition emptyHeader : Header := mkHeader "0xp" "0xs" "0xe".

(** Height 7 with that one extrinsic and its success event. *)
Definition blockWithHalfDecoded : FetchedBlockData :=
  mkFetched 7 "0x07" (mkSignedBlock emptyHeader [halfDecoded]) 1700 [successAt0].


(** *** Nodes *)

Definition hashOf (h : Z) : string :=
  match h with
  | 0 => "0x00"
  | 1 => "0x01"
  | 2 => "0x02"
  | _ => "0xff"
  end.

(** An empty block at every height. *)
Definition rpcAt (h : Z) : RpcBlock :=
  mkRpcBlock (hashOf h) (mkSignedBlock emptyHeader []) 1700 [].

(** A node that answers every request at once. *)
Definition healthyNode : ChainApi :=
  mkApi 2 "dev" (fun h _ => Resolved (rpcAt h)).

Definition prunedError : JsError :=
  mkError (Some "4003: Client error: UnknownBlock: State already discarded for 0x00")
          (CodeNum 4003).

(** A node that has discarded the state of height 0. *)
Definition prunedAtZero : ChainApi :=
  mkApi 1 "dev"
        (fun h _ => if (h =? 0)%Z then Rejected prunedError else Resolved (rpcAt h)).

(** A node whose chain is at height 9, and one at height 20. *)
Definition nodeAtNine : ChainApi :=
  mkApi 9 "dev" (fun h _ => Resolved (rpcAt h)).

Definition nodeAtTwenty : ChainApi :=
  mkApi 20 "dev" (fun h _ => Resolved (rpcAt h)).

(** No start, no end, the default concurrency, no callback. *)
Definition noOptions : IndexerOptions := mkOptions None None None false.


(** Height 0 only, one fetch in flight, with a callback. *)
Definition onlyZero : IndexerOptions := mkOptions (Some 0) (Some 0) (Some 1) true.

(** Heights 0 and 1, two fetches in flight, with a callback. *)
Definition zeroAndOne : IndexerOptions := mkOptions (Some 0) (Some 1) (Some 2) true.

(** *** A schedule in which the fetches settle out of order

    Heights 0 to 2 with two fetches in flight: the fetch of height 1
    settles before that of height 0, and that of height 2 before the loop
    awaits height 1. *)

Definition fill2 := fillQueue 2 2.
Definition await2 := awaitHead healthyNode 1 1 2 true.

Definition sched0 : Schedule.AsyncState := Schedule.start 1 Db.emptyStore 0.
Definition sched1 : Schedule.AsyncState :=
  Schedule.mkAsync (fill2 (Schedule.loop sched0)) [] Schedule.Awaiting.
Definition sched2 : Schedule.AsyncState :=
  Schedule.mkAsync (Schedule.loop sched1) [1] Schedule.Awaiting.
Definition sched3 : Schedule.AsyncState :=
  Schedule.mkAsync (Schedule.loop sched1) [0; 1] Schedule.Awaiting.
Definition sched4 : Schedule.AsyncState :=
  Schedule.mkAsync (Log.stateOf (await2 (Schedule.loop sched3))) [0; 1]
                   Schedule.AtLoopHead.
Definition sched5 : Schedule.AsyncState :=
  Schedule.mkAsync (fill2 (Schedule.loop sched4)) [0; 1] Schedule.Awaiting.
Definition sched6 : Schedule.AsyncState :=
  Schedule.mkAsync (Schedule.loop sched5) [2; 0; 1] Schedule.Awaiting.
Definition sched7 : Schedule.AsyncState :=
  Schedule.mkAsync (Log.stateOf (await2 (Schedule.loop sched6))) [2; 0; 1]
                   Schedule.AtLoopHead.

End Examples.

(** ** Concrete inputs for the further properties *)

Module MoreExamples.
Import Normalize Indexer.
Local Open Scope string_scope.

Definition connectionRefused : JsError :=
  mkError (Some "connect ECONNREFUSED 127.0.0.1:9888") (CodeStr "ECONNREFUSED").

Definition badRequest : JsError :=
  mkError (Some "Invalid params") (CodeNum (-32602)).

(** An operation that fails seven times with a refused connection and
    then gives 42. *)
Definition seventhTimeLucky (k : nat) : Outcome Z :=
  if Nat.ltb k 7 then Rejected connectionRefused else Resolved 42.

(** An operation that never gets through. *)
Definition alwaysRefused (k : nat) : Outcome Z := Rejected connectionRefused.

(** An operation refused twice and then rejected for good. *)
Definition refusedThenInvalid (k : nat) : Outcome Z :=
  if Nat.ltb k 2 then Rejected connectionRefused else Rejected badRequest.

(** The default options with at most three attempts. *)
Definition threeAttempts : Retry.RetryOptions :=
  Retry.mkRetryOptions (Some 3) 1000 60000 2 (fun _ => true).

(** A node that is never reachable. *)
Definition unreachableNode : ChainApi :=
  mkApi 0 "dev" (fun _ _ => Rejected connectionRefused).

(** Two transaction documents of height 7, at positions 0 and 1, and a
    second document for position 0. *)
Definition txDoc (index : Z) (h : string) : ExtrinsicDocument.t :=
  ExtrinsicDocument.mk 7 "0x07" index h "balances" "transfer" [] None true None
                       1700 None None false 1.

(** A store with progress records for chains 1 and 2. *)
Definition twoChains : Db.Store :=
  Db.mkStore [] [] []
    [ScanProgressDocument.mk 1 "dev" 4 5 0 0 false (Some 9);
     ScanProgressDocument.mk 2 "other" 8 9 0 0 false (Some 9)].

(** Height 3 with one unsigned extrinsic and two events. *)
Definition blockThree : FetchedBlockData :=
  mkFetched 3 "0x03"
    (mkSignedBlock Examples.emptyHeader [Examples.halfDecoded]) 1700
    [Examples.successAt0;
     EventRecord.mk Finalization "staking" "EraPaid" ["12"] (Some ["0xt"])].

(** A node that rejects the request for height 0 with an error of neither
    class, serves heights 1 and 2, and has nothing above. *)
Definition rejectsAtZero : ChainApi :=
  mkApi 2 "dev"
        (fun h _ => if (h =? 0)%Z then Rejected badRequest
                    else if ((1 <=? h) && (h <=? 2))%Z then Resolved (Examples.rpcAt h)
                    else Rejected Examples.prunedError).

(** A run over heights 1 and 2 against that node, one fetch in flight:
    height 1 is fetched, settles and is indexed, then the loop fills its
    queue with height 2. *)
Definition serve0 : Schedule.AsyncState := Schedule.start 1 Db.emptyStore 1.
Definition serve1 : Schedule.AsyncState :=
  Schedule.mkAsync (fillQueue 2 1 (Schedule.loop serve0)) [] Schedule.Awaiting.
Definition serve2 : Schedule.AsyncState :=
  Schedule.mkAsync (Schedule.loop serve1) [1] Schedule.Awaiting.
Definition serve3 : Schedule.AsyncState :=
  Schedule.mkAsync
    (Log.stateOf (awaitHead rejectsAtZero 1 1 2 false (Schedule.loop serve2)))
    [1] Schedule.AtLoopHead.
Definition serve4 : Schedule.AsyncState :=
  Schedule.mkAsync (fillQueue 2 1 (Schedule.loop serve3)) [1] Schedule.Awaiting.

(** A run over height 3 on the store that already holds six blocks. *)
Definition kept0 : Schedule.AsyncState := Schedule.start 1 Examples.gapStore 3.
Definition kept1 : Schedule.AsyncState :=
  Schedule.mkAsync (fillQueue 3 1 (Schedule.loop kept0)) [] Schedule.Awaiting.
Definition kept2 : Schedule.AsyncState :=
  Schedule.mkAsync (Schedule.loop kept1) [3] Schedule.Awaiting.
Definition kept3 : Schedule.AsyncState :=
  Schedule.mkAsync
    (Log.stateOf (awaitHead Examples.healthyNode 1 1 3 false (Schedule.loop kept2)))
    [3] Schedule.AtLoopHead.

(** [npm start -- --from-latest], and the same without the flag. *)
Definition fromLatestOnly : Cli.CliArgs := Cli.mkArgs None None None true.
Definition noArgs : Cli.CliArgs := Cli.mkArgs None None None false.

(** Height 7 with a failed marker followed by a success marker for
    extrinsic 0. *)
Definition failedThenSucceeded : FetchedBlockData :=
  mkFetched 7 "0x07" (mkSignedBlock Examples.emptyHeader [Examples.halfDecoded]) 1700
            [Examples.failedAt0; Examples.successAt0].


End MoreExamples.

(** * Theorems *)

(** ** The classifiers of retry.ts *)

Module RetryFacts.
Import Retry Normalize Indexer Examples.

Lemma retry_first_rejection {A} (fn : nat -> Outcome A) opts fuel e :
  fn O = Rejected e ->
  retryWithBackoff fn opts (S fuel) =
    if negb (shouldRetry opts e) then Threw e []
    else if attemptsExceeded 1 opts then Threw e []
    else retryLoop fn opts fuel 1%nat 1
           (Z.min (initialDelay opts * backoffMultiplier opts) (maxDelay opts))
           [Z.min (initialDelay opts) (maxDelay opts)].
Proof.
  intros Hfn. unfold retryWithBackoff. simpl. rewrite Hfn. reflexivity.
Qed.

(** C7, as the specification states it, fails: one error satisfies both
    classifiers. *)
Lemma classifiers_overlap :
  isNetworkError timeoutOnUnknownBlock = true /\
  isStatePrunedError timeoutOnUnknownBlock = true.
Proof. split; vm_compute; reflexivity. Qed.

(** Without a limit on the attempts, what the loop returns or throws does
    not depend on the attempts already made. *)
Lemma retryLoop_shift {A} (fn : nat -> Outcome A) opts fuel :
  maxAttempts opts = None ->
  forall calls attempt attempt' delay delay' slept slept',
    settledAs (retryLoop fn opts fuel (S calls) attempt delay slept) =
    settledAs (retryLoop (fun k => fn (S k)) opts fuel calls attempt' delay' slept').
Proof.
  intros Hmax. induction fuel as [|fuel IH]; intros; simpl; [reflexivity|].
  destruct (fn (S calls)) as [a|e]; [reflexivity|].
  destruct (shouldRetry opts e); simpl; [|reflexivity].
  unfold attemptsExceeded. rewrite Hmax. apply IH.
Qed.

Lemma fetchBlockData_settledAs api retryFuel api' retryFuel' h :
  settledAs (retryOnNetworkError (blockAt api h) retryFuel) =
  settledAs (retryOnNetworkError (blockAt api' h) retryFuel') ->
  fetchBlockData api retryFuel h = fetchBlockData api' retryFuel' h.
Proof.
  unfold fetchBlockData.
  destruct (retryOnNetworkError (blockAt api h) retryFuel),
           (retryOnNetworkError (blockAt api' h) retryFuel');
    simpl; intros H; inversion H; reflexivity.
Qed.

(** C7 (amended): the two classifiers are not kept apart, but the network
    classifier is asked first, inside the retry loop, and the pruned-state
    classifier only sees what the retry loop let through. So an error met
    by an attempt of a fetch is handled in exactly one of three ways: when
    the network classifier accepts it the attempt is retried, and the
    fetch settles as the later attempts make it; when only the
    pruned-state classifier accepts it the height is skipped; when neither
    does the error is propagated. *)
Theorem fetch_error_handled_one_way api retryFuel h e :
  blockAt api h O = Rejected e ->
  (isNetworkError e = true /\
   fetchBlockData api (S retryFuel) h =
     fetchBlockData (afterFirstAttempt api) retryFuel h)
  \/
  (isNetworkError e = false /\ isStatePrunedError e = true /\
   fetchBlockData api (S retryFuel) h = FetchedNull)
  \/
  (isNetworkError e = false /\ isStatePrunedError e = false /\
   fetchBlockData api (S retryFuel) h = FetchRejected e).
Proof.
  intros Hfirst.
  destruct (isNetworkError e) eqn:Hnet.
  - left. split; [reflexivity|]. apply fetchBlockData_settledAs.
    unfold retryOnNetworkError.
    rewrite (retry_first_rejection _ _ _ e Hfirst).
    cbn [shouldRetry networkRetryOptions attemptsExceeded maxAttempts].
    rewrite Hnet. cbn [negb]. unfold retryWithBackoff.
    apply (retryLoop_shift (blockAt api h)). reflexivity.
  - right. unfold fetchBlockData, retryOnNetworkError.
    rewrite (retry_first_rejection _ _ _ e Hfirst).
    cbn [shouldRetry networkRetryOptions]. rewrite Hnet. cbn [negb].
    destruct (isStatePrunedError e) eqn:Hpr.
    + left. repeat split; reflexivity.
    + right. repeat split; reflexivity.
Qed.

(** The theorem on a node that times out once on an unknown block and
    then answers: the error is of both classes, and it is retried. *)
Lemma fetch_error_handled_one_way_example :
  fetchBlockData (Examples.failsOnce Examples.timeoutOnUnknownBlock (Examples.rpcAt 0)) 2 0 =
    FetchedData (mkFetched 0 "0x00" (mkSignedBlock Examples.emptyHeader []) 1700 []).
Proof.
  destruct (fetch_error_handled_one_way
              (Examples.failsOnce Examples.timeoutOnUnknownBlock (Examples.rpcAt 0))
              1 0 Examples.timeoutOnUnknownBlock eq_refl)
    as [[_ H]|[[H _]|[H _]]].
  - rewrite H. reflexivity.
  - vm_compute in H. discriminate.
  - vm_compute in H. discriminate.
Defined.

End RetryFacts.

(** ** The gap detector *)

Module GapFacts.
Import Db Gap.

Lemma insertAsc_In n l x : In x (insertAsc n l) <-> x = n \/ In x l.
Proof.
  induction l as [|m l IH]; simpl.
  - intuition.
  - destruct (n <=? m); simpl; [intuition|].
    rewrite IH. intuition.
Qed.

Lemma insertAsc_sorted n l :
  StronglySorted Z.le l -> StronglySorted Z.le (insertAsc n l).
Proof.
  induction 1 as [|m l Hl IH Hm]; simpl.
  - constructor; constructor.
  - destruct (n <=? m) eqn:E.
    + apply Z.leb_le in E. constructor.
      * constructor; assumption.
      * constructor; [assumption|].
        rewrite Forall_forall in *. intros y Hy. specialize (Hm y Hy). lia.
    + apply Z.leb_gt in E. constructor; [assumption|].
      rewrite Forall_forall in *. intros y Hy.
      apply insertAsc_In in Hy. destruct Hy as [->|Hy]; [lia|auto].
Qed.

Lemma sortAsc_sorted l : StronglySorted Z.le (sortAsc l).
Proof.
  induction l as [|n l IH]; simpl; [constructor|].
  apply insertAsc_sorted, IH.
Qed.

Lemma sortAsc_In l x : In x (sortAsc l) <-> In x l.
Proof.
  induction l as [|n l IH]; simpl; [tauto|].
  rewrite insertAsc_In, IH. intuition.
Qed.

Lemma indexedBlockNumbers_persisted s chainId h :
  In h (indexedBlockNumbers s chainId) <-> persisted s chainId h.
Proof.
  unfold indexedBlockNumbers, persisted.
  rewrite sortAsc_In, in_map_iff. split.
  - intros (b & Hn & Hb). apply filter_In in Hb. destruct Hb as [Hb Hc].
    exists b. apply Z.eqb_eq in Hc. auto.
  - intros (b & Hb & Hc & Hn). exists b. split; [assumption|].
    apply filter_In. split; [assumption|]. apply Z.eqb_eq, Hc.
Qed.

(** The loop of the source and the recursive reading of the
    specification report the same ranges. *)
Lemma scan_jumps heights : forall missingRanges expectedBlock,
  fst (fold_left scanStep heights (missingRanges, expectedBlock)) =
  missingRanges ++ jumpsFrom expectedBlock heights.
Proof.
  induction heights as [|found rest IH]; intros acc e; simpl.
  - now rewrite app_nil_r.
  - rewrite IH. destruct (e <? found); simpl.
    + now rewrite <- app_assoc.
    + reflexivity.
Qed.

(** C5: no progress record, or one at 0, gives no range; otherwise the
    detector walks the persisted heights of the chain in ascending order
    and returns exactly the ranges [[expected, found - 1]] of the jumps,
    followed by [[highest + 1, lastIndexedBlock]] when the highest
    persisted height is below the progress record (with nothing persisted
    that trailing range is the whole of [[0, lastIndexedBlock]]). Heights
    0, 1, 2, 5, 6, 9 with progress at 9 give [[3, 4]] and [[7, 8]]. *)
Theorem gap_detector_ranges (s : Store) (chainId : Z) :
  let heights := indexedBlockNumbers s chainId in
  StronglySorted Z.le heights /\
  (forall h, In h heights <-> persisted s chainId h) /\
  (getScanProgress s chainId = None -> findMissingBlocks s chainId = []) /\
  (forall p, getScanProgress s chainId = Some p ->
             ScanProgressDocument.lastIndexedBlock p = 0 ->
             findMissingBlocks s chainId = []) /\
  (forall p, getScanProgress s chainId = Some p ->
             ScanProgressDocument.lastIndexedBlock p <> 0 ->
             heights <> [] ->
             findMissingBlocks s chainId =
               jumpsFrom 0 heights
                 ++ trailingRange (last heights 0)
                                  (ScanProgressDocument.lastIndexedBlock p)) /\
  (forall p, getScanProgress s chainId = Some p ->
             ScanProgressDocument.lastIndexedBlock p <> 0 ->
             heights = [] ->
             findMissingBlocks s chainId =
               [mkRange 0 (ScanProgressDocument.lastIndexedBlock p)]) /\
  findMissingBlocks Examples.gapStore 1 = [mkRange 3 4; mkRange 7 8].
Proof.
  intros heights. unfold findMissingBlocks. fold heights.
  split; [apply sortAsc_sorted|].
  split; [intros h; apply indexedBlockNumbers_persisted|].
  split; [intros ->; reflexivity|].
  split.
  { intros p -> Hz. simpl. rewrite Hz. reflexivity. }
  split.
  { intros p -> Hnz Hne. simpl.
    destruct (Z.eqb_spec (ScanProgressDocument.lastIndexedBlock p) 0) as [E|_];
      [contradiction|].
    destruct heights as [|h0 rest] eqn:Hh; [contradiction|].
    rewrite scan_jumps. unfold trailingRange. simpl app at 1.
    destruct (last (h0 :: rest) 0 <? ScanProgressDocument.lastIndexedBlock p);
      [reflexivity|now rewrite app_nil_r]. }
  split.
  { intros p -> Hnz ->. simpl.
    destruct (Z.eqb_spec (ScanProgressDocument.lastIndexedBlock p) 0) as [E|_];
      [contradiction|reflexivity]. }
  vm_compute. reflexivity.
Qed.

(** The theorem at the store of the specification's example. *)
Lemma gap_detector_ranges_example :
  Gap.findMissingBlocks Examples.gapStore 1 =
    jumpsFrom 0 [0; 1; 2; 5; 6; 9] ++ trailingRange 9 9.
Proof.
  destruct (gap_detector_ranges Examples.gapStore 1) as (_ & _ & _ & _ & H & _).
  apply (H (Examples.progressAt 9)).
  - reflexivity.
  - simpl. lia.
  - vm_compute. discriminate.
Defined.

End GapFacts.

(** ** Normalisation of a fetched block *)

Module NormalizeFacts.
Import Normalize.

(** *** Success and error of a transaction *)




Lemma extrinsicDoc_status chainId d index x doc :
  extrinsicDoc chainId d index x = Resolved doc ->
  (ExtrinsicDocument.success doc, ExtrinsicDocument.error doc) =
    extrinsicStatus (allEvents d) index.
Proof.
  unfold extrinsicDoc.
  destruct (extrinsicStatus (allEvents d) index) as [success error].
  destruct (Extrinsic.isSigned x); [destruct (Extrinsic.nonce x) as [[n|e]|]|];
    intros H; inversion H; reflexivity.
Qed.




(** *** Decoding of the declared arguments *)

Lemma skipn_nth_error {A} (l : list A) : forall k,
  skipn k l = match nth_error l k with
              | Some a => a :: skipn (S k) l
              | None => []
              end.
Proof.
  induction l as [|a l IH]; intros [|k]; simpl; try reflexivity.
  rewrite IH. destruct (nth_error l k); reflexivity.
Qed.

Lemma decodedBefore_nil_values argMetas : decodedBefore argMetas [] = [].
Proof. destruct argMetas; reflexivity. Qed.

Lemma decodeLoop_stores argMetas methodArgs : forall argIndex args,
  fst (decodeLoop argMetas argIndex methodArgs args) =
  storeArgs (decodedBefore argMetas (skipn argIndex methodArgs)) args.
Proof.
  induction argMetas as [|argName rest IH]; intros k args; simpl.
  - reflexivity.
  - rewrite (skipn_nth_error methodArgs k).
    destruct (nth_error methodArgs k) as [[v|e]|]; simpl; try reflexivity.
    rewrite IH. reflexivity.
Qed.

Lemma decodeLoop_flag argMetas methodArgs : forall argIndex args,
  snd (decodeLoop argMetas argIndex methodArgs args) = true ->
  (List.length (decodedBefore argMetas (skipn argIndex methodArgs))
   < List.length argMetas)%nat.
Proof.
  induction argMetas as [|argName rest IH]; intros k args; simpl.
  - discriminate.
  - rewrite (skipn_nth_error methodArgs k).
    destruct (nth_error methodArgs k) as [[v|e]|]; cbn [decodedBefore List.length];
      intros H; try apply Nat.lt_0_succ.
    apply IH in H. now apply Nat.succ_lt_mono in H.
Qed.

Lemma decodeArgs_stores x :
  decodeArgs x = storeArgs (decodedBeforeFailure x) [].
Proof.
  unfold decodeArgs, decodeWithFlag, decodedBeforeFailure.
  destruct (Extrinsic.meta x) as [argMetas|e]; [|reflexivity].
  now rewrite decodeLoop_stores.
Qed.

Lemma extrinsicDoc_total chainId d index x :
  nonceConverts x ->
  exists doc, extrinsicDoc chainId d index x = Resolved doc /\
              ExtrinsicDocument.args doc = decodeArgs x.
Proof.
  unfold nonceConverts, extrinsicDoc. intros Hn.
  destruct (extrinsicStatus (allEvents d) index) as [success error].
  destruct (Extrinsic.isSigned x).
  - destruct (Extrinsic.nonce x) as [[n|e]|].
    + eexists; split; reflexivity.
    + exfalso. now apply (Hn eq_refl e).
    + eexists; split; reflexivity.
  - eexists; split; reflexivity.
Qed.

Lemma extrinsicDocsFrom_total chainId d xs : forall index,
  (forall x, In x xs -> nonceConverts x) ->
  exists docs, extrinsicDocsFrom chainId d index xs = Resolved docs /\
               map ExtrinsicDocument.args docs = map decodeArgs xs.
Proof.
  induction xs as [|x rest IH]; intros index Hall; simpl.
  - exists []. split; reflexivity.
  - destruct (extrinsicDoc_total chainId d index x) as (doc & -> & Hargs).
    { apply Hall. now left. }
    destruct (IH (index + 1)) as (docs & -> & Hmap).
    { intros y Hy. apply Hall. now right. }
    exists (doc :: docs). split; [reflexivity|]. simpl. now rewrite Hargs, Hmap.
Qed.

(** C8, as stated, fails: the second argument of this transfer does not
    decode, and the record keeps the first one in its argument mapping. *)
Lemma partial_arguments_are_kept :
  decodeFails Examples.halfDecoded = true /\
  exists doc,
    extrinsicDoc 1 Examples.blockWithHalfDecoded 0 Examples.halfDecoded = Resolved doc /\
    ExtrinsicDocument.args doc = [("dest", "Alice")]%string /\
    ExtrinsicDocument.args doc <> [].
Proof.
  split; [reflexivity|]. eexists. split; [reflexivity|].
  split; [reflexivity|]. discriminate.
Qed.

End NormalizeFacts.

(** ** The ingestion loop *)

Module IndexerFacts.
Import Normalize Indexer Schedule Log.

(** *** Lists of heights *)

Lemma upto_app from n m :
  upto from (n + m) = upto from n ++ upto (from + Z.of_nat n) m.
Proof.
  revert from. induction n as [|n IH]; intros from.
  - simpl. now rewrite Z.add_0_r.
  - cbn [Nat.add upto app]. rewrite IH. do 3 f_equal. lia.
Qed.

Lemma upto_length from n : List.length (upto from n) = n.
Proof. revert from. induction n; intros; simpl; auto. Qed.

Lemma upto_In from n h : In h (upto from n) <-> from <= h < from + Z.of_nat n.
Proof.
  revert from. induction n as [|n IH]; intros from.
  - simpl. lia.
  - cbn [upto In]. rewrite IH. lia.
Qed.

Lemma upto_sorted from n : StronglySorted Z.lt (upto from n).
Proof.
  revert from. induction n as [|n IH]; intros from; simpl; constructor.
  - apply IH.
  - apply Forall_forall. intros h Hh. apply upto_In in Hh. lia.
Qed.

Lemma sorted_snoc {A} (R : A -> A -> Prop) l l' :
  StronglySorted R l -> StronglySorted R l' ->
  (forall x y, In x l -> In y l' -> R x y) ->
  StronglySorted R (l ++ l').
Proof.
  induction 1 as [|a l Hl IH Ha]; intros Hl' Hall; simpl; [assumption|].
  constructor.
  - apply IH; [assumption|]. intros x y Hx Hy. apply Hall; [now right|assumption].
  - apply Forall_app. split; [assumption|].
    apply Forall_forall. intros y Hy. apply Hall; [now left|assumption].
Qed.

(** *** The fill loop *)

Section Fill.
Variable endBlock : Z.
Variable concurrency : Z.

Lemma fillLoop_appends turns : forall queue current,
  exists k, fillLoop endBlock concurrency turns queue current =
            (queue ++ upto current k, current + Z.of_nat k).
Proof.
  induction turns as [|turns IH]; intros queue current; simpl.
  - exists O. simpl. now rewrite app_nil_r, Z.add_0_r.
  - destruct ((Z.of_nat (List.length queue) <? concurrency) && (current <=? endBlock)).
    + destruct (IH (queue ++ [current]) (current + 1)) as [k Hk].
      exists (S k). rewrite Hk. rewrite <- app_assoc. simpl. f_equal. lia.
    + exists O. simpl. now rewrite app_nil_r, Z.add_0_r.
Qed.

(** With the turns that [fillQueue] allows, the loop stops on its own
    condition. *)
Lemma fillLoop_exit turns : forall queue current,
  endBlock + 1 - current <= Z.of_nat turns ->
  let '(queue', current') := fillLoop endBlock concurrency turns queue current in
  (Z.of_nat (List.length queue') <? concurrency) && (current' <=? endBlock) = false.
Proof.
  induction turns as [|turns IH]; intros queue current Hle; simpl.
  - apply andb_false_iff. right. apply Z.leb_gt. lia.
  - destruct ((Z.of_nat (List.length queue) <? concurrency) && (current <=? endBlock)) eqn:E.
    + apply IH. lia.
    + exact E.
Qed.

Lemma fillQueue_fields st :
  let st' := fillQueue endBlock concurrency st in
  blocksIndexed st' = blocksIndexed st /\
  extrinsicsIndexed st' = extrinsicsIndexed st /\
  eventsIndexed st' = eventsIndexed st /\
  db st' = db st /\ writes st' = writes st /\
  callbacks st' = callbacks st /\ dequeued st' = dequeued st.
Proof.
  unfold fillQueue.
  destruct (fillLoop endBlock concurrency _ (fetchQueue st) (currentBlock st)).
  simpl. repeat split.
Qed.

Lemma fillQueue_queue st :
  exists k, fetchQueue (fillQueue endBlock concurrency st) =
              fetchQueue st ++ upto (currentBlock st) k /\
            currentBlock (fillQueue endBlock concurrency st) =
              currentBlock st + Z.of_nat k.
Proof.
  unfold fillQueue.
  destruct (fillLoop_appends (Z.to_nat (endBlock + 1 - currentBlock st))
                             (fetchQueue st) (currentBlock st)) as [k ->].
  exists k. split; reflexivity.
Qed.

Lemma fillQueue_nextUp st :
  nextUp (fillQueue endBlock concurrency st) = nextUp st.
Proof.
  destruct (fillQueue_queue st) as (k & Hq & Hc).
  unfold nextUp. rewrite Hq, Hc, length_app, upto_length. lia.
Qed.

End Fill.

(** *** The documents of a height carry its number *)

Lemma extrinsicDoc_blockNumber chainId d index x doc :
  extrinsicDoc chainId d index x = Resolved doc ->
  ExtrinsicDocument.blockNumber doc = blockNum d.
Proof.
  unfold extrinsicDoc.
  destruct (extrinsicStatus (allEvents d) index) as [success error].
  destruct (Extrinsic.isSigned x); [destruct (Extrinsic.nonce x) as [[n|e]|]|];
    intros H; inversion H; reflexivity.
Qed.

Lemma extrinsicDocsFrom_blockNumber chainId d xs : forall index docs,
  extrinsicDocsFrom chainId d index xs = Resolved docs ->
  Forall (fun x => ExtrinsicDocument.blockNumber x = blockNum d) docs.
Proof.
  induction xs as [|x rest IH]; intros index docs; simpl.
  - intros H. inversion H. constructor.
  - destruct (extrinsicDoc chainId d index x) as [doc|e] eqn:Hdoc; [|discriminate].
    destruct (extrinsicDocsFrom chainId d (index + 1) rest) as [docs'|e] eqn:Hrest;
      [|discriminate].
    intros H. inversion H. subst. constructor.
    + eapply extrinsicDoc_blockNumber, Hdoc.
    + eapply IH, Hrest.
Qed.

Lemma eventDocsFrom_blockNumber chainId d records : forall eventIndex,
  Forall (fun x => EventDocument.blockNumber x = blockNum d)
         (eventDocsFrom chainId d eventIndex records).
Proof.
  induction records as [|r rest IH]; intros eventIndex; simpl; constructor.
  - reflexivity.
  - apply IH.
Qed.

Lemma normalize_tagged chainId d docs :
  normalize chainId d = Resolved docs ->
  BlockDocument.number (theBlock docs) = blockNum d /\
  Forall (fun x => ExtrinsicDocument.blockNumber x = blockNum d) (extrinsicDocs docs) /\
  Forall (fun x => EventDocument.blockNumber x = blockNum d) (eventDocs docs).
Proof.
  unfold normalize.
  destruct (extrinsicDocsFrom chainId d 0 (extrinsics (signedBlock d))) as [xdocs|e] eqn:E;
    [|discriminate].
  intros H. inversion H. subst. simpl. split; [reflexivity|]. split.
  - eapply extrinsicDocsFrom_blockNumber, E.
  - apply eventDocsFrom_blockNumber.
Qed.

(** *** The write log *)

Lemma blockInserts_app ws ws' :
  blockInserts (ws ++ ws') = blockInserts ws ++ blockInserts ws'.
Proof.
  induction ws as [|w ws IH]; simpl; [reflexivity|].
  destruct (op w); simpl; now rewrite IH.
Qed.

Lemma progressed_app ws ws' :
  progressed (ws ++ ws') = progressed ws ++ progressed ws'.
Proof.
  induction ws as [|w ws IH]; simpl; [reflexivity|].
  destruct (op w) as [| | |p]; try assumption.
  destruct (ScanProgressDocument.lastIndexedBlock p =? atHeight w); simpl; now rewrite IH.
Qed.

Lemma blockInserts_In ws h :
  In h (blockInserts ws) -> exists w, In w ws /\ atHeight w = h.
Proof.
  induction ws as [|w ws IH]; simpl; [tauto|].
  destruct (op w); simpl; intros H;
    try (destruct (IH H) as (w' & ? & ?); exists w'; tauto).
  destruct H as [<-|H]; [exists w; tauto|].
  destruct (IH H) as (w' & ? & ?); exists w'; tauto.
Qed.

Lemma progressed_In ws h :
  In h (progressed ws) -> exists w, In w ws /\ atHeight w = h.
Proof.
  induction ws as [|w ws IH]; simpl; [tauto|].
  destruct (op w) as [| | |p]; simpl; intros H;
    try (destruct (IH H) as (w' & ? & ?); exists w'; tauto).
  destruct (ScanProgressDocument.lastIndexedBlock p =? atHeight w).
  - destruct H as [<-|H]; [exists w; tauto|].
    destruct (IH H) as (w' & ? & ?); exists w'; tauto.
  - destruct (IH H) as (w' & ? & ?); exists w'; tauto.
Qed.

Section Writes.
Variable h : Z.

Lemma persistWrites_at docs :
  Forall (fun w => atHeight w = h) (persistWrites h docs).
Proof.
  unfold persistWrites.
  destruct (extrinsicDocs docs), (eventDocs docs); simpl; repeat constructor.
Qed.

Lemma persistWrites_blocks docs : blockInserts (persistWrites h docs) = [h].
Proof.
  unfold persistWrites.
  destruct (extrinsicDocs docs), (eventDocs docs); reflexivity.
Qed.

Lemma persistWrites_progressed docs : progressed (persistWrites h docs) = [].
Proof.
  unfold persistWrites.
  destruct (extrinsicDocs docs), (eventDocs docs); reflexivity.
Qed.

Lemma persistWrites_tagged docs :
  BlockDocument.number (theBlock docs) = h ->
  Forall (fun x => ExtrinsicDocument.blockNumber x = h) (extrinsicDocs docs) ->
  Forall (fun x => EventDocument.blockNumber x = h) (eventDocs docs) ->
  Forall tagged (persistWrites h docs).
Proof.
  intros Hb Hx He. unfold persistWrites.
  apply Forall_app. split; [constructor; [exact Hb|constructor]|].
  apply Forall_app. split.
  - destruct (extrinsicDocs docs) as [|x xs]; [constructor|].
    apply Forall_cons; [exact Hx|apply Forall_nil].
  - destruct (eventDocs docs) as [|x xs]; [constructor|].
    apply Forall_cons; [exact He|apply Forall_nil].
Qed.

End Writes.

(** *** One turn of the loop *)

Section Turns.
Variable api : ChainApi.
Variable retryFuel : nat.
Variable chainId : Z.
Variable endBlock : Z.
Variable concurrency : Z.
Variable callbackGiven : bool.

Let process := processBlock api chainId endBlock callbackGiven.
Let await := awaitHead api retryFuel chainId endBlock callbackGiven.
Let fetch := fetchBlockData api retryFuel.
Let fill := fillQueue endBlock concurrency.

(** [fetchBlockData] returns the data under the height it was asked for. *)
Lemma fetchBlockData_blockNum h d : fetch h = FetchedData d -> blockNum d = h.
Proof.
  unfold fetch, fetchBlockData.
  destruct (Retry.retryOnNetworkError (blockAt api h) retryFuel) as [r ?|e ?|?].
  - intros H. inversion H. reflexivity.
  - destruct (Retry.isStatePrunedError e); discriminate.
  - discriminate.
Qed.

(** What the [try] block and its [catch] do to the state. *)
Lemma processBlock_effect st d :
  exists new,
    writes (stateOf (process st d)) = writes st ++ new /\
    Forall (fun w => atHeight w = blockNum d) new /\
    Forall tagged new /\
    (blockInserts new = [] \/ blockInserts new = [blockNum d]) /\
    currentBlock (stateOf (process st d)) = currentBlock st /\
    fetchQueue (stateOf (process st d)) = fetchQueue st /\
    dequeued (stateOf (process st d)) = dequeued st /\
    match process st d with
    | Continue st' =>
        progressed new = [blockNum d] /\
        (exists u, In u new /\ closes (blockNum d) u) /\
        callbacks st' =
          if callbackGiven
          then callbacks st ++
                 [Progress.mk (blockNum d) (blocksIndexed st') (extrinsicsIndexed st')
                              (eventsIndexed st') (Z.of_nat (List.length (fetchQueue st)))]
          else callbacks st
    | Propagate _ st' => progressed new = [] /\ callbacks st' = callbacks st
    | AwaitForever _ => False
    end.
Proof.
  unfold process, processBlock.
  destruct (normalize chainId d) as [docs|e] eqn:Hnorm.
  - destruct (normalize_tagged _ _ _ Hnorm) as (Hb & Hx & He).
    destruct (persist (db st) docs) as [s [e|]].
    + (* an insert failed *)
      eexists. cbn [onError stateOf writes currentBlock fetchQueue dequeued callbacks].
      split; [reflexivity|]. split.
      { apply Forall_app. split; [apply persistWrites_at|]. repeat constructor. }
      split.
      { apply Forall_app. split; [now apply persistWrites_tagged|].
        constructor; [|constructor]. unfold tagged. simpl. right. reflexivity. }
      split.
      { right. rewrite blockInserts_app, persistWrites_blocks. reflexivity. }
      repeat (split; [reflexivity|]).
      split; [|reflexivity].
      rewrite progressed_app, persistWrites_progressed. simpl.
      destruct (Z.eqb_spec (blockNum d - 1) (blockNum d)); [lia|reflexivity].
    + (* everything was written *)
      eexists. cbn [stateOf writes currentBlock fetchQueue dequeued callbacks].
      split; [reflexivity|]. split.
      { apply Forall_app. split; [apply persistWrites_at|]. repeat constructor. }
      split.
      { apply Forall_app. split; [now apply persistWrites_tagged|].
        constructor; [|constructor]. unfold tagged. simpl. left. reflexivity. }
      split.
      { right. rewrite blockInserts_app, persistWrites_blocks. reflexivity. }
      repeat (split; [reflexivity|]).
      split.
      { rewrite progressed_app, persistWrites_progressed. simpl.
        now rewrite Z.eqb_refl. }
      split; [|reflexivity].
      eexists. split; [apply in_or_app; right; left; reflexivity|].
      split; [reflexivity|]. eexists. split; reflexivity.
  - (* the documents could not be prepared *)
    eexists. cbn [onError stateOf writes currentBlock fetchQueue dequeued callbacks app].
    split; [reflexivity|]. split; [repeat constructor|]. split.
    { constructor; [|constructor]. unfold tagged. simpl. right. reflexivity. }
    split; [left; reflexivity|].
    repeat (split; [reflexivity|]).
    split; [|reflexivity]. simpl.
    destruct (Z.eqb_spec (blockNum d - 1) (blockNum d)); [lia|reflexivity].
Qed.

(** *** The invariant *)

Let Inv := invariant api retryFuel callbackGiven.

Lemma invariant_initial s startBlock : Inv (initialState chainId s startBlock).
Proof.
  constructor; simpl; try constructor.
  - exists O. reflexivity.
  - intros h [].
Qed.

Lemma invariant_fill st : Inv st -> Inv (fill st).
Proof.
  intros [Hq Hbelow Hh Hb Ht Hd Hr Hp Hf].
  destruct (fillQueue_fields endBlock concurrency st)
    as (_ & _ & _ & _ & Hw & Hc & Hdq).
  pose proof (fillQueue_nextUp endBlock concurrency st) as Hn.
  destruct (fillQueue_queue endBlock concurrency st) as (k & Hq' & Hc').
  fold fill in Hw, Hc, Hdq, Hn, Hq', Hc'.
  constructor; rewrite ?Hw, ?Hc, ?Hdq, ?Hn; try assumption.
  rewrite Hq', length_app, upto_length, upto_app.
  rewrite Hq at 1. f_equal. f_equal. unfold nextUp. lia.
Qed.

(** The head of the queue is the lowest height not yet taken off. *)
Lemma invariant_head st h rest :
  Inv st -> fetchQueue st = h :: rest ->
  h = nextUp st /\ currentBlock st = h + 1 + Z.of_nat (List.length rest).
Proof.
  intros [Hq _ _ _ _ _ _ _ _] E. rewrite E in Hq. simpl in Hq.
  injection Hq as Hh Hrest. split; [exact Hh|].
  rewrite Hh. unfold nextUp. rewrite E. simpl List.length. lia.
Qed.

Lemma dequeued_snoc (next : Z) dq h :
  (exists n, dq = upto (next - Z.of_nat n) n) -> h = next ->
  exists n, dq ++ [h] = upto (next + 1 - Z.of_nat n) n.
Proof.
  intros [n ->] ->. exists (S n). replace (S n) with (n + 1)%nat by lia.
  rewrite upto_app. simpl. f_equal; [f_equal; lia|f_equal; lia].
Qed.

(** Taking the head off the queue without any write. *)
Lemma invariant_shift st h rest :
  Inv st -> fetchQueue st = h :: rest ->
  Inv (mkLoop (currentBlock st) rest (blocksIndexed st) (extrinsicsIndexed st)
              (eventsIndexed st) (db st) (writes st) (callbacks st)
              (dequeued st ++ [h])).
Proof.
  intros HI E. destruct (invariant_head _ _ _ HI E) as [Hh Hc].
  destruct HI as [Hq Hbelow Hhs Hb Ht Hd Hr Hp Hf].
  set (st1 := mkLoop _ _ _ _ _ _ _ _ _).
  assert (Hn : nextUp st1 = nextUp st + 1).
  { unfold nextUp. simpl. rewrite E. simpl List.length. lia. }
  constructor; rewrite ?Hn; simpl; try assumption.
  - rewrite E in Hq. simpl in Hq. injection Hq as _ Hrest. exact Hrest.
  - eapply Forall_impl; [|exact Hbelow]. simpl. intros w Hw. lia.
  - now apply dequeued_snoc.
Qed.

Lemma sorted_constant h (ws : list Write) :
  Forall (fun w => atHeight w = h) ws -> StronglySorted Z.le (map atHeight ws).
Proof.
  induction 1 as [|w ws Hw Hws IH]; simpl; constructor; [assumption|].
  apply Forall_forall. intros y Hy. apply in_map_iff in Hy.
  destruct Hy as (w' & <- & Hw'). rewrite Forall_forall in Hws.
  rewrite (Hws w' Hw'), Hw. lia.
Qed.

(** Processing the head of the queue. *)
Lemma invariant_process st h rest d :
  Inv st -> fetchQueue st = h :: rest -> fetch h = FetchedData d ->
  Inv (stateOf (process
         (mkLoop (currentBlock st) rest (blocksIndexed st) (extrinsicsIndexed st)
                 (eventsIndexed st) (db st) (writes st) (callbacks st)
                 (dequeued st ++ [h])) d)).
Proof.
  intros HI E Hfetch.
  pose proof (fetchBlockData_blockNum _ _ Hfetch) as Hnum.
  destruct (invariant_head _ _ _ HI E) as [Hh Hc].
  pose proof (invariant_shift _ _ _ HI E) as HS.
  set (st1 := mkLoop _ _ _ _ _ _ _ _ _) in *.
  destruct (processBlock_effect st1 d)
    as (new & Hw & Hat & Htag & Hblocks & Hcur & Hqueue & Hdq & Hcase).
  fold process in Hw, Hcur, Hqueue, Hdq, Hcase.
  rewrite Hnum in *.
  assert (Hnext : nextUp (stateOf (process st1 d)) = h + 1).
  { unfold nextUp. rewrite Hcur, Hqueue. simpl. lia. }
  assert (Hold : forall w, In w (writes st) -> atHeight w < h).
  { destruct HI as [_ Hbelow _ _ _ _ _ _ _]. rewrite Forall_forall in Hbelow.
    intros w Hin. rewrite Hh. now apply Hbelow. }
  assert (Hnew : forall w, In w new -> atHeight w = h)
    by (now apply Forall_forall).
  assert (Hn1 : nextUp st1 = h + 1).
  { unfold nextUp. subst st1. simpl. lia. }
  destruct HS as [Hq1 _ _ _ _ Hd1 _ _ _].
  destruct HI as [_ _ Hhs Hb Ht _ Hr Hp Hf].
  constructor.
  - rewrite Hqueue, Hnext, <- Hn1. exact Hq1.
  - rewrite Hw, Hnext. apply Forall_app. split; apply Forall_forall; intros w Hin.
    + specialize (Hold w Hin). lia.
    + rewrite (Hnew w Hin). lia.
  - rewrite Hw, map_app. apply sorted_snoc; [assumption|now apply sorted_constant with h|].
    intros x y Hx Hy. apply in_map_iff in Hx, Hy.
    destruct Hx as (w & <- & Hin), Hy as (w' & <- & Hin').
    specialize (Hold w Hin). rewrite (Hnew w' Hin'). lia.
  - rewrite Hw, blockInserts_app. apply sorted_snoc; [assumption| |].
    + destruct Hblocks as [->| ->]; repeat constructor.
    + intros x y Hx Hy. apply blockInserts_In in Hx, Hy.
      destruct Hx as (w & Hin & <-), Hy as (w' & Hin' & <-).
      specialize (Hold w Hin). rewrite (Hnew w' Hin'). lia.
  - rewrite Hw. apply Forall_app. split; assumption.
  - rewrite Hdq, Hnext, <- Hn1. exact Hd1.
  - intros Hgiven. rewrite Hw, progressed_app.
    destruct (process st1 d) as [st'|e st'|st']; [| |contradiction]; simpl in *.
    + destruct Hcase as (-> & _ & ->). rewrite Hgiven. unfold reported in *.
      rewrite map_app. simpl. now rewrite Hr.
    + destruct Hcase as (-> & ->). rewrite app_nil_r. auto.
  - rewrite Hw, progressed_app. apply sorted_snoc; [assumption| |].
    + destruct (process st1 d) as [st'|e st'|st']; [| |contradiction].
      * destruct Hcase as (-> & _). repeat constructor.
      * destruct Hcase as (-> & _). constructor.
    + intros x y Hx Hy. apply progressed_In in Hx, Hy.
      destruct Hx as (w & Hin & <-), Hy as (w' & Hin' & <-).
      specialize (Hold w Hin). rewrite (Hnew w' Hin'). lia.
  - intros x. rewrite Hw, progressed_app. intros Hx. apply in_app_or in Hx.
    destruct Hx as [Hx|Hx]; [now apply Hf|].
    apply progressed_In in Hx. destruct Hx as (w & Hin & <-).
    rewrite (Hnew w Hin). now exists d.
Qed.

(** Whatever a turn does, the invariant holds afterwards. *)
Lemma invariant_await st : Inv st -> Inv (stateOf (await st)).
Proof.
  intros HI. unfold await, awaitHead.
  destruct (fetchQueue st) as [|h rest] eqn:E; [exact HI|].
  fold fetch. destruct (fetch h) as [d| |e|] eqn:Hfetch; simpl.
  - now apply invariant_process.
  - now apply invariant_shift.
  - now apply invariant_shift.
  - exact HI.
Qed.

(** A turn that goes on leaves every height it wrote for closed by its
    progress update. *)
Lemma allClosed_await st st' :
  allClosed (writes st) -> await st = Continue st' -> allClosed (writes st').
Proof.
  unfold await, awaitHead. intros Hclosed.
  destruct (fetchQueue st) as [|h rest]; [intros H; inversion H; now subst|].
  fold fetch. destruct (fetch h) as [d| |e|] eqn:Hfetch; try discriminate.
  - set (st1 := mkLoop _ _ _ _ _ _ _ _ _).
    destruct (processBlock_effect st1 d) as (new & Hw & Hat & _ & _ & _ & _ & _ & Hcase).
    fold process in Hw, Hcase |- *. intros Hp. rewrite Hp in Hw, Hcase. simpl in Hw.
    destruct Hcase as (_ & (u & Hu & Hcl) & _).
    rewrite Hw. intros w Hin. apply in_app_or in Hin. destruct Hin as [Hin|Hin].
    + destruct (Hclosed w Hin) as (u' & Hu' & Hcl'). exists u'. split; [|assumption].
      apply in_or_app. now left.
    + rewrite Forall_forall in Hat. rewrite (Hat w Hin).
      exists u. split; [|assumption]. apply in_or_app. now right.
  - intros H. inversion H. now subst.
Qed.

Let reach :=
  reachable api retryFuel chainId endBlock concurrency callbackGiven.

(** The invariant holds in every state of every schedule. *)
Lemma reachable_invariant store startBlock s :
  reach (start chainId store startBlock) s ->
  Inv (loop s) /\
  ((forall e, point s <> Halted e) -> allClosed (writes (loop s))).
Proof.
  induction 1 as [|s s' Hreach [IHinv IHclosed] Hstep].
  - split; [apply invariant_initial|]. intros _ w [].
  - destruct Hstep as [st stl pt h Hin Hnew Hfetch
                      |st stl Hle
                      |st stl Hlt
                      |st stl st' Hhead Hawait
                      |st stl error st' Hhead Hawait]; simpl in *.
    + split; assumption.
    + split; [now apply invariant_fill|].
      intros _.
      destruct (fillQueue_fields endBlock concurrency st) as (_ & _ & _ & _ & -> & _).
      apply IHclosed. discriminate.
    + split; [assumption|]. intros _. apply IHclosed. discriminate.
    + split.
      * pose proof (invariant_await st IHinv) as HI. unfold await in HI.
        now rewrite Hawait in HI.
      * intros _. apply (allClosed_await st); [|exact Hawait].
        apply IHclosed. discriminate.
    + split.
      * pose proof (invariant_await st IHinv) as HI. unfold await in HI.
        now rewrite Hawait in HI.
      * intros Hne. exfalso. now apply (Hne error).
Qed.

(** *** The sequential reading is one of the schedules *)

Lemma process_never_waits st d st' : process st d <> AwaitForever st'.
Proof.
  intros H. destruct (processBlock_effect st d) as (new & _ & _ & _ & _ & _ & _ & _ & Hcase).
  fold process in Hcase. now rewrite H in Hcase.
Qed.

Lemma await_forever st st' :
  await st = AwaitForever st' ->
  st' = st /\ exists h rest, fetchQueue st = h :: rest /\ fetch h = FetchPending.
Proof.
  unfold await, awaitHead. destruct (fetchQueue st) as [|h rest]; [discriminate|].
  fold fetch. destruct (fetch h) as [d| |e|] eqn:Hfetch; try discriminate.
  - intros H. now apply process_never_waits in H.
  - intros H. inversion H. split; [reflexivity|]. now exists h, rest.
Qed.

(** Once the head of the queue is going to settle, the loop can be
    brought to the point where it has. *)
Lemma settle_head init st stl :
  reach init (mkAsync st stl Awaiting) ->
  (forall st', await st <> AwaitForever st') ->
  exists stl', reach init (mkAsync st stl' Awaiting) /\ headSettled st stl'.
Proof.
  intros Hreach Hsettles. unfold headSettled.
  destruct (fetchQueue st) as [|h rest] eqn:E; [now exists stl|].
  destruct (in_dec Z.eq_dec h stl) as [Hin|Hout]; [now exists stl|].
  exists (h :: stl). split; [|now left].
  eapply reach_step; [exact Hreach|]. apply step_settle.
  - rewrite E. now left.
  - exact Hout.
  - intros Hpending. apply (Hsettles st). unfold await, awaitHead.
    rewrite E. fold fetch. unfold fetch. now rewrite Hpending.
Qed.

Lemma run_reachable init fuel : forall st stl,
  reach init (mkAsync st stl AtLoopHead) ->
  exists stl' pt,
    reach init
      (mkAsync
         (resultState
            (run api retryFuel chainId endBlock concurrency callbackGiven fuel st))
         stl' pt).
Proof.
  induction fuel as [|fuel IH]; intros st stl Hreach.
  - now exists stl, AtLoopHead.
  - cbn [run]. destruct (Z.leb_spec (currentBlock st) endBlock) as [Hle|Hgt].
    + assert (Hfilled : reach init (mkAsync (fill st) stl Awaiting)).
      { eapply reach_step; [exact Hreach|]. now apply step_enter. }
      unfold turn. fold fill. fold await.
      destruct (await (fill st)) as [st'|e st'|st'] eqn:Hawait.
      * destruct (settle_head _ _ _ Hfilled) as (stl' & Hreach' & Hhead).
        { intros st0. rewrite Hawait. discriminate. }
        apply (IH st' stl'). eapply reach_step; [exact Hreach'|].
        now apply step_resume.
      * destruct (settle_head _ _ _ Hfilled) as (stl' & Hreach' & Hhead).
        { intros st0. rewrite Hawait. discriminate. }
        exists stl', (Halted e). simpl. eapply reach_step; [exact Hreach'|].
        now apply step_throw.
      * apply await_forever in Hawait. destruct Hawait as [-> _].
        now exists stl, Awaiting.
    + exists stl, Finished. simpl. eapply reach_step; [exact Hreach|].
      now apply step_exit.
Qed.

End Turns.

(** What [index] returns, or is left with when the model runs out of
    fuel, is a state of some schedule, so the invariant holds of it. *)
Lemma index_invariant api retryFuel chainId options store fuel :
  invariant api retryFuel (onProgress options)
            (resultState (index api retryFuel chainId options store fuel)).
Proof.
  unfold index.
  set (endHeight := resolveEnd api (endBlock options)).
  set (startHeight := resolveStart _ _ _).
  set (c := match concurrency options with Some c => c | None => 5 end).
  destruct (run_reachable api retryFuel chainId endHeight c (onProgress options)
                          (start chainId store startHeight) fuel
                          (initialState chainId store startHeight) [])
    as (stl & pt & Hreach); [apply reach_init|].
  apply reachable_invariant in Hreach. exact (proj1 Hreach).
Qed.

(** C1: in every state that a run can reach, with any concurrency and
    whatever the order in which the fetches in the queue settle, the
    writes sent to the store are in the order of their heights, the block
    inserts are in strictly increasing height order, each write carries
    the documents of its own height, and, unless the run has failed, every
    height written for has its progress update in the log: the three
    inserts and the progress update of a height are all sent before the
    first write of a later height. *)
Theorem persistence_in_height_order
        api retryFuel chainId endBlock concurrency callbackGiven store startBlock s :
  reachable api retryFuel chainId endBlock concurrency callbackGiven
            (start chainId store startBlock) s ->
  StronglySorted Z.le (map atHeight (writes (loop s))) /\
  StronglySorted Z.lt (blockInserts (writes (loop s))) /\
  Forall tagged (writes (loop s)) /\
  ((forall e, point s <> Halted e) -> allClosed (writes (loop s))).
Proof.
  intros Hreach.
  destruct (reachable_invariant _ _ _ _ _ _ _ _ _ Hreach) as [HI Hclosed].
  destruct HI as [_ _ Hh Hb Ht _ _ _ _]. repeat split; assumption.
Qed.

(** The example schedule is one the loop can follow. *)
Lemma sched7_reachable :
  reachable Examples.healthyNode 1 1 2 2 true
            (start 1 Db.emptyStore 0) Examples.sched7.
Proof.
  apply reach_step with (s := Examples.sched6).
  apply reach_step with (s := Examples.sched5).
  apply reach_step with (s := Examples.sched4).
  apply reach_step with (s := Examples.sched3).
  apply reach_step with (s := Examples.sched2).
  apply reach_step with (s := Examples.sched1).
  apply reach_step with (s := Examples.sched0).
  - apply reach_init.
  - apply step_enter. simpl. lia.
  - apply step_settle; [vm_compute; tauto|simpl; tauto|vm_compute; discriminate].
  - apply step_settle; [vm_compute; tauto|simpl; lia|vm_compute; discriminate].
  - apply step_resume; [vm_compute; tauto|vm_compute; reflexivity].
  - apply step_enter. vm_compute. discriminate.
  - apply step_settle; [vm_compute; tauto|simpl; lia|vm_compute; discriminate].
  - apply step_resume; [vm_compute; tauto|vm_compute; reflexivity].
Defined.

(** The theorem on a schedule over heights 0 to 2 with two fetches in
    flight, in which height 1 settles before height 0. *)
Lemma persistence_in_height_order_example :
  blockInserts (writes (loop Examples.sched7)) = [0; 1] /\
  StronglySorted Z.lt (blockInserts (writes (loop Examples.sched7))).
Proof.
  split; [reflexivity|].
  apply (persistence_in_height_order Examples.healthyNode 1 1 2 2 true
                                     Db.emptyStore 0 Examples.sched7).
  exact sched7_reachable.
Defined.

(** *** The range of a run *)

(** C2, as stated, fails: with a progress record at 9 and the chain at
    height 9, a run without an explicit start begins at 0, not at 10. *)
Lemma resume_restarts_at_zero :
  Db.getScanProgress Examples.gapStore 1 = Some (Examples.progressAt 9) /\
  resolveStart None (Db.getScanProgress Examples.gapStore 1)
               (resolveEnd Examples.nodeAtNine None) = 0 /\
  index Examples.nodeAtNine 1 1 Examples.noOptions Examples.gapStore 0 =
    OutOfFuel (initialState 1 Examples.gapStore 0).
Proof. repeat split. Qed.

(** C2 (amended): a run without an explicit start enters its loop at
    [lastIndexedBlock + 1] when a progress record exists and is behind the
    end height, and at 0 when there is no progress record or when the
    record is at or past the end height. *)
Theorem resume_start_height api retryFuel chainId options store fuel :
  startBlock options = None ->
  let endHeight := resolveEnd api (endBlock options) in
  exists startHeight,
    index api retryFuel chainId options store fuel =
      run api retryFuel chainId endHeight
          (match concurrency options with Some c => c | None => 5 end)
          (onProgress options) fuel (initialState chainId store startHeight) /\
    match Db.getScanProgress store chainId with
    | Some p =>
        (ScanProgressDocument.lastIndexedBlock p < endHeight ->
         startHeight = ScanProgressDocument.lastIndexedBlock p + 1) /\
        (endHeight <= ScanProgressDocument.lastIndexedBlock p -> startHeight = 0)
    | None => startHeight = 0
    end.
Proof.
  intros Hstart endHeight. unfold index. rewrite Hstart. fold endHeight.
  eexists. split; [reflexivity|]. unfold resolveStart.
  destruct (Db.getScanProgress store chainId) as [p|]; [|reflexivity].
  destruct (Z.ltb_spec (ScanProgressDocument.lastIndexedBlock p) endHeight);
    split; intros; try reflexivity; lia.
Qed.

(** The theorem with the progress record at 9 and the chain at height 20. *)
Lemma resume_start_height_example :
  index Examples.nodeAtTwenty 1 1 Examples.noOptions Examples.gapStore 0 =
    OutOfFuel (initialState 1 Examples.gapStore 10).
Proof.
  destruct (resume_start_height Examples.nodeAtTwenty 1 1 Examples.noOptions
                                Examples.gapStore 0 eq_refl)
    as (startHeight & Hrun & Hstart).
  rewrite Hrun. simpl in Hstart. destruct Hstart as [Hresume _].
  rewrite Hresume by (simpl; lia). reflexivity.
Defined.

(** *** Failure of a height *)

Lemma find_upsert p coll :
  find (fun q => ScanProgressDocument.chainId q =? ScanProgressDocument.chainId p)
       (Db.upsertProgress p coll) = Some p.
Proof.
  induction coll as [|q rest IH]; simpl.
  - now rewrite Z.eqb_refl.
  - destruct (ScanProgressDocument.chainId q =? ScanProgressDocument.chainId p) eqn:E;
      simpl.
    + now rewrite Z.eqb_refl.
    + now rewrite E.
Qed.

Lemma getScanProgress_update s p :
  Db.getScanProgress (Db.updateScanProgress s p) (ScanProgressDocument.chainId p) = Some p.
Proof. unfold Db.getScanProgress, Db.updateScanProgress. simpl. apply find_upsert. Qed.



(** *** Concurrency *)

Section Concurrency.
Variable api : ChainApi.
Variable retryFuel : nat.
Variable chainId : Z.
Variable endBlock : Z.
Variable callbackGiven : bool.




Lemma fillLoop_single turns current :
  current <= endBlock ->
  fillLoop endBlock 1 (S turns) [] current = ([current], current + 1).
Proof.
  intros Hle. cbn [fillLoop]. apply Z.leb_le in Hle. rewrite Hle. simpl.
  destruct turns; reflexivity.
Qed.

Lemma fillQueue_single st :
  fetchQueue st = [] -> currentBlock st <= endBlock ->
  fillQueue endBlock 1 st =
    mkLoop (currentBlock st + 1) [currentBlock st]
           (blocksIndexed st) (extrinsicsIndexed st) (eventsIndexed st)
           (db st) (writes st) (callbacks st) (dequeued st).
Proof.
  intros Hq Hle. unfold fillQueue. rewrite Hq.
  replace (Z.to_nat (endBlock + 1 - currentBlock st))
    with (S (Z.to_nat (endBlock - currentBlock st))) by lia.
  now rewrite fillLoop_single.
Qed.

(** With one fetch in flight a run over [n] heights ends within [n + 1]
    turns, and when it completes it has taken every height of the range
    off the queue, in order. *)
Lemma run_single n : forall st,
  fetchQueue st = [] ->
  Z.to_nat (endBlock + 1 - currentBlock st) = n ->
  match run api retryFuel chainId endBlock 1 callbackGiven (S n) st with
  | OutOfFuel _ => False
  | Completed st' => dequeued st' = dequeued st ++ upto (currentBlock st) n
  | Failed _ _ | Blocked _ => True
  end.
Proof.
  induction n as [|n IH]; intros st Hq Hn.
  - cbn [run]. destruct (Z.leb_spec (currentBlock st) endBlock); [lia|].
    simpl. now rewrite app_nil_r.
  - assert (Hle : currentBlock st <= endBlock) by lia.
    remember (S n) as fuel. cbn [run]. subst fuel.
    apply Z.leb_le in Hle. rewrite Hle. apply Z.leb_le in Hle.
    unfold turn. rewrite fillQueue_single by assumption.
    unfold awaitHead. cbn [fetchQueue].
    set (st1 := mkLoop _ [] _ _ _ _ _ _ _).
    assert (Hstep : forall st2,
               fetchQueue st2 = [] -> currentBlock st2 = currentBlock st + 1 ->
               dequeued st2 = dequeued st ++ [currentBlock st] ->
               match run api retryFuel chainId endBlock 1 callbackGiven (S n) st2 with
               | OutOfFuel _ => False
               | Completed st' =>
                   dequeued st' = dequeued st ++ upto (currentBlock st) (S n)
               | Failed _ _ | Blocked _ => True
               end).
    { intros st2 Hq2 Hc2 Hd2. specialize (IH st2 Hq2). rewrite Hc2 in IH.
      specialize (IH ltac:(lia)).
      destruct (run api retryFuel chainId endBlock 1 callbackGiven (S n) st2);
        try exact IH.
      rewrite IH, Hd2, <- app_assoc. reflexivity. }
    destruct (fetchBlockData api retryFuel (currentBlock st)) as [d| |e|]; try exact I.
    + destruct (processBlock_effect api chainId endBlock callbackGiven st1 d)
        as (new & _ & _ & _ & _ & Hcur & Hqueue & Hdq & Hcase).
      destruct (processBlock api chainId endBlock callbackGiven st1 d)
        as [st2|e st2|st2]; [|exact I|contradiction].
      simpl in Hcur, Hqueue, Hdq. now apply Hstep.
    + now apply Hstep.
Qed.

End Concurrency.

(** *** What a completed run has taken off the queue *)

Section Drain.
Variable api : ChainApi.
Variable retryFuel : nat.
Variable chainId : Z.
Variable endBlock : Z.
Variable concurrency : Z.
Variable callbackGiven : bool.
Variable startBlock : Z.
Hypothesis concurrency_pos : 1 <= concurrency.
Hypothesis range_nonempty : startBlock <= endBlock.

Let await := awaitHead api retryFuel chainId endBlock callbackGiven.
Let fill := fillQueue endBlock concurrency.
Let Inv := invariant api retryFuel callbackGiven.

Let window := Log.window startBlock endBlock concurrency.
Let draining := Log.draining startBlock endBlock concurrency.

Lemma fillLoop_bounds turns : forall queue current,
  Z.of_nat (List.length queue) <= concurrency -> current <= endBlock + 1 ->
  Z.of_nat (List.length (fst (fillLoop endBlock concurrency turns queue current)))
    <= concurrency /\
  snd (fillLoop endBlock concurrency turns queue current) <= endBlock + 1.
Proof.
  induction turns as [|turns IH]; intros queue current Hlen Hcur; simpl; [split; assumption|].
  destruct (Z.ltb_spec (Z.of_nat (List.length queue)) concurrency);
    destruct (Z.leb_spec current endBlock); simpl; try (split; assumption).
  apply IH; [|lia]. rewrite length_app. simpl. lia.
Qed.

(** The fill loop stops with the queue full or the range used up. *)
Lemma fill_length st :
  Z.of_nat (List.length (fetchQueue st)) <= concurrency ->
  currentBlock st <= endBlock + 1 ->
  Z.of_nat (List.length (fetchQueue (fill st))) =
    Z.min concurrency
          (Z.of_nat (List.length (fetchQueue st)) + (endBlock + 1 - currentBlock st)) /\
  currentBlock (fill st) - Z.of_nat (List.length (fetchQueue (fill st))) =
    currentBlock st - Z.of_nat (List.length (fetchQueue st)).
Proof.
  intros Hlen Hcur. unfold fill, fillQueue.
  pose proof (fillLoop_bounds (Z.to_nat (endBlock + 1 - currentBlock st))
                              (fetchQueue st) (currentBlock st) Hlen Hcur) as Hb.
  pose proof (fillLoop_exit endBlock concurrency
                            (Z.to_nat (endBlock + 1 - currentBlock st))
                            (fetchQueue st) (currentBlock st) ltac:(lia)) as He.
  destruct (fillLoop_appends endBlock concurrency
                             (Z.to_nat (endBlock + 1 - currentBlock st))
                             (fetchQueue st) (currentBlock st)) as [k Hk].
  rewrite Hk in *. simpl in *. rewrite length_app, upto_length in *.
  apply andb_false_iff in He. rewrite Z.ltb_ge, Z.leb_gt in He. lia.
Qed.

(** A turn that goes on takes exactly the head off the queue. *)
Lemma await_takes_head st h rest st' :
  fetchQueue st = h :: rest -> await st = Continue st' ->
  fetchQueue st' = rest /\ currentBlock st' = currentBlock st /\
  dequeued st' = dequeued st ++ [h].
Proof.
  unfold await, awaitHead. intros ->.
  destruct (fetchBlockData api retryFuel h) as [d| |e|]; try discriminate.
  - set (st1 := mkLoop _ _ _ _ _ _ _ _ _). intros Hp.
    destruct (processBlock_effect api chainId endBlock callbackGiven st1 d)
      as (new & _ & _ & _ & _ & Hcur & Hqueue & Hdq & _).
    rewrite Hp in Hcur, Hqueue, Hdq. simpl in *. auto.
  - intros H. inversion H. simpl. auto.
Qed.

Lemma draining_turn st st' :
  draining st -> currentBlock st <= endBlock ->
  await (fill st) = Continue st' -> draining st'.
Proof.
  unfold draining, Log.draining. fold window.
  intros (Hdq & Hcur & Hshape) Hle Hawait.
  assert (Hlen : Z.of_nat (List.length (fetchQueue st)) <= concurrency).
  { unfold window, Log.window in Hshape. destruct Hshape as [[-> _]|[-> _]]; simpl; lia. }
  destruct (fill_length st Hlen Hcur) as [Hfl Hnext].
  destruct (fillQueue_fields endBlock concurrency st) as (_ & _ & _ & _ & _ & _ & Hd).
  fold fill in Hd.
  assert (Hfull : Z.of_nat (List.length (fetchQueue (fill st))) = window).
  { rewrite Hfl. unfold window, Log.window in *.
    destruct Hshape as [[-> ->]|[-> Hge]]; simpl; lia. }
  assert (Hbound : currentBlock (fill st) <= endBlock + 1).
  { unfold fill, fillQueue.
    pose proof (fillLoop_bounds (Z.to_nat (endBlock + 1 - currentBlock st))
                                (fetchQueue st) (currentBlock st) Hlen Hcur) as [_ Hb].
    destruct (fillLoop endBlock concurrency _ (fetchQueue st) (currentBlock st)).
    exact Hb. }
  destruct (fetchQueue (fill st)) as [|h rest] eqn:E.
  { simpl in Hfull. unfold window, Log.window in Hfull. lia. }
  destruct (await_takes_head _ _ _ _ E Hawait) as (Hq' & Hc' & Hd').
  unfold draining, Log.draining, nextUp in *. rewrite Hq', Hc', Hd', Hd, length_app.
  simpl List.length in *. split; [lia|]. split; [lia|]. right. split; [lia|].
  destruct Hshape as [[Hq0 Hc0]|[Hl Hge]].
  - rewrite Hq0 in *. simpl in *. lia.
  - lia.
Qed.

Lemma draining_run fuel : forall st st',
  Inv st -> draining st ->
  run api retryFuel chainId endBlock concurrency callbackGiven fuel st = Completed st' ->
  Inv st' /\ draining st' /\ endBlock < currentBlock st'.
Proof.
  induction fuel as [|fuel IH]; intros st st' HI HD; [discriminate|].
  cbn [run]. destruct (Z.leb_spec (currentBlock st) endBlock) as [Hle|Hgt].
  - unfold turn. fold fill. fold await.
    destruct (await (fill st)) as [st1|e st1|st1] eqn:Hawait; try discriminate.
    apply IH.
    + pose proof (invariant_await api retryFuel chainId endBlock callbackGiven
                                  (fill st)) as H.
      fold await in H. rewrite Hawait in H. apply H.
      now apply invariant_fill.
    + now apply (draining_turn st).
  - intros H. inversion H. subst. auto.
Qed.

(** A run that completes over [n] heights with a window of [c] fetches
    has taken the first [max 1 (n - c + 1)] heights off the queue; the
    fetches of the heights after them were started and are left in the
    queue. *)
Lemma completed_run_stops_short store fuel st' :
  run api retryFuel chainId endBlock concurrency callbackGiven fuel
      (initialState chainId store startBlock) = Completed st' ->
  dequeued st' = upto startBlock (Z.to_nat (endBlock + 2 - startBlock - window)) /\
  fetchQueue st' = upto (endBlock + 2 - window) (Z.to_nat (window - 1)).
Proof.
  intros Hrun.
  destruct (draining_run fuel (initialState chainId store startBlock) st') as (HI & HD & Hgt).
  - apply invariant_initial.
  - unfold draining, Log.draining, nextUp. simpl. split; [lia|]. split; [lia|]. left. split; reflexivity.
  - exact Hrun.
  - unfold draining, Log.draining in HD. fold window in HD.
    destruct HD as (Hdq & Hcur & Hshape).
    destruct Hshape as [[_ Hc]|[Hlen Hge]]; [lia|].
    assert (Hnext : nextUp st' = endBlock + 2 - window) by (unfold nextUp; lia).
    destruct HI as [Hq _ _ _ _ [n Hn] _ _ _]. split.
    + rewrite Hn in Hdq |- *. rewrite upto_length in Hdq. rewrite Hnext in *.
      replace (Z.to_nat (endBlock + 2 - startBlock - window)) with n by lia.
      f_equal. lia.
    + rewrite Hq, Hnext. f_equal. lia.
Qed.

End Drain.


(** *** Pruned heights and the progress callback *)

Section Skips.
Variable api : ChainApi.
Variable retryFuel : nat.
Variable chainId : Z.
Variable endBlock : Z.
Variable callbackGiven : bool.

(** A fetch that ends with an error of the pruned-state class gives
    [null]. *)
Lemma pruned_fetch_is_null h error slept :
  Retry.retryOnNetworkError (blockAt api h) retryFuel = Retry.Threw error slept ->
  Retry.isStatePrunedError error = true ->
  fetchBlockData api retryFuel h = FetchedNull.
Proof. unfold fetchBlockData. now intros -> ->. Qed.

(** The turn of a pruned height: it is taken off the queue and nothing
    else changes; the loop goes back to its head. *)
Lemma pruned_height_skipped st h rest :
  fetchQueue st = h :: rest ->
  fetchBlockData api retryFuel h = FetchedNull ->
  awaitHead api retryFuel chainId endBlock callbackGiven st =
    Continue (mkLoop (currentBlock st) rest
                     (blocksIndexed st) (extrinsicsIndexed st) (eventsIndexed st)
                     (db st) (writes st) (callbacks st) (dequeued st ++ [h])).
Proof. unfold awaitHead. now intros -> ->. Qed.

(** The turn of a height that is indexed: one callback, with the height,
    the counters as they are after it, and the length of the queue. *)
Lemma indexed_height_reported st h rest d st' :
  fetchQueue st = h :: rest ->
  fetchBlockData api retryFuel h = FetchedData d ->
  awaitHead api retryFuel chainId endBlock true st = Continue st' ->
  callbacks st' =
    callbacks st ++
      [Progress.mk h (blocksIndexed st') (extrinsicsIndexed st') (eventsIndexed st')
                   (Z.of_nat (List.length rest))] /\
  blocksIndexed st' = blocksIndexed st + 1 /\
  dequeued st' = dequeued st ++ [h].
Proof.
  intros Hq Hfetch. unfold awaitHead. rewrite Hq, Hfetch.
  set (st1 := mkLoop _ _ _ _ _ _ _ _ _). intros Hp.
  pose proof (fetchBlockData_blockNum _ _ _ _ Hfetch) as Hnum.
  destruct (processBlock_effect api chainId endBlock true st1 d)
    as (new & _ & _ & _ & _ & _ & _ & Hdq & Hcase).
  rewrite Hp in Hdq, Hcase. simpl in Hdq. destruct Hcase as (_ & _ & Hcb).
  rewrite Hnum in Hcb. split; [exact Hcb|]. split; [|exact Hdq].
  unfold processBlock in Hp. destruct (normalize chainId d) as [docs|e]; [|discriminate].
  destruct (persist (db st1) docs) as [s [e|]]; [discriminate|].
  inversion Hp. reflexivity.
Qed.

End Skips.

(** C9, as stated, fails: the run takes the pruned height 0 off the queue
    and completes without a single call of the callback. *)
Lemma pruned_height_is_not_reported :
  exists st,
    index Examples.prunedAtZero 1 1 Examples.onlyZero Db.emptyStore 5 = Completed st /\
    dequeued st = [0] /\
    fetchBlockData Examples.prunedAtZero 1 0 = FetchedNull /\
    callbacks st = [].
Proof. eexists. repeat split. Qed.

(** C9 (amended): when a callback is supplied, it is called exactly once
    for every height that is indexed (closed by its progress update),
    in the order of the heights, with that height, the cumulative counters
    as they are after it and the number of fetches still in the queue; for
    a height skipped as pruned it is not called. *)
Theorem callback_once_per_indexed_height
        api retryFuel chainId endBlock concurrency store startBlock s :
  reachable api retryFuel chainId endBlock concurrency true
            (start chainId store startBlock) s ->
  reported (callbacks (loop s)) = progressed (writes (loop s)) /\
  StronglySorted Z.lt (reported (callbacks (loop s))) /\
  (forall h, fetchBlockData api retryFuel h = FetchedNull ->
             ~ In h (reported (callbacks (loop s)))) /\
  (forall st h rest d st',
     fetchQueue st = h :: rest ->
     fetchBlockData api retryFuel h = FetchedData d ->
     awaitHead api retryFuel chainId endBlock true st = Continue st' ->
     callbacks st' =
       callbacks st ++
         [Progress.mk h (blocksIndexed st') (extrinsicsIndexed st') (eventsIndexed st')
                      (Z.of_nat (List.length rest))]) /\
  (forall st h rest,
     fetchQueue st = h :: rest ->
     fetchBlockData api retryFuel h = FetchedNull ->
     exists st',
       awaitHead api retryFuel chainId endBlock true st = Continue st' /\
       callbacks st' = callbacks st /\ dequeued st' = dequeued st ++ [h]).
Proof.
  intros Hreach.
  destruct (reachable_invariant _ _ _ _ _ _ _ _ _ Hreach) as [HI _].
  destruct HI as [_ _ _ _ _ _ Hr Hp Hf]. specialize (Hr eq_refl).
  split; [exact Hr|]. split; [now rewrite Hr|]. split.
  { intros h Hnull Hin. rewrite Hr in Hin. destruct (Hf h Hin) as [d Hd].
    rewrite Hd in Hnull. discriminate. }
  split.
  - intros st h rest d st' Hq Hfetch Hawait.
    now destruct (indexed_height_reported _ _ _ _ _ _ _ _ _ Hq Hfetch Hawait).
  - intros st h rest Hq Hnull. eexists.
    split; [apply (pruned_height_skipped _ _ _ _ _ st h rest Hq Hnull)|].
    split; reflexivity.
Qed.

(** The theorem on the schedule of the earlier example: heights 0 and 1
    are indexed, and reported once each. *)
Lemma callback_once_per_indexed_height_example :
  reported (callbacks (loop Examples.sched7)) = [0; 1] /\
  reported (callbacks (loop Examples.sched7)) =
    progressed (writes (loop Examples.sched7)).
Proof.
  split; [reflexivity|].
  apply (callback_once_per_indexed_height Examples.healthyNode 1 1 2 2
                                          Db.emptyStore 0 Examples.sched7).
  exact sched7_reachable.
Defined.

(** C4, on a run over heights 0 and 1 with two fetches in flight and
    height 0 pruned: the skip leaves the store, the counters and the
    callbacks alone, and then the run completes with height 1 fetched,
    still in the queue, and never indexed. *)
Theorem pruned_skip_then_early_exit :
  exists st,
    index Examples.prunedAtZero 1 1 Examples.zeroAndOne Db.emptyStore 10 = Completed st /\
    fetchBlockData Examples.prunedAtZero 1 0 = FetchedNull /\
    dequeued st = [0] /\
    db st = Db.emptyStore /\ writes st = [] /\ callbacks st = [] /\
    blocksIndexed st = 0 /\ extrinsicsIndexed st = 0 /\ eventsIndexed st = 0 /\
    fetchQueue st = [1] /\
    exists d, fetchBlockData Examples.prunedAtZero 1 1 = FetchedData d.
Proof.
  eexists. repeat split. eexists. reflexivity.
Qed.

End IndexerFacts.

(** * Further properties *)

(** ** The retry loop *)

Module BackoffFacts.
Import Retry Backoff Indexer.

Lemma pow_ge_1 m (i : nat) : 1 <= m -> 1 <= m ^ Z.of_nat i.
Proof.
  intros Hm. induction i as [|i IH].
  - simpl. lia.
  - rewrite Nat2Z.inj_succ, Z.pow_succ_r by lia. nia.
Qed.

(** Capping before scaling by a factor of at least 1 changes nothing under
    the cap. *)
Lemma min_scale x p D :
  1 <= p -> 0 <= D -> Z.min (Z.min x D * p) D = Z.min (x * p) D.
Proof. intros Hp HD. destruct (Z.min_spec x D) as [[? ->]|[? ->]]; nia. Qed.

Section Delays.
Context {A : Type}.
Variable fn : nat -> Outcome A.
Variable opts : RetryOptions.
Hypothesis multiplier_ge_1 : 1 <= backoffMultiplier opts.
Hypothesis cap_nonneg : 0 <= maxDelay opts.

Let capped (delay : Z) (i : nat) : Z :=
  Z.min (delay * backoffMultiplier opts ^ Z.of_nat i) (maxDelay opts).

Lemma capped_next delay i :
  capped (Z.min (delay * backoffMultiplier opts) (maxDelay opts)) i =
  capped delay (S i).
Proof.
  unfold capped. rewrite min_scale by (auto using pow_ge_1).
  rewrite Nat2Z.inj_succ, Z.pow_succ_r by lia. f_equal. ring.
Qed.

Lemma retryLoop_delays fuel : forall calls attempt delay slept,
  exists r,
    sleptOf (retryLoop fn opts fuel calls attempt delay slept) =
    slept ++ map (capped delay) (seq 0 r).
Proof.
  induction fuel as [|fuel IH]; intros calls attempt delay slept; simpl.
  - exists O. simpl. now rewrite app_nil_r.
  - destruct (fn calls) as [a|e]; [exists O; simpl; now rewrite app_nil_r|].
    destruct (shouldRetry opts e); simpl;
      [|exists O; simpl; now rewrite app_nil_r].
    destruct (attemptsExceeded (attempt + 1) opts);
      [exists O; simpl; now rewrite app_nil_r|].
    destruct (IH (S calls) (attempt + 1)
                 (Z.min (delay * backoffMultiplier opts) (maxDelay opts))
                 (slept ++ [Z.min delay (maxDelay opts)])) as [r Hr].
    exists (S r). rewrite Hr, <- app_assoc. f_equal.
    cbn [seq map app]. f_equal.
    + unfold capped. simpl. now rewrite Z.mul_1_r.
    + rewrite <- seq_shift, map_map. apply map_ext. intros i. apply capped_next.
Qed.

End Delays.

(** *** Products on doubles *)

Lemma round_exact x : Z.abs x < Double.exactUpTo -> Double.round x = x.
Proof.
  intros H. unfold Double.round. apply Z.ltb_lt in H. now rewrite H.
Qed.

(** A product that leaves the exact range is rounded to a double that is
    not below [2 ^ 53]. *)
Lemma round_large x : Double.exactUpTo <= x -> Double.exactUpTo <= Double.round x.
Proof.
  unfold Double.round, Double.exactUpTo. intros Hx.
  assert (Hpos : 0 < x) by (assert (0 < 2 ^ 53) by (apply Z.pow_pos_nonneg; lia); lia).
  rewrite Z.abs_eq by lia. rewrite Z.sgn_pos by exact Hpos.
  destruct (Z.ltb_spec x (2 ^ 53)) as [Hlt|_]; [lia|].
  assert (Hlog : 53 <= Z.log2 x).
  { rewrite <- (Z.log2_pow2 53) by lia. now apply Z.log2_le_mono. }
  set (e := Z.log2 x - 52).
  assert (He : 1 <= e) by (unfold e; lia).
  destruct (Z.log2_spec x Hpos) as [Hlow _].
  assert (Hsplit : 2 ^ Z.log2 x = 2 ^ 52 * 2 ^ e).
  { rewrite <- Z.pow_add_r by lia. f_equal. unfold e. lia. }
  assert (Hpe : 2 <= 2 ^ e).
  { change 2 with (2 ^ 1) at 1. apply Z.pow_le_mono_r; lia. }
  assert (Hq : 2 ^ 52 <= x / 2 ^ e).
  { apply Z.div_le_lower_bound; [lia|]. rewrite Z.mul_comm, <- Hsplit. exact Hlow. }
  set (q := x / 2 ^ e) in *.
  assert (H52 : 0 < 2 ^ 52) by (apply Z.pow_pos_nonneg; lia).
  assert (H53 : 2 ^ 53 = 2 ^ 52 * 2) by reflexivity.
  assert (Hany : forall q', q <= q' -> 2 ^ 53 <= 1 * (q' * 2 ^ e)).
  { intros q' Hq'. rewrite H53, Z.mul_1_l.
    apply Z.mul_le_mono_nonneg; lia. }
  destruct (x mod 2 ^ e <? 2 ^ (e - 1)); [apply Hany; lia|].
  destruct (2 ^ (e - 1) <? x mod 2 ^ e); [apply Hany; lia|].
  destruct (Z.even q); apply Hany; lia.
Qed.

(** Under a cap that a double holds exactly, rounding the product does
    not show. *)
Lemma min_round x D :
  0 <= x -> D <= Double.exactUpTo -> Z.min (Double.round x) D = Z.min x D.
Proof.
  intros Hx HD. destruct (Z.lt_ge_cases x Double.exactUpTo) as [Hlt|Hge].
  - rewrite round_exact; [reflexivity|]. rewrite Z.abs_eq; assumption.
  - pose proof (round_large x Hge). lia.
Qed.

Section DoubleDelays.
Variable opts : RetryOptions.
Hypothesis multiplier_ge_1 : 1 <= backoffMultiplier opts.
Hypothesis initial_nonneg : 0 <= initialDelay opts.
Hypothesis cap_held : Double.holds (maxDelay opts).

Lemma delayVariable_nonneg i : 0 <= delayVariable opts i.
Proof.
  destruct cap_held as [HD0 HD]. induction i as [|i IH]; simpl; [exact initial_nonneg|].
  unfold Double.mul. rewrite min_round; [|nia|exact HD].
  apply Z.min_glb; [nia|exact HD0].
Qed.

Lemma nextDelay_closed_form i : nextDelay opts i = backoffDelay opts i.
Proof.
  destruct cap_held as [HD0 HD]. unfold nextDelay, backoffDelay.
  induction i as [|i IH].
  - simpl. now rewrite Z.mul_1_r.
  - cbn [delayVariable]. unfold Double.mul.
    pose proof (delayVariable_nonneg i) as Hnn.
    rewrite min_round; [|nia|exact HD].
    rewrite <- Z.min_assoc, Z.min_id.
    rewrite <- (min_scale (delayVariable opts i)) by lia.
    rewrite IH, min_scale by (auto using pow_ge_1).
    rewrite Nat2Z.inj_succ, Z.pow_succ_r by lia. f_equal. ring.
Qed.

End DoubleDelays.

(** X1: for options that are integers a double holds exactly (at most
    [2 ^ 53]), a multiplier of at least 1 and delays that are not
    negative, the delays slept by [retryWithBackoff] are, in order,
    [min (initialDelay * multiplier ^ i) maxDelay] for i = 0, 1, 2, ...;
    they are the values the code computes with its products on doubles,
    because a product is either exact or at least [2 ^ 53] and then cut
    to the cap. *)
Theorem backoff_delays_closed_form {A} (fn : nat -> Outcome A) opts fuel :
  1 <= backoffMultiplier opts ->
  Double.holds (backoffMultiplier opts) ->
  Double.holds (initialDelay opts) ->
  Double.holds (maxDelay opts) ->
  let slept := sleptOf (retryWithBackoff fn opts fuel) in
  slept = map (backoffDelay opts) (seq 0 (List.length slept)) /\
  slept = map (nextDelay opts) (seq 0 (List.length slept)).
Proof.
  intros Hm _ Hinit HD slept. subst slept. unfold retryWithBackoff.
  destruct (retryLoop_delays fn opts Hm (proj1 HD) fuel O 0 (initialDelay opts) [])
    as [r Hr].
  assert (Hclosed : sleptOf (retryLoop fn opts fuel 0 0 (initialDelay opts) []) =
                    map (backoffDelay opts)
                        (seq 0 (List.length
                                  (sleptOf (retryLoop fn opts fuel 0 0 (initialDelay opts) []))))).
  { rewrite Hr. simpl. rewrite length_map, length_seq. reflexivity. }
  split; [exact Hclosed|].
  rewrite Hclosed at 1. apply map_ext. intros i. symmetry.
  apply nextDelay_closed_form; [exact Hm|exact (proj1 Hinit)|exact HD].
Qed.

(** The theorem with the default options on an operation that fails seven
    times: the delays double from one second up to the cap of a minute. *)
Lemma backoff_delays_closed_form_example :
  sleptOf (retryWithBackoff MoreExamples.seventhTimeLucky DEFAULT_RETRY_OPTIONS 10) =
    [1000; 2000; 4000; 8000; 16000; 32000; 60000].
Proof.
  destruct (backoff_delays_closed_form MoreExamples.seventhTimeLucky
              DEFAULT_RETRY_OPTIONS 10) as [H _].
  - simpl. lia.
  - unfold Double.holds, Double.exactUpTo. simpl. lia.
  - unfold Double.holds, Double.exactUpTo. simpl. lia.
  - unfold Double.holds, Double.exactUpTo. simpl. lia.
  - rewrite H. reflexivity.
Defined.

(** *** A limit on the attempts *)

Lemma retryLoop_bounded {A} (fn : nat -> Outcome A) opts n fuel :
  maxAttempts opts = Some n ->
  forall calls attempt delay slept,
    n - attempt <= Z.of_nat fuel -> (1 <= fuel)%nat ->
    settledAs (retryLoop fn opts fuel calls attempt delay slept) <> None /\
    Z.of_nat (List.length (sleptOf (retryLoop fn opts fuel calls attempt delay slept)))
      <= Z.of_nat (List.length slept) + Z.max 0 (n - attempt - 1).
Proof.
  intros Hmax. induction fuel as [|fuel IH]; intros calls attempt delay slept Hn Hf;
    [lia|].
  simpl. destruct (fn calls) as [a|e]; [simpl; split; [discriminate|lia]|].
  destruct (shouldRetry opts e); simpl; [|split; [discriminate|lia]].
  unfold attemptsExceeded. rewrite Hmax.
  destruct (Z.leb_spec n (attempt + 1)); [simpl; split; [discriminate|lia]|].
  destruct (IH (S calls) (attempt + 1)
               (Z.min (delay * backoffMultiplier opts) (maxDelay opts))
               (slept ++ [Z.min delay (maxDelay opts)])) as [Hs Hl]; [lia|lia|].
  split; [exact Hs|]. rewrite length_app in Hl. simpl in Hl. lia.
Qed.

(** X2: with [maxAttempts = n] the loop ends once it has as many turns as
    attempts allowed (and at least one): it returns or throws, and it has
    slept at most [n - 1] times, that is, called the operation at most
    [max 1 n] times. *)
Theorem retry_gives_up_after_max_attempts {A} (fn : nat -> Outcome A) opts n fuel :
  maxAttempts opts = Some n ->
  n <= Z.of_nat fuel -> (1 <= fuel)%nat ->
  settledAs (retryWithBackoff fn opts fuel) <> None /\
  Z.of_nat (List.length (sleptOf (retryWithBackoff fn opts fuel))) <= Z.max 0 (n - 1).
Proof.
  intros Hmax Hn Hf. unfold retryWithBackoff.
  destruct (retryLoop_bounded fn opts n fuel Hmax O 0 (initialDelay opts) [])
    as [Hs Hl]; [lia|assumption|].
  split; [exact Hs|]. simpl in Hl. lia.
Qed.

(** The theorem with three attempts on an operation that never gets
    through: the third error is thrown after two sleeps. *)
Lemma retry_gives_up_after_max_attempts_example :
  retryWithBackoff MoreExamples.alwaysRefused MoreExamples.threeAttempts 3 =
    Threw MoreExamples.connectionRefused [1000; 2000] /\
  settledAs (retryWithBackoff MoreExamples.alwaysRefused MoreExamples.threeAttempts 3)
    <> None.
Proof.
  split; [reflexivity|].
  apply (retry_gives_up_after_max_attempts MoreExamples.alwaysRefused
           MoreExamples.threeAttempts 3 3); [reflexivity|lia|lia].
Defined.

(** *** The attempt that decides *)

Lemma retryLoop_decides {A} (fn : nat -> Outcome A) opts r :
  forall fuel calls delay slept,
    (forall j, (calls <= j < calls + r)%nat ->
               exists e, fn j = Rejected e /\ shouldRetry opts e = true) ->
    withinAttempts opts (calls + r) ->
    decisive fn opts (calls + r)%nat ->
    (r < fuel)%nat ->
    settledAs (retryLoop fn opts fuel calls (Z.of_nat calls) delay slept) =
      Some (fn (calls + r)%nat) /\
    List.length (sleptOf (retryLoop fn opts fuel calls (Z.of_nat calls) delay slept)) =
      (List.length slept + r)%nat.
Proof.
  induction r as [|r IH]; intros fuel calls delay slept Hretry Hwithin Hdec Hfuel.
  - rewrite Nat.add_0_r in *. destruct fuel as [|fuel]; [lia|]. simpl.
    unfold decisive in Hdec. destruct (fn calls) as [a|e]; [now split|].
    rewrite Hdec. simpl. now split.
  - destruct fuel as [|fuel]; [lia|]. simpl.
    destruct (Hretry calls ltac:(lia)) as (e & -> & ->). simpl.
    assert (Hnot : attemptsExceeded (Z.of_nat calls + 1) opts = false).
    { unfold attemptsExceeded, withinAttempts in *.
      destruct (maxAttempts opts) as [n|]; [|reflexivity]. apply Z.leb_gt. lia. }
    rewrite Hnot.
    replace (Z.of_nat calls + 1) with (Z.of_nat (S calls)) by lia.
    replace (calls + S r)%nat with (S calls + r)%nat in * by lia.
    destruct (IH fuel (S calls)
                 (Z.min (delay * backoffMultiplier opts) (maxDelay opts))
                 (slept ++ [Z.min delay (maxDelay opts)])) as [Hs Hl].
    + intros j Hj. apply Hretry. lia.
    + exact Hwithin.
    + exact Hdec.
    + lia.
    + split; [exact Hs|]. rewrite Hl, length_app. simpl. lia.
Qed.

(** X3: when the attempts before number [k] all fail with errors that
    [shouldRetry] accepts, attempt [k] is within [maxAttempts], and
    attempt [k] resolves or fails with an error that [shouldRetry]
    refuses, the loop settles as attempt [k] does, value or error, after
    exactly [k] sleeps. *)
Theorem retry_settles_as_first_decisive_attempt {A} (fn : nat -> Outcome A) opts k fuel :
  retryableBefore fn opts k ->
  withinAttempts opts k ->
  decisive fn opts k ->
  (k < fuel)%nat ->
  settledAs (retryWithBackoff fn opts fuel) = Some (fn k) /\
  List.length (sleptOf (retryWithBackoff fn opts fuel)) = k.
Proof.
  intros Hretry Hwithin Hdec Hfuel. unfold retryWithBackoff.
  apply (retryLoop_decides fn opts k fuel O (initialDelay opts) []);
    try assumption.
  intros j Hj. apply Hretry. lia.
Qed.

(** The theorem on an operation refused twice and then rejected with an
    error that is not a network error: that error is thrown after two
    sleeps of a minute. *)
Lemma retry_settles_as_first_decisive_attempt_example :
  settledAs (retryOnNetworkError MoreExamples.refusedThenInvalid 5) =
    Some (Rejected MoreExamples.badRequest) /\
  List.length (sleptOf (retryOnNetworkError MoreExamples.refusedThenInvalid 5)) = 2%nat.
Proof.
  apply (retry_settles_as_first_decisive_attempt MoreExamples.refusedThenInvalid
           networkRetryOptions 2 5).
  - intros j Hj. exists MoreExamples.connectionRefused.
    destruct j as [|[|j]]; [split; reflexivity|split; reflexivity|lia].
  - exact I.
  - reflexivity.
  - lia.
Defined.

(** *** Network errors are retried for ever *)

Lemma retryLoop_network_never_ends {A} (fn : nat -> Outcome A) fuel :
  (forall j, exists e, fn j = Rejected e /\ isNetworkError e = true) ->
  forall calls attempt slept,
    retryLoop fn networkRetryOptions fuel calls attempt 60000 slept =
      StillRetrying (slept ++ repeat 60000 fuel).
Proof.
  intros Hall. induction fuel as [|fuel IH]; intros calls attempt slept; simpl.
  - now rewrite app_nil_r.
  - destruct (Hall calls) as (e & -> & Hnet). rewrite Hnet. simpl.
    rewrite IH, <- app_assoc. reflexivity.
Qed.

(** X4: while every attempt fails with a network error,
    [retryOnNetworkError] neither returns nor throws, however many
    attempts it is given; it sleeps one minute after each attempt, and the
    promise of [fetchBlockData] for that height does not settle. *)
Theorem network_errors_are_retried_for_ever api h :
  (forall j, exists e, blockAt api h j = Rejected e /\ isNetworkError e = true) ->
  forall retryFuel,
    retryOnNetworkError (blockAt api h) retryFuel =
      StillRetrying (repeat 60000 retryFuel) /\
    fetchBlockData api retryFuel h = FetchPending.
Proof.
  intros Hall retryFuel.
  assert (H : retryOnNetworkError (blockAt api h) retryFuel =
              StillRetrying (repeat 60000 retryFuel)).
  { unfold retryOnNetworkError, retryWithBackoff.
    apply (retryLoop_network_never_ends (blockAt api h) retryFuel Hall O 0 []). }
  split; [exact H|]. unfold fetchBlockData. now rewrite H.
Qed.

(** The theorem on a node that refuses every connection. *)
Lemma network_errors_are_retried_for_ever_example :
  retryOnNetworkError (blockAt MoreExamples.unreachableNode 5) 100 =
    StillRetrying (repeat 60000 100) /\
  fetchBlockData MoreExamples.unreachableNode 100 5 = FetchPending.
Proof.
  apply (network_errors_are_retried_for_ever MoreExamples.unreachableNode 5).
  intros j. exists MoreExamples.connectionRefused. split; reflexivity.
Defined.

End BackoffFacts.

(** ** The store *)

Module DbFacts.
Import Db Keys.

Lemma distinct_snoc {D} (conflicts : D -> D -> bool) coll doc :
  distinct conflicts coll ->
  existsb (conflicts doc) coll = false ->
  distinct conflicts (coll ++ [doc]).
Proof.
  unfold distinct. intros Hd Hnew.
  induction Hd as [|a coll Hcoll IH Ha]; simpl.
  - repeat constructor.
  - simpl in Hnew. apply orb_false_iff in Hnew. destruct Hnew as [Hda Hrest].
    constructor; [now apply IH|].
    apply Forall_app. split; [assumption|]. repeat constructor. exact Hda.
Qed.

Lemma insertOne_spec {D} (conflicts : D -> D -> bool) coll doc :
  (existsb (conflicts doc) coll = true /\
   insertOne conflicts coll doc = (coll, Some duplicateKeyError)) \/
  (existsb (conflicts doc) coll = false /\
   insertOne conflicts coll doc = (coll ++ [doc], None)).
Proof. unfold insertOne. destruct (existsb (conflicts doc) coll); auto. Qed.

(** X5: under a unique index, an ordered [insertMany] writes a prefix of
    the batch after the documents already there, which are all kept: the
    whole batch when it reports no error; otherwise it stops at the first
    document that conflicts with what the collection then holds, and
    reports the duplicate key. The index still holds afterwards. *)
Theorem insertMany_writes_a_prefix {D} (conflicts : D -> D -> bool) docs : forall coll,
  distinct conflicts coll ->
  exists written rest,
    docs = written ++ rest /\
    fst (insertMany conflicts coll docs) = coll ++ written /\
    distinct conflicts (coll ++ written) /\
    match snd (insertMany conflicts coll docs) with
    | None => rest = []
    | Some e =>
        e = duplicateKeyError /\
        exists doc rest', rest = doc :: rest' /\
                          existsb (conflicts doc) (coll ++ written) = true
    end.
Proof.
  induction docs as [|doc docs IH]; intros coll Hd; simpl.
  - exists [], []. rewrite !app_nil_r. repeat split; assumption.
  - destruct (insertOne_spec conflicts coll doc) as [[Hdup ->]|[Hnew ->]].
    + exists [], (doc :: docs). rewrite !app_nil_r. simpl.
      repeat split; try assumption. exists doc, docs. now split.
    + destruct (IH (coll ++ [doc]) (distinct_snoc _ _ _ Hd Hnew))
        as (written & rest & -> & Hfst & Hdist & Hsnd).
      exists (doc :: written), rest. rewrite <- app_assoc in *. simpl in *.
      repeat split; assumption.
Qed.

(** The theorem on a batch whose third document repeats the position of
    the first: two documents are written, the third is refused. *)
Lemma insertMany_writes_a_prefix_example :
  exists written rest,
    [MoreExamples.txDoc 0 "0xa"; MoreExamples.txDoc 1 "0xb"; MoreExamples.txDoc 0 "0xc"]
      = written ++ rest /\
    fst (insertMany extrinsicConflicts []
           [MoreExamples.txDoc 0 "0xa"; MoreExamples.txDoc 1 "0xb";
            MoreExamples.txDoc 0 "0xc"]) = [] ++ written /\
    List.length written = 2%nat.
Proof.
  destruct (insertMany_writes_a_prefix extrinsicConflicts
              [MoreExamples.txDoc 0 "0xa"; MoreExamples.txDoc 1 "0xb";
               MoreExamples.txDoc 0 "0xc"] [])
    as (written & rest & Hsplit & Hfst & _ & _); [constructor|].
  exists written, rest. split; [exact Hsplit|]. split; [exact Hfst|].
  simpl in Hfst. rewrite <- Hfst. reflexivity.
Defined.

Lemma find_upsert_other p coll c :
  c <> ScanProgressDocument.chainId p ->
  find (fun q => ScanProgressDocument.chainId q =? c) (upsertProgress p coll) =
  find (fun q => ScanProgressDocument.chainId q =? c) coll.
Proof.
  intros Hc. induction coll as [|q rest IH]; simpl.
  - destruct (Z.eqb_spec (ScanProgressDocument.chainId p) c); [congruence|reflexivity].
  - destruct (Z.eqb_spec (ScanProgressDocument.chainId q)
                         (ScanProgressDocument.chainId p)) as [E|E]; simpl.
    + rewrite E.
      destruct (Z.eqb_spec (ScanProgressDocument.chainId p) c); [congruence|reflexivity].
    + now rewrite IH.
Qed.

Lemma upsert_chainIds p coll x :
  In x (map ScanProgressDocument.chainId (upsertProgress p coll)) ->
  x = ScanProgressDocument.chainId p \/ In x (map ScanProgressDocument.chainId coll).
Proof.
  induction coll as [|q rest IH]; simpl.
  - intros [<-|[]]. now left.
  - destruct (Z.eqb_spec (ScanProgressDocument.chainId q)
                         (ScanProgressDocument.chainId p)) as [E|E]; simpl.
    + intros [<-|H]; [now left|right; now right].
    + intros [<-|H]; [right; now left|]. destruct (IH H); [now left|right; now right].
Qed.

Lemma upsert_NoDup p coll :
  NoDup (map ScanProgressDocument.chainId coll) ->
  NoDup (map ScanProgressDocument.chainId (upsertProgress p coll)).
Proof.
  induction coll as [|q rest IH]; simpl; intros Hnd.
  - repeat constructor. intros [].
  - inversion Hnd as [|? ? Hq Hrest]; subst.
    destruct (Z.eqb_spec (ScanProgressDocument.chainId q)
                         (ScanProgressDocument.chainId p)) as [E|E]; simpl.
    + rewrite <- E. now constructor.
    + constructor; [|now apply IH].
      intros Hin. apply upsert_chainIds in Hin. destruct Hin; [congruence|contradiction].
Qed.

(** X6: [updateScanProgress] followed by [getScanProgress] for the same
    chain gives the record written; the records of the other chains, and
    the blocks, extrinsics and events, are untouched; and the collection
    keeps at most one record per chain. *)
Theorem progress_upsert_roundtrip s p :
  oneProgressPerChain s ->
  getScanProgress (updateScanProgress s p) (ScanProgressDocument.chainId p) = Some p /\
  (forall c, c <> ScanProgressDocument.chainId p ->
             getScanProgress (updateScanProgress s p) c = getScanProgress s c) /\
  blocks (updateScanProgress s p) = blocks s /\
  extrinsics (updateScanProgress s p) = extrinsics s /\
  events (updateScanProgress s p) = events s /\
  oneProgressPerChain (updateScanProgress s p).
Proof.
  intros Hone. split; [apply IndexerFacts.getScanProgress_update|]. split.
  - intros c Hc. unfold getScanProgress, updateScanProgress. simpl.
    now apply find_upsert_other.
  - repeat split. unfold oneProgressPerChain, updateScanProgress. simpl.
    now apply upsert_NoDup.
Qed.

(** The theorem on a store with records for chains 1 and 2: writing the
    record of chain 1 leaves that of chain 2 as it was. *)
Lemma progress_upsert_roundtrip_example :
  getScanProgress
    (updateScanProgress MoreExamples.twoChains (Examples.progressAt 5)) 1 =
    Some (Examples.progressAt 5) /\
  getScanProgress
    (updateScanProgress MoreExamples.twoChains (Examples.progressAt 5)) 2 =
    getScanProgress MoreExamples.twoChains 2.
Proof.
  destruct (progress_upsert_roundtrip MoreExamples.twoChains (Examples.progressAt 5))
    as (Hget & Hother & _).
  - unfold oneProgressPerChain. simpl. repeat constructor; simpl; intuition lia.
  - split; [exact Hget|]. apply Hother. simpl. lia.
Defined.

End DbFacts.

(** ** The documents of a height and their inserts *)

Module PersistFacts.
Import Db Keys Normalize Indexer Fresh Log.

Lemma insertMany_success {D} (conflicts : D -> D -> bool) docs : forall coll,
  snd (insertMany conflicts coll docs) = None ->
  fst (insertMany conflicts coll docs) = coll ++ docs.
Proof.
  induction docs as [|doc docs IH]; intros coll; simpl.
  - now rewrite app_nil_r.
  - destruct (DbFacts.insertOne_spec conflicts coll doc) as [[_ ->]|[_ ->]];
      [discriminate|].
    intros H. rewrite IH by assumption. now rewrite <- app_assoc.
Qed.

Lemma insertMany_fresh {D} (conflicts : D -> D -> bool) docs : forall coll,
  (forall doc old, In doc docs -> In old coll -> conflicts doc old = false) ->
  distinct conflicts docs ->
  insertMany conflicts coll docs = (coll ++ docs, None).
Proof.
  induction docs as [|doc docs IH]; intros coll Hcoll Hdocs; simpl.
  - now rewrite app_nil_r.
  - unfold insertOne.
    assert (Hnew : existsb (conflicts doc) coll = false).
    { apply not_true_is_false. intros H. apply existsb_exists in H.
      destruct H as (old & Hold & Hc). rewrite Hcoll in Hc; [discriminate|now left|assumption]. }
    rewrite Hnew. inversion Hdocs as [|? ? Hrest Hhead]; subst.
    rewrite IH; [now rewrite <- app_assoc| |assumption].
    intros doc' old Hdoc' Hold. apply in_app_or in Hold. destruct Hold as [Hold|[<-|[]]].
    + apply Hcoll; [now right|assumption].
    + rewrite Forall_forall in Hhead. now apply Hhead.
Qed.

Lemma insertMany_replay {D} (conflicts : D -> D -> bool) docs coll :
  (forall doc, conflicts doc doc = true) ->
  docs <> [] ->
  insertMany conflicts (coll ++ docs) docs = (coll ++ docs, Some duplicateKeyError).
Proof.
  intros Hrefl Hne. destruct docs as [|doc docs]; [contradiction|]. simpl.
  unfold insertOne.
  assert (H : existsb (conflicts doc) (coll ++ doc :: docs) = true).
  { apply existsb_exists. exists doc. split; [|apply Hrefl].
    apply in_or_app. right. now left. }
  now rewrite H.
Qed.

(** *** Positions and counts *)

Lemma extrinsicDoc_fields chainId d index x doc :
  extrinsicDoc chainId d index x = Resolved doc ->
  ExtrinsicDocument.extrinsicIndex doc = index /\
  ExtrinsicDocument.chainId doc = chainId.
Proof.
  unfold extrinsicDoc.
  destruct (extrinsicStatus (allEvents d) index) as [success error].
  destruct (Extrinsic.isSigned x); [destruct (Extrinsic.nonce x) as [[n|e]|]|];
    intros H; inversion H; split; reflexivity.
Qed.

Lemma extrinsicDocsFrom_positions chainId d xs : forall index docs,
  extrinsicDocsFrom chainId d index xs = Resolved docs ->
  map ExtrinsicDocument.extrinsicIndex docs = upto index (List.length xs) /\
  Forall (fun doc => ExtrinsicDocument.chainId doc = chainId) docs.
Proof.
  induction xs as [|x rest IH]; intros index docs; simpl.
  - intros H. inversion H. split; [reflexivity|constructor].
  - destruct (extrinsicDoc chainId d index x) as [doc|e] eqn:Hdoc; [|discriminate].
    destruct (extrinsicDocsFrom chainId d (index + 1) rest) as [docs'|e] eqn:Hrest;
      [|discriminate].
    intros H. inversion H. subst.
    destruct (extrinsicDoc_fields _ _ _ _ _ Hdoc) as [Hi Hc].
    destruct (IH _ _ Hrest) as [Hmap Hall]. simpl. rewrite Hi, Hmap.
    split; [reflexivity|now constructor].
Qed.

Lemma eventDocsFrom_positions chainId d records : forall eventIndex,
  map EventDocument.eventIndex (eventDocsFrom chainId d eventIndex records) =
    upto eventIndex (List.length records) /\
  Forall (fun doc => EventDocument.chainId doc = chainId)
         (eventDocsFrom chainId d eventIndex records).
Proof.
  induction records as [|r rest IH]; intros eventIndex; simpl.
  - split; [reflexivity|constructor].
  - destruct (IH (eventIndex + 1)) as [Hmap Hall]. rewrite Hmap.
    split; [reflexivity|now constructor].
Qed.

(** Documents whose positions go up one by one do not conflict. *)
Lemma positions_distinct {D} (conflicts : D -> D -> bool) (position : D -> Z) docs :
  (forall new old, position new <> position old -> conflicts new old = false) ->
  forall from, map position docs = upto from (List.length docs) ->
  distinct conflicts docs.
Proof.
  intros Hconf. unfold distinct.
  induction docs as [|doc docs IH]; intros from Hpos; [constructor|].
  simpl in Hpos. injection Hpos as Hdoc Hrest. constructor; [now apply (IH (from + 1))|].
  apply Forall_forall. intros new Hnew. apply Hconf.
  assert (Hin : In (position new) (upto (from + 1) (List.length docs))).
  { rewrite <- Hrest. now apply in_map. }
  apply IndexerFacts.upto_In in Hin. lia.
Qed.

Lemma normalize_shape chainId d docs :
  normalize chainId d = Resolved docs ->
  theBlock docs = blockDoc chainId d /\
  map ExtrinsicDocument.extrinsicIndex (extrinsicDocs docs) =
    upto 0 (List.length (Normalize.extrinsics (signedBlock d))) /\
  map EventDocument.eventIndex (eventDocs docs) =
    upto 0 (List.length (allEvents d)) /\
  Forall (fun doc => ExtrinsicDocument.chainId doc = chainId) (extrinsicDocs docs) /\
  Forall (fun doc => EventDocument.chainId doc = chainId) (eventDocs docs).
Proof.
  unfold normalize.
  destruct (extrinsicDocsFrom chainId d 0 (Normalize.extrinsics (signedBlock d))) as [xdocs|e] eqn:E;
    [|discriminate].
  intros H. inversion H. subst. simpl.
  destruct (extrinsicDocsFrom_positions _ _ _ _ _ E) as [Hx Hxc].
  destruct (eventDocsFrom_positions chainId d (allEvents d) 0) as [He Hec].
  repeat split; assumption.
Qed.

(** X7: the documents prepared for a height carry their positions: the
    extrinsic documents have the indexes 0, 1, 2, ... in the order of the
    block, one per extrinsic, the event documents likewise, and the
    block document's [extrinsicCount] and [eventCount] are the numbers of
    documents in the two batches. *)
Theorem documents_are_numbered_and_counted chainId d docs :
  normalize chainId d = Resolved docs ->
  map ExtrinsicDocument.extrinsicIndex (extrinsicDocs docs) =
    upto 0 (List.length (extrinsicDocs docs)) /\
  map EventDocument.eventIndex (eventDocs docs) =
    upto 0 (List.length (eventDocs docs)) /\
  List.length (extrinsicDocs docs) = List.length (Normalize.extrinsics (signedBlock d)) /\
  List.length (eventDocs docs) = List.length (allEvents d) /\
  BlockDocument.extrinsicCount (theBlock docs) =
    Z.of_nat (List.length (extrinsicDocs docs)) /\
  BlockDocument.eventCount (theBlock docs) =
    Z.of_nat (List.length (eventDocs docs)).
Proof.
  intros Hnorm.
  destruct (normalize_shape _ _ _ Hnorm) as (Hb & Hx & He & _ & _).
  assert (Hlx : List.length (extrinsicDocs docs) = List.length (Normalize.extrinsics (signedBlock d))).
  { rewrite <- (length_map ExtrinsicDocument.extrinsicIndex), Hx.
    apply IndexerFacts.upto_length. }
  assert (Hle : List.length (eventDocs docs) = List.length (allEvents d)).
  { rewrite <- (length_map EventDocument.eventIndex), He.
    apply IndexerFacts.upto_length. }
  rewrite Hlx, Hle, Hb. repeat split; assumption.
Qed.

(** The theorem on height 3 with one extrinsic and two events. *)
Lemma documents_are_numbered_and_counted_example :
  exists docs,
    normalize 1 MoreExamples.blockThree = Resolved docs /\
    map EventDocument.eventIndex (eventDocs docs) = [0; 1] /\
    BlockDocument.eventCount (theBlock docs) = 2.
Proof.
  eexists. split; [reflexivity|].
  destruct (documents_are_numbered_and_counted 1 MoreExamples.blockThree _ eq_refl)
    as (_ & He & _ & _ & _ & Hc).
  split; [exact He|exact Hc].
Defined.

(** *** Inserting a height *)

Lemma persist_fresh chainId s d docs :
  normalize chainId d = Resolved docs ->
  freshFor s d ->
  persist s docs =
    (mkStore (Db.blocks s ++ [theBlock docs])
             (Db.extrinsics s ++ extrinsicDocs docs)
             (Db.events s ++ eventDocs docs)
             (Db.scanProgress s), None).
Proof.
  intros Hnorm (Hb & Hx & He).
  destruct (IndexerFacts.normalize_tagged _ _ _ Hnorm) as (Hnum & Hxn & Hen).
  destruct (normalize_shape _ _ _ Hnorm) as (Hblock & Hxi & Hei & _ & _).
  assert (Hlx : List.length (extrinsicDocs docs) = List.length (Normalize.extrinsics (signedBlock d))).
  { rewrite <- (length_map ExtrinsicDocument.extrinsicIndex), Hxi.
    apply IndexerFacts.upto_length. }
  assert (Hle : List.length (eventDocs docs) = List.length (allEvents d)).
  { rewrite <- (length_map EventDocument.eventIndex), Hei.
    apply IndexerFacts.upto_length. }
  unfold persist, insertOne.
  assert (Hnew : existsb (blockConflicts (theBlock docs)) (Db.blocks s) = false).
  { apply not_true_is_false. intros H. apply existsb_exists in H.
    destruct H as (b & Hin & Hc). destruct (Hb b Hin) as [Hn Hh].
    unfold blockConflicts in Hc. rewrite Hnum, Hblock in Hc. simpl in Hc.
    apply orb_true_iff in Hc. destruct Hc as [Hc|Hc].
    - apply Z.eqb_eq in Hc. contradiction.
    - apply String.eqb_eq in Hc. contradiction. }
  rewrite Hnew.
  rewrite (insertMany_fresh extrinsicConflicts (extrinsicDocs docs) (Db.extrinsics s)).
  - rewrite (insertMany_fresh eventConflicts (eventDocs docs) (Db.events s)).
    + destruct (extrinsicDocs docs), (eventDocs docs); simpl;
        rewrite ?app_nil_r; reflexivity.
    + intros doc old Hdoc Hold. unfold eventConflicts.
      rewrite Forall_forall in Hen. rewrite (Hen doc Hdoc).
      destruct (Z.eqb_spec (EventDocument.blockNumber old) (blockNum d)) as [E|_];
        [now apply He in Hold|reflexivity].
    + apply (positions_distinct eventConflicts EventDocument.eventIndex _) with (from := 0).
      * intros new old Hne. unfold eventConflicts.
        destruct (Z.eqb_spec (EventDocument.eventIndex old) (EventDocument.eventIndex new));
          [congruence|apply andb_false_r].
      * now rewrite Hle.
  - intros doc old Hdoc Hold. unfold extrinsicConflicts.
    rewrite Forall_forall in Hxn. rewrite (Hxn doc Hdoc).
    destruct (Z.eqb_spec (ExtrinsicDocument.blockNumber old) (blockNum d)) as [E|_];
      [now apply Hx in Hold|reflexivity].
  - apply (positions_distinct extrinsicConflicts ExtrinsicDocument.extrinsicIndex _)
      with (from := 0).
    + intros new old Hne. unfold extrinsicConflicts.
      destruct (Z.eqb_spec (ExtrinsicDocument.extrinsicIndex old)
                           (ExtrinsicDocument.extrinsicIndex new));
        [congruence|apply andb_false_r].
    + now rewrite Hlx.
Qed.

(** X8: when the store holds nothing for the height, nor a block with its
    hash, the three inserts of the documents prepared for it all succeed:
    the store gains exactly the block document and the two batches, in
    order, and the progress records are not touched. *)
Theorem persist_fresh_height chainId s d docs :
  normalize chainId d = Resolved docs ->
  freshFor s d ->
  persist s docs =
    (mkStore (Db.blocks s ++ [theBlock docs])
             (Db.extrinsics s ++ extrinsicDocs docs)
             (Db.events s ++ eventDocs docs)
             (Db.scanProgress s), None).
Proof. apply persist_fresh. Qed.

(** The theorem on height 3 and the store of the gap example, which holds
    heights 0, 1, 2, 5, 6 and 9. *)
Lemma persist_fresh_height_example :
  exists docs,
    normalize 1 MoreExamples.blockThree = Resolved docs /\
    snd (persist Examples.gapStore docs) = None /\
    List.length (Db.blocks (fst (persist Examples.gapStore docs))) = 7%nat.
Proof.
  eexists. split; [reflexivity|].
  rewrite (persist_fresh_height 1 Examples.gapStore MoreExamples.blockThree _ eq_refl).
  - split; reflexivity.
  - unfold freshFor. split; [|split; intros x []].
    intros b Hin. simpl in Hin.
    repeat (destruct Hin as [<-|Hin]; [split; simpl; [lia|discriminate]|]).
    contradiction.
Defined.

(** Three inserts that all succeed add exactly the documents. *)
Lemma persist_success_shape s docs s' :
  persist s docs = (s', None) ->
  s' = mkStore (Db.blocks s ++ [theBlock docs])
               (Db.extrinsics s ++ extrinsicDocs docs)
               (Db.events s ++ eventDocs docs)
               (Db.scanProgress s).
Proof.
  unfold persist.
  destruct (DbFacts.insertOne_spec blockConflicts (Db.blocks s) (theBlock docs))
    as [[_ ->]|[_ ->]].
  { destruct (match extrinsicDocs docs with [] => _ | _ :: _ => _ end),
             (match eventDocs docs with [] => _ | _ :: _ => _ end). discriminate. }
  assert (Hx : forall coll e,
             match extrinsicDocs docs with
             | [] => (Db.extrinsics s, None)
             | _ :: _ => insertMany extrinsicConflicts (Db.extrinsics s) (extrinsicDocs docs)
             end = (coll, e) ->
             e = None -> coll = Db.extrinsics s ++ extrinsicDocs docs).
  { intros coll e. destruct (extrinsicDocs docs) as [|x xs].
    - intros H _. inversion H. now rewrite app_nil_r.
    - intros H ->. rewrite <- (insertMany_success extrinsicConflicts (x :: xs));
        now rewrite H. }
  assert (He : forall coll e,
             match eventDocs docs with
             | [] => (Db.events s, None)
             | _ :: _ => insertMany eventConflicts (Db.events s) (eventDocs docs)
             end = (coll, e) ->
             e = None -> coll = Db.events s ++ eventDocs docs).
  { intros coll e. destruct (eventDocs docs) as [|x xs].
    - intros H _. inversion H. now rewrite app_nil_r.
    - intros H ->. rewrite <- (insertMany_success eventConflicts (x :: xs));
        now rewrite H. }
  destruct (match extrinsicDocs docs with [] => _ | _ :: _ => _ end) as [xc e2].
  destruct (match eventDocs docs with [] => _ | _ :: _ => _ end) as [ec e3].
  simpl. intros H. inversion H as [[Hs Herr]].
  destruct e2; [discriminate|]. simpl in Herr. subst e3.
  now rewrite (Hx xc None eq_refl eq_refl), (He ec None eq_refl eq_refl).
Qed.

(** X9: inserting the documents of a height a second time is refused: once
    the three inserts have succeeded, the same three inserts report the
    duplicate key and leave the store exactly as it was. *)
Theorem persist_replay_is_rejected s docs s' :
  persist s docs = (s', None) ->
  persist s' docs = (s', Some duplicateKeyError).
Proof.
  unfold persist.
  destruct (DbFacts.insertOne_spec blockConflicts (Db.blocks s) (theBlock docs))
    as [[_ ->]|[_ ->]].
  { destruct (match extrinsicDocs docs with [] => _ | _ :: _ => _ end),
             (match eventDocs docs with [] => _ | _ :: _ => _ end). discriminate. }
  assert (Hx : exists e2,
             match extrinsicDocs docs with
             | [] => (Db.extrinsics s, None)
             | _ :: _ => insertMany extrinsicConflicts (Db.extrinsics s) (extrinsicDocs docs)
             end = (Db.extrinsics s ++ extrinsicDocs docs, e2) \/
             snd (match extrinsicDocs docs with
                  | [] => (Db.extrinsics s, None)
                  | _ :: _ => insertMany extrinsicConflicts (Db.extrinsics s) (extrinsicDocs docs)
                  end) <> None).
  { exists None. destruct (extrinsicDocs docs) as [|x xs] eqn:E.
    - left. now rewrite app_nil_r.
    - destruct (snd (insertMany extrinsicConflicts (Db.extrinsics s) (x :: xs))) eqn:Hs.
      + right. discriminate.
      + left. rewrite <- (insertMany_success _ _ _ Hs), <- Hs. apply surjective_pairing. }
  assert (He : exists e3,
             match eventDocs docs with
             | [] => (Db.events s, None)
             | _ :: _ => insertMany eventConflicts (Db.events s) (eventDocs docs)
             end = (Db.events s ++ eventDocs docs, e3) \/
             snd (match eventDocs docs with
                  | [] => (Db.events s, None)
                  | _ :: _ => insertMany eventConflicts (Db.events s) (eventDocs docs)
                  end) <> None).
  { exists None. destruct (eventDocs docs) as [|x xs] eqn:E.
    - left. now rewrite app_nil_r.
    - destruct (snd (insertMany eventConflicts (Db.events s) (x :: xs))) eqn:Hs.
      + right. discriminate.
      + left. rewrite <- (insertMany_success _ _ _ Hs), <- Hs. apply surjective_pairing. }
  destruct Hx as (e2 & [Hx|Hx]), He as (e3 & [He|He]).
  - rewrite Hx, He. intros H. inversion H as [[Hs' Herr]]. clear H. simpl.
    unfold insertOne.
    assert (Hdup : existsb (blockConflicts (theBlock docs))
                           (Db.blocks s ++ [theBlock docs]) = true).
    { apply existsb_exists. exists (theBlock docs).
      split; [apply in_or_app; right; now left|].
      unfold blockConflicts. now rewrite Z.eqb_refl. }
    rewrite Hdup.
    destruct (extrinsicDocs docs) as [|x xs] eqn:Ex;
      destruct (eventDocs docs) as [|v vs] eqn:Ev;
      rewrite ?app_nil_r;
      rewrite ?(insertMany_replay extrinsicConflicts (x :: xs) (Db.extrinsics s));
      rewrite ?(insertMany_replay eventConflicts (v :: vs) (Db.events s));
      try reflexivity; try discriminate;
      intros doc; unfold extrinsicConflicts, eventConflicts; now rewrite !Z.eqb_refl.
  - destruct (match eventDocs docs with [] => _ | _ :: _ => _ end) as [ev [e|]];
      [|now elim He].
    rewrite Hx. destruct e2; discriminate.
  - destruct (match extrinsicDocs docs with [] => _ | _ :: _ => _ end) as [xs [e|]];
      [|now elim Hx].
    destruct (match eventDocs docs with [] => _ | _ :: _ => _ end). discriminate.
  - destruct (match extrinsicDocs docs with [] => _ | _ :: _ => _ end) as [xs [e|]];
      [|now elim Hx].
    destruct (match eventDocs docs with [] => _ | _ :: _ => _ end). discriminate.
Qed.

(** The theorem on height 3 and an empty store. *)
Lemma persist_replay_is_rejected_example :
  exists docs s',
    normalize 1 MoreExamples.blockThree = Resolved docs /\
    persist emptyStore docs = (s', None) /\
    persist s' docs = (s', Some duplicateKeyError).
Proof.
  eexists. eexists. split; [reflexivity|]. split; [reflexivity|].
  apply (persist_replay_is_rejected emptyStore). reflexivity.
Defined.

End PersistFacts.

(** ** A decoding failure and the height it belongs to *)

Module ContainFacts.
Import Db Normalize Indexer Fresh.

Lemma extrinsicDoc_record chainId d index x doc :
  extrinsicDoc chainId d index x = Resolved doc ->
  ExtrinsicDocument.blockNumber doc = blockNum d /\
  ExtrinsicDocument.extrinsicIndex doc = index /\
  ExtrinsicDocument.args doc = decodeArgs x.
Proof.
  unfold extrinsicDoc.
  destruct (extrinsicStatus (allEvents d) index) as [success error].
  destruct (Extrinsic.isSigned x); [destruct (Extrinsic.nonce x) as [[n|e]|]|];
    intros H; inversion H; repeat split.
Qed.

(** The document at a position is the one built from the extrinsic at
    that position. *)
Lemma extrinsicDocsFrom_nth chainId d xs : forall index docs i x,
  extrinsicDocsFrom chainId d index xs = Resolved docs ->
  nth_error xs i = Some x ->
  exists doc,
    nth_error docs i = Some doc /\
    extrinsicDoc chainId d (index + Z.of_nat i) x = Resolved doc.
Proof.
  induction xs as [|y rest IH]; intros index docs i x; simpl.
  - destruct i; discriminate.
  - destruct (extrinsicDoc chainId d index y) as [doc|e] eqn:Hdoc; [|discriminate].
    destruct (extrinsicDocsFrom chainId d (index + 1) rest) as [docs'|e] eqn:Hrest;
      [|discriminate].
    intros H. injection H as <-. destruct i as [|i]; cbn [nth_error].
    + intros Hx. injection Hx as <-. exists doc. split; [reflexivity|].
      now rewrite Z.add_0_r.
    + intros Hx. destruct (IH (index + 1) docs' i x Hrest Hx) as (doc' & Hnth & Hdoc').
      exists doc'. split; [exact Hnth|].
      replace (index + Z.of_nat (S i)) with (index + 1 + Z.of_nat i) by lia.
      exact Hdoc'.
Qed.

(** C8 (amended): a failure to decode the declared arguments of a
    transaction is caught and does not fail the height. When nothing
    else in the height throws (the nonce conversions succeed) and the
    store holds no document of the height, the turn for the height goes
    on: the block, one record per transaction and the events are
    inserted, and the record of a transaction whose decoding failed is in
    the store with the height and the position of the transaction, its
    argument mapping holding the arguments stored before the failure:
    the empty mapping when the metadata or the first argument fails, a
    partial one otherwise. *)
Theorem decode_failure_contained api chainId endBlock callbackGiven st d :
  (forall x, In x (Normalize.extrinsics (signedBlock d)) -> nonceConverts x) ->
  freshFor (db st) d ->
  exists docs st',
    normalize chainId d = Resolved docs /\
    processBlock api chainId endBlock callbackGiven st d = Continue st' /\
    Db.blocks (db st') = Db.blocks (db st) ++ [theBlock docs] /\
    Db.extrinsics (db st') = Db.extrinsics (db st) ++ extrinsicDocs docs /\
    Db.events (db st') = Db.events (db st) ++ eventDocs docs /\
    map ExtrinsicDocument.args (extrinsicDocs docs) =
      map decodeArgs (Normalize.extrinsics (signedBlock d)) /\
    forall i x,
      nth_error (Normalize.extrinsics (signedBlock d)) i = Some x ->
      decodeFails x = true ->
      exists doc,
        In doc (Db.extrinsics (db st')) /\
        ExtrinsicDocument.blockNumber doc = blockNum d /\
        ExtrinsicDocument.extrinsicIndex doc = Z.of_nat i /\
        ExtrinsicDocument.args doc = storeArgs (decodedBeforeFailure x) [] /\
        (decodedBeforeFailure x = [] -> ExtrinsicDocument.args doc = []) /\
        (forall argMetas, Extrinsic.meta x = Resolved argMetas ->
           (List.length (decodedBeforeFailure x) < List.length argMetas)%nat).
Proof.
  intros Hall Hfresh.
  destruct (NormalizeFacts.extrinsicDocsFrom_total chainId d
              (Normalize.extrinsics (signedBlock d)) 0 Hall) as (xdocs & Hx & Hmap).
  assert (Hnorm : normalize chainId d =
                  Resolved (mkDocuments (blockDoc chainId d) xdocs
                                        (eventDocsFrom chainId d 0 (allEvents d)))).
  { unfold normalize. now rewrite Hx. }
  set (docs := mkDocuments _ _ _) in Hnorm.
  pose proof (PersistFacts.persist_fresh chainId (db st) d docs Hnorm Hfresh) as Hp.
  exists docs. eexists. split; [exact Hnorm|].
  split; [unfold processBlock; rewrite Hnorm, Hp; reflexivity|].
  cbn [db Db.blocks Db.extrinsics Db.events updateScanProgress].
  split; [reflexivity|]. split; [reflexivity|]. split; [reflexivity|].
  split; [exact Hmap|].
  intros i x Hnth Hfail.
  destruct (extrinsicDocsFrom_nth chainId d _ 0 xdocs i x Hx Hnth) as (doc & Hdoc & Hbuilt).
  destruct (extrinsicDoc_record chainId d _ x doc Hbuilt) as (Hnum & Hidx & Hargs).
  exists doc. split.
  { apply in_or_app. right. now apply nth_error_In with (n := i). }
  split; [exact Hnum|]. split; [rewrite Hidx; lia|].
  rewrite Hargs. split; [apply NormalizeFacts.decodeArgs_stores|]. split.
  - intros Hnil. now rewrite NormalizeFacts.decodeArgs_stores, Hnil.
  - intros argMetas Hmeta. unfold decodeFails, decodeWithFlag in Hfail.
    unfold decodedBeforeFailure. rewrite Hmeta in *.
    now apply NormalizeFacts.decodeLoop_flag in Hfail.
Qed.

(** The theorem on the block with the half-decoded transfer, indexed into
    an empty store: the turn goes on and the store holds the record of
    the transfer with the one argument that was decoded. *)
Lemma decode_failure_contained_example :
  exists st',
    processBlock Examples.healthyNode 1 0 true (initialState 1 emptyStore 0)
                 Examples.blockWithHalfDecoded = Continue st' /\
    map ExtrinsicDocument.args (Db.extrinsics (db st')) = [[("dest", "Alice")]]%string.
Proof.
  destruct (decode_failure_contained Examples.healthyNode 1 0 true
              (initialState 1 emptyStore 0) Examples.blockWithHalfDecoded)
    as (docs & st' & _ & Hturn & _ & Hstored & _ & Hargs & _).
  - intros x [<-|[]]. unfold nonceConverts. simpl. discriminate.
  - unfold freshFor. simpl. split; [|split]; intros x [].
  - exists st'. split; [exact Hturn|]. rewrite Hstored. simpl. rewrite Hargs. reflexivity.
Defined.

End ContainFacts.

(** ** What a run keeps true *)

Module RunFacts.
Import Db Keys Normalize Indexer Schedule Log Fresh Accounts.

Section Running.
Variable api : ChainApi.
Variable retryFuel : nat.
Variable chainId : Z.
Variable endBlock : Z.
Variable concurrency : Z.
Variable callbackGiven : bool.

Let await := awaitHead api retryFuel chainId endBlock callbackGiven.
Let fetch := fetchBlockData api retryFuel.
Let fill := fillQueue endBlock concurrency.
Let Inv := invariant api retryFuel callbackGiven.
Let reach := reachable api retryFuel chainId endBlock concurrency callbackGiven.

(** The three ways a turn goes on: nothing to await, a pruned height, an
    indexed height. *)
Lemma await_continue_cases st st' :
  await st = Continue st' ->
  (fetchQueue st = [] /\ st' = st) \/
  (exists h rest,
     fetchQueue st = h :: rest /\ fetch h = FetchedNull /\
     st' = mkLoop (currentBlock st) rest (blocksIndexed st) (extrinsicsIndexed st)
                  (eventsIndexed st) (db st) (writes st) (callbacks st)
                  (dequeued st ++ [h])) \/
  (exists h rest d docs s,
     fetchQueue st = h :: rest /\ fetch h = FetchedData d /\ blockNum d = h /\
     normalize chainId d = Resolved docs /\
     persist (db st) docs = (s, None) /\
     let progress :=
       ScanProgressDocument.mk chainId (chainName api) h
         (blocksIndexed st + 1)
         (extrinsicsIndexed st + Z.of_nat (List.length (extrinsicDocs docs)))
         (eventsIndexed st + Z.of_nat (List.length (eventDocs docs)))
         (h =? endBlock) (Some endBlock) in
     db st' = updateScanProgress s progress /\
     writes st' = writes st ++ persistWrites h docs ++ [mkWrite h (UpdateProgress progress)] /\
     blocksIndexed st' = blocksIndexed st + 1 /\
     extrinsicsIndexed st' =
       extrinsicsIndexed st + Z.of_nat (List.length (extrinsicDocs docs)) /\
     eventsIndexed st' = eventsIndexed st + Z.of_nat (List.length (eventDocs docs)) /\
     fetchQueue st' = rest /\ currentBlock st' = currentBlock st).
Proof.
  unfold await, awaitHead.
  destruct (fetchQueue st) as [|h rest] eqn:E.
  { intros H. inversion H. now left. }
  fold fetch. destruct (fetch h) as [d| |e|] eqn:Hfetch; try discriminate.
  - pose proof (IndexerFacts.fetchBlockData_blockNum _ _ _ _ Hfetch) as Hnum.
    unfold processBlock. rewrite Hnum. cbn [db].
    destruct (normalize chainId d) as [docs|e] eqn:Hnorm; [|discriminate].
    destruct (persist (db st) docs) as [s [e|]] eqn:Hp; [discriminate|].
    intros H. inversion H. subst st'. clear H. right. right.
    exists h, rest, d, docs, s. cbn. repeat split; try reflexivity; assumption.
  - intros H. inversion H. right. left. now exists h, rest.
Qed.

(** A property kept by the fill loop and by every turn that goes on holds
    wherever a run has not failed. *)
Lemma running_invariant (P : LoopState -> Prop) store startBlock :
  P (initialState chainId store startBlock) ->
  (forall st, P st -> P (fill st)) ->
  (forall st st', Inv st -> P st -> await st = Continue st' -> P st') ->
  forall s, reach (start chainId store startBlock) s ->
            (forall e, point s <> Halted e) -> P (loop s).
Proof.
  intros Hinit Hfill Hturn s Hreach.
  induction Hreach as [|s s' Hreach IH Hstep]; [intros _; exact Hinit|].
  pose proof (IndexerFacts.reachable_invariant _ _ _ _ _ _ _ _ _ Hreach) as [HI _].
  destruct Hstep as [st stl pt h Hin Hnew Hfetch
                    |st stl Hle
                    |st stl Hlt
                    |st stl st' Hhead Hawait
                    |st stl error st' Hhead Hawait]; simpl in *; intros Hrun.
  - apply IH. exact Hrun.
  - apply Hfill, IH. discriminate.
  - apply IH. discriminate.
  - apply (Hturn st); [exact HI|apply IH; discriminate|exact Hawait].
  - exfalso. now apply (Hrun error).
Qed.

(** *** The counters and the store *)

Lemma count_app {D} (chainIdOf : D -> Z) coll new c :
  Forall (fun d => chainIdOf d = c) new ->
  countDocuments chainIdOf (coll ++ new) c =
  countDocuments chainIdOf coll c + Z.of_nat (List.length new).
Proof.
  intros Hall. unfold countDocuments. rewrite filter_app, length_app.
  replace (filter (fun d => chainIdOf d =? c) new) with new; [lia|].
  induction Hall as [|d new Hd Hnew IH]; simpl; [reflexivity|].
  apply Z.eqb_eq in Hd. rewrite Hd. now f_equal.
Qed.

Lemma countsFollow_turn st0 st st' :
  countsFollow chainId st0 st -> await st = Continue st' ->
  countsFollow chainId st0 st'.
Proof.
  intros (Hb & Hx & He) Hawait.
  destruct (await_continue_cases _ _ Hawait)
    as [[_ ->]|[(h & rest & _ & _ & ->)
               |(h & rest & d & docs & s & _ & _ & _ & Hnorm & Hp & Hdb & _ & Hbi & Hxi & Hei & _)]];
    try (repeat split; assumption).
  apply PersistFacts.persist_success_shape in Hp.
  destruct (PersistFacts.normalize_shape _ _ _ Hnorm) as (Hblock & _ & _ & Hxc & Hec).
  unfold countsFollow, getStats in *. simpl in *.
  rewrite Hdb, Hbi, Hxi, Hei, Hp. simpl.
  rewrite (count_app BlockDocument.chainId _ [theBlock docs]),
          (count_app ExtrinsicDocument.chainId _ (extrinsicDocs docs)),
          (count_app EventDocument.chainId _ (eventDocs docs));
    try assumption.
  - simpl. repeat split; lia.
  - constructor; [|constructor]. now rewrite Hblock.
Qed.

End Running.

(** X10: between the turns for two heights (at the head of the loop,
    while the loop waits for the head of its queue, and once it has left
    the loop), in whatever order the fetches settle and as long as the run
    has not failed, the store has gained exactly as many block, extrinsic
    and event documents of the chain (as [getStats] counts them) as the
    three counters of the run have gone up since its start. A turn for a
    height, from its three inserts to its callback, is one step of
    [Schedule.step]: nothing is said of the moments inside it, when the
    inserts are done and the counters not yet raised. *)
Theorem counters_follow_the_store
        api retryFuel chainId endBlock concurrency callbackGiven store startBlock s :
  reachable api retryFuel chainId endBlock concurrency callbackGiven
            (start chainId store startBlock) s ->
  (forall e, point s <> Halted e) ->
  countsFollow chainId (initialState chainId store startBlock) (loop s).
Proof.
  intros Hreach Hrun.
  apply (running_invariant api retryFuel chainId endBlock concurrency callbackGiven
           (countsFollow chainId (initialState chainId store startBlock))
           store startBlock); try assumption.
  - repeat split; lia.
  - intros st H.
    destruct (IndexerFacts.fillQueue_fields endBlock concurrency st)
      as (Hbi & Hxi & Hei & Hdb & _).
    unfold countsFollow in *. now rewrite Hbi, Hxi, Hei, Hdb.
  - intros st st' _. apply countsFollow_turn.
Qed.

(** The theorem on the example schedule: two blocks indexed, two block
    documents more in the store. *)
Lemma counters_follow_the_store_example :
  blockCount (getStats (db (loop Examples.sched7)) 1) = 2 /\
  countsFollow 1 (initialState 1 Db.emptyStore 0) (loop Examples.sched7).
Proof.
  split; [reflexivity|].
  apply (counters_follow_the_store Examples.healthyNode 1 1 2 2 true
                                   Db.emptyStore 0 Examples.sched7).
  - exact IndexerFacts.sched7_reachable.
  - discriminate.
Defined.

(** *** The checkpoint *)

Section Checkpoint.
Variable api : ChainApi.
Variable retryFuel : nat.
Variable chainId : Z.
Variable endBlock : Z.
Variable concurrency : Z.
Variable callbackGiven : bool.

Lemma checkpointed_turn st0 st st' :
  checkpointed api chainId endBlock st0 st ->
  awaitHead api retryFuel chainId endBlock callbackGiven st = Continue st' ->
  checkpointed api chainId endBlock st0 st'.
Proof.
  intros Hcp Hawait.
  destruct (await_continue_cases _ _ _ _ _ _ _ Hawait)
    as [[_ ->]|[(h & rest & _ & _ & ->)
               |(h & rest & d & docs & s & _ & _ & _ & _ & _ & Hdb & Hw & Hbi & Hxi & Hei & _)]];
    try exact Hcp.
  unfold checkpointed, checkpoint. rewrite Hw, Hdb, Hbi, Hxi, Hei.
  rewrite !IndexerFacts.progressed_app, IndexerFacts.persistWrites_progressed.
  simpl. rewrite Z.eqb_refl.
  destruct (progressed (writes st) ++ [h]) as [|a l] eqn:E.
  { now destruct (progressed (writes st)). }
  rewrite <- E, last_last.
  apply (IndexerFacts.getScanProgress_update s).
Qed.

End Checkpoint.

(** X11: between the turns for two heights (at the head of the loop,
    while the loop waits for the head of its queue, and once it has left
    the loop), in whatever order the fetches settle and as long as the run
    has not failed, the progress record of the chain is the checkpoint of
    the run: once a height has been indexed it names the last height
    indexed, the three counters as they are, and [isComplete] exactly
    when that height is the end height; before that the progress records
    are those the run started with. An invocation that starts from such a
    store therefore starts with the same counters and, without an
    explicit start and with the end height beyond, right after the last
    height indexed. A turn for a height is one step of [Schedule.step]:
    nothing is said of the moments inside it, when the inserts are done
    and the progress record not yet written. *)
Theorem checkpoint_after_every_height
        api retryFuel chainId endBlock concurrency callbackGiven store startBlock s :
  reachable api retryFuel chainId endBlock concurrency callbackGiven
            (start chainId store startBlock) s ->
  (forall e, point s <> Halted e) ->
  checkpointed api chainId endBlock (initialState chainId store startBlock) (loop s) /\
  (progressed (writes (loop s)) <> [] ->
   forall nextStart nextEnd,
     let resumed := initialState chainId (db (loop s)) nextStart in
     blocksIndexed resumed = blocksIndexed (loop s) /\
     extrinsicsIndexed resumed = extrinsicsIndexed (loop s) /\
     eventsIndexed resumed = eventsIndexed (loop s) /\
     (last (progressed (writes (loop s))) 0 < nextEnd ->
      resolveStart None (getScanProgress (db (loop s)) chainId) nextEnd =
        last (progressed (writes (loop s))) 0 + 1)).
Proof.
  intros Hreach Hrun.
  assert (Hcp : checkpointed api chainId endBlock
                             (initialState chainId store startBlock) (loop s)).
  { apply (running_invariant api retryFuel chainId endBlock concurrency callbackGiven
             (checkpointed api chainId endBlock (initialState chainId store startBlock))
             store startBlock); try assumption.
    - reflexivity.
    - intros st H.
      destruct (IndexerFacts.fillQueue_fields endBlock concurrency st)
        as (Hbi & Hxi & Hei & Hdb & Hw & _).
      unfold checkpointed, checkpoint in *. now rewrite Hbi, Hxi, Hei, Hdb, Hw.
    - intros st st' _. apply checkpointed_turn. }
  split; [exact Hcp|].
  intros Hne nextStart nextEnd resumed. subst resumed.
  unfold checkpointed in Hcp.
  destruct (progressed (writes (loop s))) as [|a l] eqn:E; [contradiction|].
  unfold initialState, resolveStart. rewrite Hcp. unfold checkpoint. rewrite E. simpl.
  repeat split.
  intros Hlt. apply Z.ltb_lt in Hlt. simpl in Hlt. now rewrite Hlt.
Qed.

(** The theorem on the example schedule, which has indexed heights 0
    and 1: the record stands at 1, and the next run starts at 2. *)
Lemma checkpoint_after_every_height_example :
  getScanProgress (db (loop Examples.sched7)) 1 =
    Some (ScanProgressDocument.mk 1 "dev" 1 2 0 0 false (Some 2)) /\
  resolveStart None (getScanProgress (db (loop Examples.sched7)) 1) 9 = 2.
Proof.
  destruct (checkpoint_after_every_height Examples.healthyNode 1 1 2 2 true
              Db.emptyStore 0 Examples.sched7 IndexerFacts.sched7_reachable)
    as [Hcp Hresume]; [discriminate|].
  split; [exact Hcp|].
  destruct (Hresume ltac:(discriminate) 0 9) as (_ & _ & _ & H).
  apply H. vm_compute. reflexivity.
Defined.

(** *** The end of a run *)

Section Ending.
Variable api : ChainApi.
Variable retryFuel : nat.
Variable chainId : Z.
Variable endBlock : Z.
Variable concurrency : Z.
Variable callbackGiven : bool.
Variable startBlock : Z.
Hypothesis concurrency_pos : 1 <= concurrency.
Hypothesis range_nonempty : startBlock <= endBlock.

(** While the range is not used up, a turn starts at least one fetch. *)
Lemma fill_advances st :
  draining startBlock endBlock concurrency st ->
  currentBlock st <= endBlock ->
  currentBlock st + 1 <= currentBlock (fillQueue endBlock concurrency st) /\
  fetchQueue (fillQueue endBlock concurrency st) <> [].
Proof.
  intros (Hdq & Hcur & Hshape) Hle.
  assert (Hlen : Z.of_nat (List.length (fetchQueue st)) < concurrency).
  { unfold window in Hshape. destruct Hshape as [[-> _]|[-> _]]; simpl; lia. }
  destruct (IndexerFacts.fill_length endBlock concurrency startBlock st) as [Hfl Hnext];
    [lia|lia|].
  split; [lia|].
  intros E. rewrite E in Hfl. simpl in Hfl. lia.
Qed.

Lemma run_ends fuel : forall st,
  draining startBlock endBlock concurrency st ->
  (Z.to_nat (endBlock + 1 - currentBlock st) < fuel)%nat ->
  match run api retryFuel chainId endBlock concurrency callbackGiven fuel st with
  | OutOfFuel _ => False
  | _ => True
  end.
Proof.
  induction fuel as [|fuel IH]; intros st HD Hfuel; [lia|].
  cbn [run]. destruct (Z.leb_spec (currentBlock st) endBlock) as [Hle|Hgt]; [|exact I].
  unfold turn.
  destruct (awaitHead api retryFuel chainId endBlock callbackGiven
                      (fillQueue endBlock concurrency st)) as [st'|e st'|st'] eqn:Hawait;
    try exact I.
  destruct (fill_advances st HD Hle) as [Hadv Hne].
  destruct (fetchQueue (fillQueue endBlock concurrency st)) as [|h rest] eqn:E;
    [contradiction|].
  destruct (IndexerFacts.await_takes_head _ _ _ _ _ _ _ _ _ E Hawait) as (_ & Hc & _).
  apply IH.
  - apply (IndexerFacts.draining_turn api retryFuel chainId endBlock concurrency
             callbackGiven startBlock concurrency_pos range_nonempty st st' HD Hle Hawait).
  - lia.
Qed.

End Ending.

(** X12: with a concurrency of at least 1 every run ends: over a range of
    [n] heights the loop makes at most [n] turns before it completes,
    fails, or waits on a fetch that does not settle. Over an empty range
    it completes at once, with no fetch started and the store as it
    was. *)
Theorem run_ends_for_positive_concurrency
        api retryFuel chainId endBlock concurrency callbackGiven store startBlock fuel :
  1 <= concurrency ->
  (Z.to_nat (endBlock + 1 - startBlock) < fuel)%nat ->
  match run api retryFuel chainId endBlock concurrency callbackGiven fuel
            (initialState chainId store startBlock) with
  | OutOfFuel _ => False
  | _ => True
  end /\
  (endBlock < startBlock ->
   run api retryFuel chainId endBlock concurrency callbackGiven fuel
       (initialState chainId store startBlock) =
     Completed (initialState chainId store startBlock)).
Proof.
  intros Hc Hfuel. split.
  - destruct (Z.le_gt_cases startBlock endBlock) as [Hle|Hgt].
    + apply (run_ends api retryFuel chainId endBlock concurrency callbackGiven
                      startBlock Hc Hle); [|exact Hfuel].
      unfold draining, nextUp. simpl. split; [lia|]. split; [lia|]. now left.
    + destruct fuel as [|fuel]; [lia|]. cbn [run]. simpl.
      destruct (Z.leb_spec startBlock endBlock); [lia|exact I].
  - intros Hgt. destruct fuel as [|fuel]; [lia|]. cbn [run]. simpl.
    destruct (Z.leb_spec startBlock endBlock); [lia|reflexivity].
Qed.

(** The theorem on the empty range from 100 to 50. *)
Lemma run_ends_for_positive_concurrency_example :
  run Examples.healthyNode 1 1 50 5 true 1 (initialState 1 Examples.gapStore 100) =
    Completed (initialState 1 Examples.gapStore 100).
Proof.
  destruct (run_ends_for_positive_concurrency Examples.healthyNode 1 1 50 5 true
              Examples.gapStore 100 1) as [_ H]; [lia|simpl; lia|].
  apply H. lia.
Defined.

(** X13: a run that completes over a non-empty range, with a concurrency
    of [c >= 1] and [n] heights in the range, has taken only the first
    [n + 1 - min c n] heights off its queue; the fetches of the last
    [min c n - 1] heights were started and are left in the queue, not
    awaited and not indexed. *)
Theorem completed_run_leaves_the_tail
        api retryFuel chainId endBlock concurrency callbackGiven startBlock store fuel st' :
  1 <= concurrency ->
  startBlock <= endBlock ->
  run api retryFuel chainId endBlock concurrency callbackGiven fuel
      (initialState chainId store startBlock) = Completed st' ->
  dequeued st' =
    upto startBlock
         (Z.to_nat (endBlock + 2 - startBlock - window startBlock endBlock concurrency)) /\
  fetchQueue st' =
    upto (endBlock + 2 - window startBlock endBlock concurrency)
         (Z.to_nat (window startBlock endBlock concurrency - 1)).
Proof.
  intros Hc Hrange Hrun.
  now apply (IndexerFacts.completed_run_stops_short api retryFuel chainId endBlock
               concurrency callbackGiven startBlock Hc Hrange store fuel).
Qed.

(** The theorem over heights 0 to 2 with two fetches in flight: heights 0
    and 1 are taken off, the fetch of height 2 is left in the queue. *)
Lemma completed_run_leaves_the_tail_example :
  exists st',
    run Examples.healthyNode 1 1 2 2 true 10 (initialState 1 Db.emptyStore 0) =
      Completed st' /\
    dequeued st' = [0; 1] /\ fetchQueue st' = [2].
Proof.
  eexists. split; [reflexivity|].
  destruct (completed_run_leaves_the_tail Examples.healthyNode 1 1 2 2 true 0
              Db.emptyStore 10 _ ltac:(lia) ltac:(lia) eq_refl) as [Hd Hq].
  rewrite Hd, Hq. split; reflexivity.
Defined.

(** *** A store that is behind the run *)

Section Behind.
Variable api : ChainApi.
Variable retryFuel : nat.
Variable chainId : Z.
Variable endBlock : Z.
Variable concurrency : Z.
Variable callbackGiven : bool.
Hypothesis node_decodable : decodable api retryFuel.
Hypothesis node_hashes : hashesDiffer api retryFuel.

Let await := awaitHead api retryFuel chainId endBlock callbackGiven.
Let fetch := fetchBlockData api retryFuel.
Let Inv := invariant api retryFuel callbackGiven.
Let isBehind st := behind api retryFuel (db st) (nextUp st).

Lemma behind_later s next next' :
  next <= next' -> behind api retryFuel s next -> behind api retryFuel s next'.
Proof.
  intros Hle (Hb & Hx & He). repeat split.
  - destruct (Hb b H). lia.
  - intros h d Hh. destruct (Hb b H) as [_ Hhash]. apply Hhash. lia.
  - intros x Hin. specialize (Hx x Hin). lia.
  - intros e Hin. specialize (He e Hin). lia.
Qed.

Lemma behind_fresh s d :
  behind api retryFuel s (blockNum d) -> fetch (blockNum d) = FetchedData d ->
  freshFor s d.
Proof.
  intros (Hb & Hx & He) Hfetch. repeat split.
  - destruct (Hb b H). lia.
  - destruct (Hb b H) as [_ Hhash]. apply (Hhash (blockNum d)); [lia|exact Hfetch].
  - intros x Hin. specialize (Hx x Hin). lia.
  - intros e Hin. specialize (He e Hin). lia.
Qed.

Lemma normalize_decodable h d :
  fetch h = FetchedData d -> exists docs, normalize chainId d = Resolved docs.
Proof.
  intros Hfetch. unfold normalize.
  destruct (NormalizeFacts.extrinsicDocsFrom_total chainId d
              (Normalize.extrinsics (signedBlock d)) 0) as (docs & -> & _).
  - intros x Hin. now apply (node_decodable h d).
  - eexists. reflexivity.
Qed.

(** With the store behind, the turn of a fetched height goes on. *)
Lemma behind_turn_goes_on st h rest d :
  Inv st -> isBehind st ->
  fetchQueue st = h :: rest -> fetch h = FetchedData d ->
  exists st', await st = Continue st'.
Proof.
  intros HI HB E Hfetch.
  destruct (IndexerFacts.invariant_head _ _ _ _ _ _ HI E) as [Hh _].
  pose proof (IndexerFacts.fetchBlockData_blockNum _ _ _ _ Hfetch) as Hnum.
  destruct (normalize_decodable h d Hfetch) as [docs Hnorm].
  unfold await, awaitHead. rewrite E. fold fetch. rewrite Hfetch.
  unfold processBlock. rewrite Hnorm. cbn [db].
  rewrite (PersistFacts.persist_fresh chainId (db st) d docs Hnorm).
  - eexists. reflexivity.
  - apply behind_fresh; rewrite Hnum; [|exact Hfetch].
    unfold isBehind in HB. now rewrite Hh.
Qed.

Lemma behind_turn st st' :
  Inv st -> isBehind st -> await st = Continue st' -> isBehind st'.
Proof.
  intros HI HB Hawait. unfold isBehind in *.
  destruct (await_continue_cases _ _ _ _ _ _ _ Hawait)
    as [[_ ->]|[(h & rest & E & _ & ->)
               |(h & rest & d & docs & s & E & Hfetch & Hnum & Hnorm & Hp & Hdb & _ & _ & _ & _ & Hq & Hc)]];
    [exact HB| |].
  - apply behind_later with (next := nextUp st); [|exact HB].
    unfold nextUp. simpl. rewrite E. simpl List.length. lia.
  - destruct (IndexerFacts.invariant_head _ _ _ _ _ _ HI E) as [Hh Hcur].
    assert (Hnext : nextUp st' = h + 1) by (unfold nextUp; rewrite Hq, Hc; lia).
    apply PersistFacts.persist_success_shape in Hp.
    destruct (IndexerFacts.normalize_tagged _ _ _ Hnorm) as (Hbn & Hxn & Hen).
    destruct (PersistFacts.normalize_shape _ _ _ Hnorm) as (Hblock & _).
    rewrite Hnext, Hdb, Hp. rewrite <- Hh in HB. destruct HB as (Hb & Hx & He).
    unfold behind. simpl. rewrite Forall_forall in Hxn, Hen.
    split; [|split].
    + intros b Hin. apply in_app_or in Hin. destruct Hin as [Hin|[<-|[]]].
      * destruct (Hb b Hin) as [Hlt Hhash]. split; [lia|].
        intros h' d' Hh' Hf'. apply (Hhash h' d'); [lia|exact Hf'].
      * split; [lia|]. intros h' d' Hh' Hf'. rewrite Hblock. simpl.
        apply (node_hashes h h' d d'); [exact Hfetch|exact Hf'|lia].
    + intros x Hin. apply in_app_or in Hin. destruct Hin as [Hin|Hin].
      * specialize (Hx x Hin). lia.
      * rewrite (Hxn x Hin). lia.
    + intros e Hin. apply in_app_or in Hin. destruct Hin as [Hin|Hin].
      * specialize (He e Hin). lia.
      * rewrite (Hen e Hin). lia.
Qed.

End Behind.

(** X14: a run on a store that holds only documents below its start
    height (and no block with the hash of a block to come), against a node
    whose blocks can all be turned into documents and whose hashes differ
    from height to height, never meets a duplicate key. Whenever the loop,
    not having failed, has a fetched block at the head of its queue, the
    documents of that block are prepared without error and the three
    inserts into the store as it then is all succeed, adding exactly
    those documents. *)
Theorem fresh_run_inserts_succeed
        api retryFuel chainId endBlock concurrency callbackGiven store startBlock s h rest d :
  decodable api retryFuel ->
  hashesDiffer api retryFuel ->
  behind api retryFuel store startBlock ->
  reachable api retryFuel chainId endBlock concurrency callbackGiven
            (start chainId store startBlock) s ->
  (forall e, point s <> Halted e) ->
  fetchQueue (loop s) = h :: rest ->
  fetchBlockData api retryFuel h = FetchedData d ->
  exists docs,
    normalize chainId d = Resolved docs /\
    persist (db (loop s)) docs =
      (mkStore (Db.blocks (db (loop s)) ++ [theBlock docs])
               (Db.extrinsics (db (loop s)) ++ extrinsicDocs docs)
               (Db.events (db (loop s)) ++ eventDocs docs)
               (Db.scanProgress (db (loop s))), None).
Proof.
  intros Hdec Hhash Hstore Hreach Hrun E Hfetch.
  pose proof (IndexerFacts.reachable_invariant _ _ _ _ _ _ _ _ _ Hreach) as [HI _].
  assert (HB : behind api retryFuel (db (loop s)) (nextUp (loop s))).
  { apply (running_invariant api retryFuel chainId endBlock concurrency callbackGiven
             (fun st => behind api retryFuel (db st) (nextUp st))
             store startBlock); try assumption.
    - unfold nextUp. simpl. now rewrite Z.sub_0_r.
    - intros st H. rewrite IndexerFacts.fillQueue_nextUp.
      destruct (IndexerFacts.fillQueue_fields endBlock concurrency st)
        as (_ & _ & _ & -> & _). exact H.
    - intros st st'. now apply behind_turn. }
  destruct (IndexerFacts.invariant_head _ _ _ _ _ _ HI E) as [Hh _].
  pose proof (IndexerFacts.fetchBlockData_blockNum _ _ _ _ Hfetch) as Hnum.
  destruct (normalize_decodable api retryFuel chainId Hdec h d Hfetch) as [docs Hnorm].
  exists docs. split; [exact Hnorm|].
  apply (PersistFacts.persist_fresh chainId (db (loop s)) d docs Hnorm).
  apply (behind_fresh api retryFuel); rewrite Hnum; [|exact Hfetch].
  now rewrite Hh.
Qed.

(** The example run against the node that serves heights 1 and 2 is one
    the loop can follow. *)
Lemma serve4_reachable :
  reachable MoreExamples.rejectsAtZero 1 1 2 1 false
            (start 1 Db.emptyStore 1) MoreExamples.serve4.
Proof.
  apply reach_step with (s := MoreExamples.serve3).
  apply reach_step with (s := MoreExamples.serve2).
  apply reach_step with (s := MoreExamples.serve1).
  apply reach_step with (s := MoreExamples.serve0).
  - apply reach_init.
  - apply step_enter. simpl. lia.
  - apply step_settle; [vm_compute; tauto|simpl; tauto|vm_compute; discriminate].
  - apply step_resume; [vm_compute; tauto|vm_compute; reflexivity].
  - apply step_enter. vm_compute. discriminate.
Defined.

Lemma rejectsAtZero_serves h d :
  fetchBlockData MoreExamples.rejectsAtZero 1 h = FetchedData d ->
  (h = 1 \/ h = 2) /\ blockHash d = Examples.hashOf h /\
  Normalize.extrinsics (signedBlock d) = [].
Proof.
  unfold fetchBlockData, Retry.retryOnNetworkError, Retry.retryWithBackoff. simpl.
  destruct (Z.eqb_spec h 0); [simpl; discriminate|].
  destruct (Z.leb_spec 1 h), (Z.leb_spec h 2); simpl; try discriminate.
  intros Hd. inversion Hd. simpl. repeat split. lia.
Qed.

(** The theorem on that run, when height 1 is in the store and height 2
    is at the head of the queue: the inserts of height 2 succeed. *)
Lemma fresh_run_inserts_succeed_example :
  exists d docs,
    fetchBlockData MoreExamples.rejectsAtZero 1 2 = FetchedData d /\
    normalize 1 d = Resolved docs /\
    snd (persist (db (loop MoreExamples.serve4)) docs) = None /\
    map BlockDocument.number (Db.blocks (fst (persist (db (loop MoreExamples.serve4)) docs)))
      = [1; 2].
Proof.
  exists (mkFetched 2 "0x02" (mkSignedBlock Examples.emptyHeader []) 1700 []).
  destruct (fresh_run_inserts_succeed MoreExamples.rejectsAtZero 1 1 2 1 false
              Db.emptyStore 1 MoreExamples.serve4 2 []
              (mkFetched 2 "0x02" (mkSignedBlock Examples.emptyHeader []) 1700 []))
    as (docs & Hnorm & Hp).
  - intros h d Hfetch x Hin.
    destruct (rejectsAtZero_serves h d Hfetch) as (_ & _ & Hnil).
    rewrite Hnil in Hin. contradiction.
  - intros h h' d d' Hf Hf' Hne.
    destruct (rejectsAtZero_serves h d Hf) as (Hh & -> & _).
    destruct (rejectsAtZero_serves h' d' Hf') as (Hh' & -> & _).
    destruct Hh as [-> | ->], Hh' as [-> | ->]; simpl; congruence.
  - unfold behind. simpl. split; [|split]; intros x Hin; destruct Hin.
  - exact serve4_reachable.
  - discriminate.
  - reflexivity.
  - reflexivity.
  - exists docs. split; [reflexivity|]. split; [exact Hnorm|].
    rewrite Hp. split; [reflexivity|]. simpl.
    assert (Hb : theBlock docs = blockDoc 1 _)
      by exact (proj1 (PersistFacts.normalize_shape _ _ _ Hnorm)).
    rewrite Hb. reflexivity.
Defined.

End RunFacts.

(** ** The concurrency value *)

Module ConcurrencyFacts.
Import Normalize Indexer Schedule Log.

Section Window.
Variable api : ChainApi.
Variable retryFuel : nat.
Variable chainId : Z.
Variable endBlock : Z.
Variable concurrency : Z.
Variable callbackGiven : bool.



End Window.



End ConcurrencyFacts.

(** ** The gap detector, height by height *)

Module MissingFacts.
Import Db Gap Missing.

Lemma sorted_last_max l : forall d,
  StronglySorted Z.le l -> l <> [] ->
  In (last l d) l /\ forall x, In x l -> x <= last l d.
Proof.
  induction l as [|a l IH]; intros d Hs Hne; [contradiction|].
  inversion Hs as [|? ? Hl Ha]; subst. destruct l as [|b l].
  - simpl. split; [now left|]. intros x [<-|[]]. lia.
  - destruct (IH d Hl ltac:(discriminate)) as [Hin Hmax].
    change (last (a :: b :: l) d) with (last (b :: l) d).
    split; [now right|]. intros x [<-|Hx]; [|now apply Hmax].
    rewrite Forall_forall in Ha. specialize (Ha (last (b :: l) d) Hin). lia.
Qed.

(** The jumps cover the heights that are not in the list and lie between
    the first expected height and some later element. *)
Lemma jumps_cover heights : forall expected h,
  StronglySorted Z.le heights ->
  (forall x, In x heights -> expected <= x + 1) ->
  (exists r, In r (jumpsFrom expected heights) /\ covers r h) <->
  (expected <= h /\ ~ In h heights /\ exists x, In x heights /\ h < x).
Proof.
  induction heights as [|found rest IH]; intros expected h Hs Hlow; simpl.
  - split; [intros (r & [] & _)|intros (_ & _ & x & [] & _)].
  - inversion Hs as [|? ? Hrest Hfound]; subst. rewrite Forall_forall in Hfound.
    assert (Hlow' : forall x, In x rest -> found + 1 <= x + 1).
    { intros x Hx. specialize (Hfound x Hx). lia. }
    specialize (IH (found + 1) h Hrest Hlow').
    pose proof (Hlow found (or_introl eq_refl)) as Hef.
    split.
    + intros (r & Hin & Hc). apply in_app_or in Hin. destruct Hin as [Hin|Hin].
      * destruct (Z.ltb_spec expected found); [|contradiction].
        destruct Hin as [<-|[]]. unfold covers in Hc. simpl in Hc.
        split; [lia|]. split.
        -- intros [E|Hx]; [lia|]. specialize (Hfound h Hx). lia.
        -- exists found. split; [now left|lia].
      * destruct IH as [IH _]. destruct IH as (Hge & Hnot & x & Hx & Hlt).
        { now exists r. }
        split; [lia|]. split.
        -- intros [E|Hin']; [lia|contradiction].
        -- exists x. split; [now right|assumption].
    + intros (Hge & Hnot & x & Hx & Hlt).
      destruct (Z.lt_ge_cases h found) as [Hbelow|Habove].
      * exists (mkRange expected (found - 1)). split.
        -- apply in_or_app. left.
           destruct (Z.ltb_spec expected found); [now left|lia].
        -- unfold covers. simpl. lia.
      * assert (Hne : h <> found) by (intros E; apply Hnot; now left).
        destruct IH as [_ IH]. destruct IH as (r & Hin & Hc).
        { split; [lia|]. split; [intros Hin; apply Hnot; now right|].
          destruct Hx as [E|Hx]; [lia|]. now exists x. }
        exists r. split; [apply in_or_app; now right|assumption].
Qed.

Lemma findMissingBlocks_nonempty s chainId p :
  getScanProgress s chainId = Some p ->
  ScanProgressDocument.lastIndexedBlock p <> 0 ->
  indexedBlockNumbers s chainId <> [] ->
  findMissingBlocks s chainId =
    jumpsFrom 0 (indexedBlockNumbers s chainId)
      ++ trailingRange (last (indexedBlockNumbers s chainId) 0)
                       (ScanProgressDocument.lastIndexedBlock p).
Proof.
  intros Hp Hnz Hne. unfold findMissingBlocks, missingRangesOf. rewrite Hp.
  destruct (Z.eqb_spec (ScanProgressDocument.lastIndexedBlock p) 0); [contradiction|].
  destruct (indexedBlockNumbers s chainId) as [|h0 rest] eqn:E; [contradiction|].
  rewrite GapFacts.scan_jumps. unfold trailingRange. simpl app at 1.
  destruct (last (h0 :: rest) 0 <? ScanProgressDocument.lastIndexedBlock p);
    [reflexivity|now rewrite app_nil_r].
Qed.

(** X15: when the progress record is not at 0 and the persisted heights
    of the chain lie between 0 and its [lastIndexedBlock], the ranges
    that [findMissingBlocks] returns cover exactly the heights between 0
    and [lastIndexedBlock] that have no block document: no missing height
    is left out, and no persisted height is reported. *)
Theorem gaps_are_exactly_the_missing_heights s chainId p :
  getScanProgress s chainId = Some p ->
  ScanProgressDocument.lastIndexedBlock p <> 0 ->
  withinProgress s chainId (ScanProgressDocument.lastIndexedBlock p) ->
  forall h,
    reportedMissing s chainId h <->
    (0 <= h <= ScanProgressDocument.lastIndexedBlock p /\ ~ persisted s chainId h).
Proof.
  intros Hp Hnz Hwithin h.
  set (lastP := ScanProgressDocument.lastIndexedBlock p) in *.
  set (heights := indexedBlockNumbers s chainId).
  assert (Hsorted : StronglySorted Z.le heights) by apply GapFacts.sortAsc_sorted.
  assert (Hin : forall x, In x heights <-> persisted s chainId x)
    by (intros x; apply GapFacts.indexedBlockNumbers_persisted).
  unfold reportedMissing.
  destruct heights as [|h0 rest] eqn:E.
  - assert (Hfind : findMissingBlocks s chainId = [mkRange 0 lastP]).
    { unfold findMissingBlocks, missingRangesOf. rewrite Hp. fold lastP.
      destruct (Z.eqb_spec lastP 0); [contradiction|].
      fold heights. now rewrite E. }
    rewrite Hfind. unfold covers. split.
    + intros (r & [<-|[]] & Hc). simpl in Hc. split; [lia|].
      intros Hper. now apply Hin in Hper.
    + intros (Hrange & _). exists (mkRange 0 lastP). split; [now left|simpl; lia].
  - assert (Hne : heights <> []) by (rewrite E; discriminate).
    rewrite (findMissingBlocks_nonempty s chainId p Hp Hnz Hne).
    fold heights lastP. rewrite <- E in *.
    destruct (sorted_last_max heights 0 Hsorted Hne) as [Hlast Hmax].
    assert (Hlow : forall x, In x heights -> 0 <= x + 1).
    { intros x Hx. apply Hin, Hwithin in Hx. lia. }
    pose proof (jumps_cover heights 0 h Hsorted Hlow) as Hjumps.
    assert (Hhigh : last heights 0 <= lastP).
    { apply Hin, Hwithin in Hlast. fold lastP in Hlast. lia. }
    split.
    + intros (r & Hr & Hc). apply in_app_or in Hr. destruct Hr as [Hr|Hr].
      * destruct Hjumps as [Hj _]. destruct Hj as (Hge & Hnot & x & Hx & Hlt).
        { now exists r. }
        split; [|now rewrite <- Hin].
        specialize (Hmax x Hx). lia.
      * unfold trailingRange in Hr.
        destruct (Z.ltb_spec (last heights 0) lastP); [|contradiction].
        destruct Hr as [<-|[]]. unfold covers in Hc. simpl in Hc.
        split.
        -- apply Hin, Hwithin in Hlast. lia.
        -- intros Hper. apply Hin in Hper. specialize (Hmax h Hper). lia.
    + intros (Hrange & Hnot). rewrite <- Hin in Hnot.
      destruct (Z.lt_ge_cases h (last heights 0)) as [Hbelow|Habove].
      * destruct Hjumps as [_ Hj]. destruct Hj as (r & Hr & Hc).
        { split; [lia|]. split; [assumption|]. now exists (last heights 0). }
        exists r. split; [apply in_or_app; now left|assumption].
      * assert (Hne' : h <> last heights 0) by (intros ->; contradiction).
        exists (mkRange (last heights 0 + 1) lastP). split.
        -- apply in_or_app. right. unfold trailingRange.
           destruct (Z.ltb_spec (last heights 0) lastP); [now left|lia].
        -- unfold covers. simpl. lia.
Qed.

(** The theorem at the store of the example: height 4 is reported, height
    5 is not. *)
Lemma gaps_are_exactly_the_missing_heights_example :
  reportedMissing Examples.gapStore 1 4 /\ ~ reportedMissing Examples.gapStore 1 5.
Proof.
  assert (Hwithin : withinProgress Examples.gapStore 1 9).
  { intros h (b & Hb & _ & <-). simpl in Hb.
    repeat (destruct Hb as [<-|Hb]; [simpl; lia|]). contradiction. }
  pose proof (gaps_are_exactly_the_missing_heights Examples.gapStore 1
                (Examples.progressAt 9) eq_refl ltac:(simpl; lia) Hwithin) as H.
  split.
  - apply H. split; [simpl; lia|]. intros (b & Hb & _ & Hn). simpl in Hb.
    repeat (destruct Hb as [<-|Hb]; [simpl in Hn; lia|]). contradiction.
  - intros Hrep. apply H in Hrep. destruct Hrep as [_ Hnot]. apply Hnot.
    exists (Examples.bareBlock 5 "0x05"). split; [now left|]. split; reflexivity.
Defined.

End MissingFacts.

(** ** The error description of a transaction *)

Module ErrorFacts.
Import Normalize.

Lemma failed_is_not_success r :
  isExtrinsicFailed r = true -> isExtrinsicSuccess r = false.
Proof.
  unfold isExtrinsicFailed, isExtrinsicSuccess. intros H.
  apply andb_true_iff in H. destruct H as [_ H]. apply String.eqb_eq in H.
  rewrite H. simpl. apply andb_false_r.
Qed.

Lemma statusStep_error_kept index acc r :
  appliesTo index r && isExtrinsicFailed r = false ->
  snd (statusStep index acc r) = snd acc.
Proof.
  unfold statusStep. destruct acc as [success error].
  destruct (appliesTo index r); [|reflexivity]. simpl. intros ->.
  destruct (isExtrinsicSuccess r); reflexivity.
Qed.

Lemma error_kept index events : forall acc,
  (forall r, In r events -> appliesTo index r && isExtrinsicFailed r = false) ->
  snd (fold_left (statusStep index) events acc) = snd acc.
Proof.
  induction events as [|r rest IH]; intros acc H; simpl; [reflexivity|].
  rewrite IH by (intros r' Hr'; apply H; now right).
  apply statusStep_error_kept. apply H. now left.
Qed.

Lemma statusStep_failed index acc r :
  appliesTo index r = true -> isExtrinsicFailed r = true ->
  snd (statusStep index acc r) = Some (dispatchErrorOf r).
Proof.
  unfold statusStep. destruct acc as [success error]. intros -> Hf.
  rewrite (failed_is_not_success r Hf), Hf. reflexivity.
Qed.

(** X16: the error description of a transaction record is that of the
    last failed marker among the events of its position, whatever comes
    after it: a success marker that follows sets [success] but leaves the
    error in place. Without any failed marker for the position there is
    no error description. *)
Theorem error_is_of_last_failed_marker chainId d index x doc :
  extrinsicDoc chainId d index x = Resolved doc ->
  ((forall r, In r (allEvents d) -> appliesTo index r && isExtrinsicFailed r = false) ->
   ExtrinsicDocument.error doc = None)
  /\
  (forall pre r post,
     allEvents d = pre ++ r :: post ->
     appliesTo index r = true ->
     isExtrinsicFailed r = true ->
     (forall r', In r' post -> appliesTo index r' && isExtrinsicFailed r' = false) ->
     ExtrinsicDocument.error doc = Some (dispatchErrorOf r)).
Proof.
  intros Hdoc. apply NormalizeFacts.extrinsicDoc_status in Hdoc.
  assert (Herr : ExtrinsicDocument.error doc = snd (extrinsicStatus (allEvents d) index))
    by now rewrite <- Hdoc.
  rewrite Herr. unfold extrinsicStatus. split.
  - intros Hnone. now rewrite error_kept.
  - intros pre r post -> Happ Hfail Hpost.
    rewrite fold_left_app. simpl. rewrite error_kept by assumption.
    now apply statusStep_failed.
Qed.

(** The theorem on a block whose extrinsic 0 has a failed marker followed
    by a success marker: the record says success, and keeps the error. *)
Lemma error_is_of_last_failed_marker_example :
  exists doc,
    extrinsicDoc 1 MoreExamples.failedThenSucceeded 0 Examples.halfDecoded = Resolved doc /\
    ExtrinsicDocument.success doc = true /\
    ExtrinsicDocument.error doc = Some "BadOrigin"%string.
Proof.
  eexists. split; [reflexivity|]. split; [reflexivity|].
  apply (proj2 (error_is_of_last_failed_marker 1 MoreExamples.failedThenSucceeded 0
                  Examples.halfDecoded _ eq_refl)
               [] Examples.failedAt0 [Examples.successAt0]).
  - reflexivity.
  - reflexivity.
  - reflexivity.
  - intros r' [<-|[]]. reflexivity.
Defined.

End ErrorFacts.

(** ** The command line *)

Module CliFacts.
Import Indexer Cli.

(** X17: for one reading of the chain tip and of the progress record,
    [main] and [index] work out the same range whenever [--from-latest]
    is not what decides the start: the end heights always agree, and so
    do the start heights when a start is given or the flag is absent. With [--from-latest] and no [--start], the dashboard
    starts at the chain tip while [index] is passed no start at all and
    resolves it from the progress record as without the flag. The
    figures sent to the dashboard always satisfy
    [blocksProcessed + blocksRemaining = totalBlocks]. *)
Theorem dashboard_range_and_indexer_range api args progress :
  let latest := latestBlock api in
  let endOfIndex := resolveEnd api (endBlock (optionsPassed args)) in
  let startOfIndex := resolveStart (startBlock (optionsPassed args)) progress endOfIndex in
  actualEndBlock args latest = endOfIndex /\
  (fromLatest args = false \/ userStartBlock args <> None ->
   actualStartBlock args progress latest = startOfIndex) /\
  (fromLatest args = true -> userStartBlock args = None ->
   actualStartBlock args progress latest = latest /\
   startOfIndex = resolveStart None progress endOfIndex) /\
  (forall sessionStart report,
     let stats := dashboardStats args sessionStart (actualEndBlock args latest) report in
     blocksProcessed stats + blocksRemaining stats = totalBlocks stats).
Proof.
  intros latest endOfIndex startOfIndex.
  assert (Hend : actualEndBlock args latest = endOfIndex) by reflexivity.
  split; [exact Hend|]. split; [|split].
  - intros Hcase. subst startOfIndex. unfold actualStartBlock, resolveStart.
    rewrite Hend. simpl.
    destruct (userStartBlock args) as [s|]; [reflexivity|].
    destruct Hcase as [-> |Hne]; [reflexivity|now elim Hne].
  - intros Hflag Hnone. subst startOfIndex. unfold actualStartBlock. simpl.
    rewrite Hnone, Hflag. split; reflexivity.
  - intros sessionStart report stats. subst stats. simpl. lia.
Qed.

(** The theorem with only [--from-latest], the chain at height 20 and the
    progress record at 9: the dashboard starts at 20, [index] at 10. *)
Lemma dashboard_range_and_indexer_range_example :
  actualStartBlock MoreExamples.fromLatestOnly (Some (Examples.progressAt 9)) 20 = 20 /\
  resolveStart (startBlock (optionsPassed MoreExamples.fromLatestOnly))
               (Some (Examples.progressAt 9))
               (resolveEnd Examples.nodeAtTwenty
                           (endBlock (optionsPassed MoreExamples.fromLatestOnly))) = 10.
Proof.
  destruct (dashboard_range_and_indexer_range Examples.nodeAtTwenty
              MoreExamples.fromLatestOnly (Some (Examples.progressAt 9)))
    as (_ & _ & H & _).
  destruct (H eq_refl eq_refl) as [Hdash Hindex].
  split; [exact Hdash|]. rewrite Hindex. reflexivity.
Defined.

End CliFacts.

(** ** Stored documents are kept *)

Module KeptFacts.
Import Db Normalize Indexer Schedule Log Kept.

Lemma extends_refl s : extends s s.
Proof. repeat split; exists []; now rewrite app_nil_r. Qed.

Lemma extends_trans s1 s2 s3 : extends s1 s2 -> extends s2 s3 -> extends s1 s3.
Proof.
  intros ((b1 & Hb1) & (x1 & Hx1) & (e1 & He1)) ((b2 & Hb2) & (x2 & Hx2) & (e2 & He2)).
  repeat split.
  - exists (b1 ++ b2). now rewrite Hb2, Hb1, app_assoc.
  - exists (x1 ++ x2). now rewrite Hx2, Hx1, app_assoc.
  - exists (e1 ++ e2). now rewrite He2, He1, app_assoc.
Qed.

Lemma insertMany_extends {D} (conflicts : D -> D -> bool) docs : forall coll,
  exists added, fst (insertMany conflicts coll docs) = coll ++ added.
Proof.
  induction docs as [|doc docs IH]; intros coll; simpl.
  - exists []. now rewrite app_nil_r.
  - destruct (DbFacts.insertOne_spec conflicts coll doc) as [[_ ->]|[_ ->]].
    + exists []. now rewrite app_nil_r.
    + destruct (IH (coll ++ [doc])) as [added Ha].
      exists (doc :: added). rewrite Ha, <- app_assoc. reflexivity.
Qed.

Lemma insertOne_extends {D} (conflicts : D -> D -> bool) coll doc :
  exists added, fst (insertOne conflicts coll doc) = coll ++ added.
Proof.
  destruct (DbFacts.insertOne_spec conflicts coll doc) as [[_ ->]|[_ ->]].
  - exists []. simpl. now rewrite app_nil_r.
  - now exists [doc].
Qed.

Lemma batch_extends {D} (conflicts : D -> D -> bool) docs coll :
  exists added,
    fst (match docs with
         | [] => (coll, None)
         | _ :: _ => insertMany conflicts coll docs
         end) = coll ++ added.
Proof.
  destruct docs as [|doc rest].
  - exists []. simpl. now rewrite app_nil_r.
  - apply insertMany_extends.
Qed.

Lemma persist_extends s docs : extends s (fst (persist s docs)).
Proof.
  unfold persist.
  destruct (insertOne_extends blockConflicts (Db.blocks s) (theBlock docs)) as [ba Hb].
  destruct (batch_extends extrinsicConflicts (extrinsicDocs docs) (Db.extrinsics s))
    as [xa Hx].
  destruct (batch_extends eventConflicts (eventDocs docs) (Db.events s)) as [ea He].
  destruct (insertOne blockConflicts (Db.blocks s) (theBlock docs)) as [blocks' e1].
  destruct (match extrinsicDocs docs with
            | [] => (Db.extrinsics s, None)
            | _ :: _ => insertMany extrinsicConflicts (Db.extrinsics s) (extrinsicDocs docs)
            end) as [extrinsics' e2].
  destruct (match eventDocs docs with
            | [] => (Db.events s, None)
            | _ :: _ => insertMany eventConflicts (Db.events s) (eventDocs docs)
            end) as [events' e3].
  simpl in *. split; [|split]; eexists; eassumption.
Qed.

Lemma updateScanProgress_extends s p : extends s (updateScanProgress s p).
Proof.
  unfold extends, updateScanProgress. simpl.
  repeat split; exists []; now rewrite app_nil_r.
Qed.

Section WithRun.
Variable api : ChainApi.
Variable retryFuel : nat.
Variable chainId : Z.
Variable endBlock : Z.
Variable concurrency : Z.
Variable callbackGiven : bool.

Lemma await_extends st :
  extends (db st) (db (stateOf (awaitHead api retryFuel chainId endBlock callbackGiven st))).
Proof.
  unfold awaitHead. destruct (fetchQueue st) as [|h rest]; [apply extends_refl|].
  destruct (fetchBlockData api retryFuel h) as [d| |e|]; try apply extends_refl.
  unfold processBlock, onError. cbn [db].
  destruct (normalize chainId d) as [docs|e]; simpl.
  - pose proof (persist_extends (db st) docs) as Hp.
    destruct (persist (db st) docs) as [s [e|]]; simpl in *;
      (eapply extends_trans; [exact Hp|apply updateScanProgress_extends]).
  - apply updateScanProgress_extends.
Qed.

End WithRun.

(** X18: a run only ever adds documents: in every state it can reach,
    failed or not, the blocks, extrinsics and events that the store held
    at the start are still there, unchanged and in the same order, with
    the new documents after them. *)
Theorem stored_documents_are_kept
        api retryFuel chainId endBlock concurrency callbackGiven store startBlock s :
  reachable api retryFuel chainId endBlock concurrency callbackGiven
            (start chainId store startBlock) s ->
  extends store (db (loop s)).
Proof.
  induction 1 as [|s s' Hreach IH Hstep]; [apply extends_refl|].
  destruct Hstep as [st stl pt h Hin Hnew Hfetch
                    |st stl Hle
                    |st stl Hlt
                    |st stl st' Hhead Hawait
                    |st stl error st' Hhead Hawait]; simpl in *; try exact IH.
  - destruct (IndexerFacts.fillQueue_fields endBlock concurrency st)
      as (_ & _ & _ & -> & _). exact IH.
  - apply (extends_trans _ _ _ IH).
    pose proof (await_extends api retryFuel chainId endBlock callbackGiven st) as H.
    now rewrite Hawait in H.
  - apply (extends_trans _ _ _ IH).
    pose proof (await_extends api retryFuel chainId endBlock callbackGiven st) as H.
    now rewrite Hawait in H.
Qed.

(** The run over height 3 on the store that holds six blocks is one the
    loop can follow. *)
Lemma kept3_reachable :
  reachable Examples.healthyNode 1 1 3 1 false
            (start 1 Examples.gapStore 3) MoreExamples.kept3.
Proof.
  apply reach_step with (s := MoreExamples.kept2).
  apply reach_step with (s := MoreExamples.kept1).
  apply reach_step with (s := MoreExamples.kept0).
  - apply reach_init.
  - apply step_enter. simpl. lia.
  - apply step_settle; [vm_compute; tauto|simpl; tauto|vm_compute; discriminate].
  - apply step_resume; [vm_compute; tauto|vm_compute; reflexivity].
Defined.

(** The theorem on that run: after height 3 is indexed the six blocks the
    store held are still its first six, in the order they had, and the
    block of height 3 comes after them. *)
Lemma stored_documents_are_kept_example :
  extends Examples.gapStore (db (loop MoreExamples.kept3)) /\
  Db.blocks Examples.gapStore <> [] /\
  map BlockDocument.number (Db.blocks (db (loop MoreExamples.kept3))) =
    map BlockDocument.number (Db.blocks Examples.gapStore) ++ [3].
Proof.
  split; [|split; [discriminate|reflexivity]].
  apply (stored_documents_are_kept Examples.healthyNode 1 1 3 1 false
                                   Examples.gapStore 3 MoreExamples.kept3).
  exact kept3_reachable.
Defined.

End KeptFacts.
